(** * Game of Life: the grid engine and its browser driver

    The repository has two halves.  The browser driver, [www/index.js],
    is the code verified here: it owns the canvas, the animation loop
    and the click handlers.  The grid engine it drives lives in a wasm
    module whose source is not part of the tree; it is modelled from
    the specification in [Module Grid] and enters the driver only
    through the interface [Engine]. *)

From Stdlib Require Import Ascii ZArith QArith Qround List String Lia Bool.
From stdpp Require Import base list numbers.
Import ListNotations.
Open Scope Z_scope.

(** ** Tables in row-major order

    A table of [h] rows and [w] columns laid out row after row; both the
    engine's buffer and the driver's sequence of painted rectangles have
    this shape. *)

Definition tabulate {A} (h w : nat) (f : nat -> nat -> A) : list A :=
  flat_map (fun r => map (f r) (seq 0 w)) (seq 0 h).

(** ** The grid engine *)

Module Grid.

(** Modelled from the spec: the engine's cell type, "exactly one of two
    values: Alive or Dead".  The engine's source is not in the tree. *)
Inductive Cell := Dead | Alive.

(** Modelled from the spec: the Grid entity of the data model, a width, a
    height and a dense row-major buffer with one entry per position. *)
Record Grid := mkGrid {
  width : Z;
  height : Z;
  cells : list Cell
}.

(** Modelled from the spec: the data-model invariant, positive
    dimensions and a buffer of exactly [width * height] entries. *)
Definition wf (g : Grid) : Prop :=
  0 < width g /\ 0 < height g /\
  Z.of_nat (length (cells g)) = width g * height g.

(** Modelled from the spec: the indexing formula [row * width + column]. *)
Definition get_index (g : Grid) (row column : Z) : Z :=
  row * width g + column.

(** Modelled from the spec: the coordinates [toggle] accepts, those of
    [[0, height) x [0, width)]. *)
Definition in_bounds (g : Grid) (row column : Z) : bool :=
  (0 <=? row) && (row <? height g) && (0 <=? column) && (column <? width g).

(** Modelled from the spec: the state of the cell at a position, read at
    its index; a position outside the grid reads as Dead, so that the
    function is total. *)
Definition cell_at (g : Grid) (row column : Z) : Cell :=
  if in_bounds g row column
  then default Dead (cells g !! Z.to_nat (get_index g row column))
  else Dead.

(** Modelled from the spec: what a cell adds to a count of live
    neighbours. *)
Definition live (c : Cell) : Z :=
  match c with Alive => 1 | Dead => 0 end.

(** Modelled from the spec: the 8 adjacent positions, orthogonal and
    diagonal, as row and column offsets. *)
Definition neighbor_offsets : list (Z * Z) :=
  [(-1, -1); (-1, 0); (-1, 1); (0, -1); (0, 1); (1, -1); (1, 0); (1, 1)].

(** Modelled from the spec: toroidal wrap-around, "row -1 maps to
    height-1, column width maps to 0". *)
Definition wrap (n k : Z) : Z := k mod n.

(** Modelled from the spec: the positions of the 8 neighbours of a cell,
    wrapped around the edges. *)
Definition neighbors (g : Grid) (row column : Z) : list (Z * Z) :=
  map (fun d => (wrap (height g) (row + fst d), wrap (width g) (column + snd d)))
      neighbor_offsets.

(** Modelled from the spec: the number of live cells among them. *)
Definition live_neighbor_count (g : Grid) (row column : Z) : Z :=
  fold_right Z.add 0
    (map (fun p => live (cell_at g (fst p) (snd p))) (neighbors g row column)).

(** Modelled from the spec: the B3/S23 transition of one cell. *)
Definition next_cell (c : Cell) (n : Z) : Cell :=
  match c with
  | Alive => if (n =? 2) || (n =? 3) then Alive else Dead
  | Dead => if n =? 3 then Alive else Dead
  end.

(** Modelled from the spec: [step()] computes the next generation into a
    second buffer, reading only the previous one, and then replaces the
    buffer. *)
Definition step (g : Grid) : Grid :=
  let next :=
    tabulate (Z.to_nat (height g)) (Z.to_nat (width g))
      (fun r c =>
         next_cell (cell_at g (Z.of_nat r) (Z.of_nat c))
                   (live_neighbor_count g (Z.of_nat r) (Z.of_nat c))) in
  {| width := width g; height := height g; cells := next |}.

(** Modelled from the spec: the error of [toggle]. *)
Inductive Error := OutOfBounds.

(** Modelled from the spec: the other state of a cell. *)
Definition flip (c : Cell) : Cell :=
  match c with Dead => Alive | Alive => Dead end.

(** Modelled from the spec: [toggle(row, column)] flips one cell, and
    fails with OutOfBounds for a coordinate outside
    [[0, height) x [0, width)].  The result pairs the grid after the call
    with the outcome, so that a failure still shows the buffer. *)
Definition toggle (g : Grid) (row column : Z) : Grid * option Error :=
  if in_bounds g row column then
    let idx := Z.to_nat (get_index g row column) in
    ({| width := width g; height := height g;
        cells := alter flip idx (cells g) |}, None)
  else (g, Some OutOfBounds).

(** Modelled from the spec: [clear()] sets every cell to Dead in place. *)
Definition clear (g : Grid) : Grid :=
  {| width := width g; height := height g;
     cells := map (fun _ => Dead) (cells g) |}.

End Grid.

(** ** JavaScript numbers

    The driver computes with doubles.  A finite double is read here as
    the rational it stands for, next to the three special values; the
    arithmetic operations round their exact result to the nearest
    double, ties to the even mantissa, as IEEE 754 binary64 does.  The
    sign of zero is not modelled (a zero divisor is read as +0). *)

Module JS.

Inductive num := NaN | NegInf | PosInf | Fin (q : Q).

(** A whole number as a double; exact up to 2^53 in absolute value,
    which covers the loop counter, the grid and the canvas sizes. *)
Definition of_Z (z : Z) : num := Fin (inject_Z z).

Definition inf_of (s : comparison) : num :=
  match s with Gt => PosInf | Lt => NegInf | Eq => NaN end.

(** The integer nearest to [n / d], for [0 < d]; the even one of the
    two when [n / d] lies halfway between them. *)
Definition nearest_even (n d : Z) : Z :=
  let f := n / d in
  match 2 * (n mod d) ?= d with
  | Lt => f
  | Gt => f + 1
  | Eq => if Z.even f then f else f + 1
  end.

(** The exponent [e] with [2^e <= |n / d| < 2^(e+1)], for [n <> 0] and
    [0 < d]. *)
Definition exponent (n d : Z) : Z :=
  let l := Z.log2 (Z.abs n) - Z.log2 d in
  if (if 0 <=? l then d * 2 ^ l <=? Z.abs n else d <=? Z.abs n * 2 ^ (- l))
  then l else l - 1.

(** The double nearest to the rational [q]: a mantissa of 53 bits
    scaled by a power of two that is at least 2^-1074 (below 2^-1022 the
    doubles are evenly spaced), and an infinity when the rounded value
    reaches 2^1024. *)
Definition round (q : Q) : num :=
  let n := Qnum (Qred q) in
  let d := Z.pos (Qden (Qred q)) in
  if n =? 0 then Fin 0 else
  let ex := Z.max (exponent n d - 52) (-1074) in
  if 0 <=? ex then
    let m := nearest_even n (d * 2 ^ ex) in
    if 2 ^ 1024 <=? Z.abs m * 2 ^ ex then inf_of (n ?= 0)
    else Fin (inject_Z (m * 2 ^ ex))
  else Fin (Qred (nearest_even (n * 2 ^ (- ex)) d # Z.to_pos (2 ^ (- ex)))).

(** The double that a number written [q] denotes: a decimal literal, or
    a coordinate the page hands to the script. *)
Definition of_Q (q : Q) : num := round q.

(** [a * b] *)
Definition mul (a b : num) : num :=
  match a, b with
  | NaN, _ | _, NaN => NaN
  | Fin x, Fin y => round (x * y)
  | Fin x, PosInf | PosInf, Fin x => inf_of (x ?= 0)%Q
  | Fin x, NegInf | NegInf, Fin x => inf_of (CompOpp (x ?= 0)%Q)
  | PosInf, PosInf | NegInf, NegInf => PosInf
  | PosInf, NegInf | NegInf, PosInf => NegInf
  end.

(** [a / b] *)
Definition div (a b : num) : num :=
  match a, b with
  | NaN, _ | _, NaN => NaN
  | Fin x, Fin y => if Qeq_bool y 0 then inf_of (x ?= 0)%Q else round (x / y)
  | Fin _, PosInf | Fin _, NegInf => Fin 0
  | PosInf, Fin y => if Qle_bool 0 y then PosInf else NegInf
  | NegInf, Fin y => if Qle_bool 0 y then NegInf else PosInf
  | _, _ => NaN
  end.

(** [a - b] *)
Definition sub (a b : num) : num :=
  match a, b with
  | NaN, _ | _, NaN => NaN
  | Fin x, Fin y => round (x - y)
  | PosInf, PosInf | NegInf, NegInf => NaN
  | PosInf, _ | _, NegInf => PosInf
  | NegInf, _ | _, PosInf => NegInf
  end.

(** [Math.floor(a)] *)
Definition floor (a : num) : num :=
  match a with
  | Fin q => of_Z (Qfloor q)
  | _ => a
  end.

(** [Math.min(a, b)] *)
Definition min (a b : num) : num :=
  match a, b with
  | NaN, _ | _, NaN => NaN
  | NegInf, _ | _, NegInf => NegInf
  | PosInf, c | c, PosInf => c
  | Fin x, Fin y => if Qle_bool x y then Fin x else Fin y
  end.

(** [a < b] *)
Definition ltb (a b : num) : bool :=
  match a, b with
  | NaN, _ | _, NaN => false
  | _, NegInf | PosInf, _ => false
  | NegInf, _ | _, PosInf => true
  | Fin x, Fin y => negb (Qle_bool y x)
  end.

(** [a <= b] *)
Definition leb (a b : num) : bool :=
  match a, b with
  | NaN, _ | _, NaN => false
  | NegInf, _ | _, PosInf => true
  | _, NegInf | PosInf, _ => false
  | Fin x, Fin y => Qle_bool x y
  end.

(** [i++] on a counter that starts at 0: exact up to 2^53, where adding
    1 to a double rounds back to the same value. *)
Definition incr (i : Z) : Z := if i <? 2 ^ 53 then i + 1 else i.

(** The values the variable [ticksPerFrame] holds: the number it is
    initialised with, or the string read from the range control. *)
Inductive value := Num (n : num) | Str (s : string).

End JS.

(** ** The wasm module as seen from the driver

    [index.js] imports [Universe], [Cell] and [memory] from the wasm
    package.  The package is not in the tree, so the driver is
    parameterised by it: [W] is the state of the wasm instance (its
    linear memory, with every universe allocated in it), a universe
    object is the pointer the JavaScript wrapper holds, and [R] is the
    randomness one call of [Universe.random_universe()] consumes. *)

Class Engine (W R : Type) := {
  (** [Universe.new()] *)
  Universe_new : W -> W * Z;
  (** [Universe.random_universe()] *)
  Universe_random_universe : R -> W -> W * Z;
  (** [universe.width()], [universe.height()] *)
  universe_width : W -> Z -> Z;
  universe_height : W -> Z -> Z;
  (** [universe.tick()] *)
  universe_tick : Z -> W -> W;
  (** [universe.kill_universe()] *)
  universe_kill_universe : Z -> W -> W;
  (** [universe.toggle_cell(row, col)]; [None] when the call throws,
      which leaves the instance as it was *)
  universe_toggle_cell : Z -> JS.num -> JS.num -> W -> option W;
  (** [universe.cells()], a pointer into the linear memory *)
  universe_cells : W -> Z -> Z;
  (** [memory.buffer], one entry per byte *)
  memory_buffer : W -> list Z;
  (** [Cell.Dead] *)
  Cell_Dead : Z
}.

(** ** The driver, [www/index.js] *)

Module Index.

Definition CELL_SIZE : Z := 5.
Definition GRID_COLOR : string := "#CCCCCC".
Definition DEAD_COLOR : string := "#FFFFFF".
Definition ALIVE_COLOR : string := "#000000".

(** The 2d context: the two styles and the current path. *)
Inductive PathOp := MoveTo (x y : Z) | LineTo (x y : Z).

Record Ctx := mkCtx {
  strokeStyle : string;
  fillStyle : string;
  path : list PathOp
}.

(** Every call the driver makes on the wasm module, on the canvas and on
    the frame scheduler, in the order it makes them. *)
Inductive call :=
| CNew
| CRandomUniverse
| CWidth (u : Z)
| CHeight (u : Z)
| CTick (u : Z)
| CKill (u : Z)
| CToggle (u : Z) (row col : JS.num)
| CCells (u : Z)
| CView (ptr len : Z)
| CStroke (p : list PathOp) (style : string)
| CFillRect (x y w h : Z) (style : string)
| CRequestFrame (id : Z)
| CCancelFrame (id : option Z).

(** [canvas.getBoundingClientRect()] and the fields of a click event the
    handler reads, each given by the number it is written as; the
    handler works with the doubles of these numbers. *)
Record DOMRect := mkRect {
  rect_left : Q;
  rect_top : Q;
  rect_width : Q;
  rect_height : Q
}.

Record MouseEvent := mkMouse {
  clientX : Q;
  clientY : Q
}.

(** How one call of a driver function ends: it returns, it throws, or
    the bound on its loop iterations is used up. *)
Inductive outcome (A : Type) :=
| Returned (a : A)
| Thrown
| Diverged.
Arguments Returned {A} a.
Arguments Thrown {A}.
Arguments Diverged {A}.

Section Driver.

Context {W R : Type} `{Engine W R}.

(** [ToNumber] on strings, applied by [i < ticksPerFrame] once
    [ticksPerFrame] holds the control's value. *)
Variable StringToNumber : string -> JS.num.

Definition ToNumber (v : JS.value) : JS.num :=
  match v with
  | JS.Num n => n
  | JS.Str s => StringToNumber s
  end.

(** The module's variables and the parts of the page it touches. *)
Record World := mkWorld {
  wasm : W;
  universe : Z;                  (* let universe *)
  width : Z;                     (* const width *)
  height : Z;                    (* const height *)
  canvas_width : Z;
  canvas_height : Z;
  ctx : Ctx;
  animationId : option Z;        (* null, or a request id *)
  playPauseButton : string;      (* its textContent *)
  ticksFrameInputRange : string; (* its value *)
  ticksValue : string;           (* its innerHTML *)
  ticksPerFrame : JS.value;
  pending : list Z;              (* frame requests not yet run *)
  next_id : Z;
  log : list call
}.

Definition set_wasm (w : W) (s : World) : World :=
  mkWorld w (universe s) (width s) (height s) (canvas_width s) (canvas_height s)
    (ctx s) (animationId s) (playPauseButton s) (ticksFrameInputRange s)
    (ticksValue s) (ticksPerFrame s) (pending s) (next_id s) (log s).

Definition set_universe (u : Z) (s : World) : World :=
  mkWorld (wasm s) u (width s) (height s) (canvas_width s) (canvas_height s)
    (ctx s) (animationId s) (playPauseButton s) (ticksFrameInputRange s)
    (ticksValue s) (ticksPerFrame s) (pending s) (next_id s) (log s).

Definition set_ctx (c : Ctx) (s : World) : World :=
  mkWorld (wasm s) (universe s) (width s) (height s) (canvas_width s)
    (canvas_height s) c (animationId s) (playPauseButton s)
    (ticksFrameInputRange s) (ticksValue s) (ticksPerFrame s) (pending s)
    (next_id s) (log s).

Definition set_animationId (a : option Z) (s : World) : World :=
  mkWorld (wasm s) (universe s) (width s) (height s) (canvas_width s)
    (canvas_height s) (ctx s) a (playPauseButton s) (ticksFrameInputRange s)
    (ticksValue s) (ticksPerFrame s) (pending s) (next_id s) (log s).

Definition set_playPauseButton (t : string) (s : World) : World :=
  mkWorld (wasm s) (universe s) (width s) (height s) (canvas_width s)
    (canvas_height s) (ctx s) (animationId s) t (ticksFrameInputRange s)
    (ticksValue s) (ticksPerFrame s) (pending s) (next_id s) (log s).

Definition set_ticksFrameInputRange (t : string) (s : World) : World :=
  mkWorld (wasm s) (universe s) (width s) (height s) (canvas_width s)
    (canvas_height s) (ctx s) (animationId s) (playPauseButton s) t
    (ticksValue s) (ticksPerFrame s) (pending s) (next_id s) (log s).

Definition set_ticksValue (t : string) (s : World) : World :=
  mkWorld (wasm s) (universe s) (width s) (height s) (canvas_width s)
    (canvas_height s) (ctx s) (animationId s) (playPauseButton s)
    (ticksFrameInputRange s) t (ticksPerFrame s) (pending s) (next_id s) (log s).

Definition set_ticksPerFrame (v : JS.value) (s : World) : World :=
  mkWorld (wasm s) (universe s) (width s) (height s) (canvas_width s)
    (canvas_height s) (ctx s) (animationId s) (playPauseButton s)
    (ticksFrameInputRange s) (ticksValue s) v (pending s) (next_id s) (log s).

Definition set_frames (p : list Z) (n : Z) (s : World) : World :=
  mkWorld (wasm s) (universe s) (width s) (height s) (canvas_width s)
    (canvas_height s) (ctx s) (animationId s) (playPauseButton s)
    (ticksFrameInputRange s) (ticksValue s) (ticksPerFrame s) p n (log s).

Definition set_log (l : list call) (s : World) : World :=
  mkWorld (wasm s) (universe s) (width s) (height s) (canvas_width s)
    (canvas_height s) (ctx s) (animationId s) (playPauseButton s)
    (ticksFrameInputRange s) (ticksValue s) (ticksPerFrame s) (pending s)
    (next_id s) l.

(** *** The monad of driver code: state, with exceptions that keep the
    state reached so far. *)

Definition M (A : Type) : Type := World -> outcome A * World.

Definition ret {A} (a : A) : M A := fun s => (Returned a, s).

Definition bind {A B} (m : M A) (f : A -> M B) : M B :=
  fun s =>
    match m s with
    | (Returned a, s') => f a s'
    | (Thrown, s') => (Thrown, s')
    | (Diverged, s') => (Diverged, s')
    end.

Definition get {A} (f : World -> A) : M A := fun s => (Returned (f s), s).
Definition modify (f : World -> World) : M unit := fun s => (Returned tt, f s).
Definition throw {A} : M A := fun s => (Thrown, s).
Definition diverge {A} : M A := fun s => (Diverged, s).
Definition emit (c : call) : M unit := modify (fun s => set_log (log s ++ [c]) s).

Local Notation "x <- m ;; k" := (bind m (fun x => k))
  (at level 100, m at next level, right associativity).
Local Notation "m ;;; k" := (bind m (fun _ => k))
  (at level 100, right associativity).

(** [for (let i = lo; ...; i++) body], for a loop whose bound is one of
    the constants [width] and [height]: [n] is the number of values the
    counter takes. *)
Fixpoint for_range (n : nat) (i : Z) (body : Z -> M unit) : M unit :=
  match n with
  | O => ret tt
  | S n' => body i ;;; for_range n' (i + 1) body
  end.

(** [for (let i = lo; i < hi; i++)] and [for (let i = lo; i <= hi; i++)] *)
Definition for_lt (lo hi : Z) (body : Z -> M unit) : M unit :=
  for_range (Z.to_nat (hi - lo)) lo body.
Definition for_le (lo hi : Z) (body : Z -> M unit) : M unit :=
  for_range (Z.to_nat (hi + 1 - lo)) lo body.

(** *** The canvas context *)

Definition ctx_beginPath : M unit :=
  modify (fun s => set_ctx (mkCtx (strokeStyle (ctx s)) (fillStyle (ctx s)) []) s).
Definition ctx_set_strokeStyle (c : string) : M unit :=
  modify (fun s => set_ctx (mkCtx c (fillStyle (ctx s)) (path (ctx s))) s).
Definition ctx_set_fillStyle (c : string) : M unit :=
  modify (fun s => set_ctx (mkCtx (strokeStyle (ctx s)) c (path (ctx s))) s).
Definition ctx_moveTo (x y : Z) : M unit :=
  modify (fun s => set_ctx (mkCtx (strokeStyle (ctx s)) (fillStyle (ctx s))
                                  (path (ctx s) ++ [MoveTo x y])) s).
Definition ctx_lineTo (x y : Z) : M unit :=
  modify (fun s => set_ctx (mkCtx (strokeStyle (ctx s)) (fillStyle (ctx s))
                                  (path (ctx s) ++ [LineTo x y])) s).
Definition ctx_stroke : M unit :=
  c <- get ctx ;; emit (CStroke (path c) (strokeStyle c)).
Definition ctx_fillRect (x y w h : Z) : M unit :=
  c <- get ctx ;; emit (CFillRect x y w h (fillStyle c)).

(** *** The frame scheduler *)

Definition requestAnimationFrame : M Z :=
  id <- get next_id ;;
  p <- get pending ;;
  modify (set_frames (p ++ [id]) (id + 1)) ;;;
  emit (CRequestFrame id) ;;;
  ret id.

Definition cancelAnimationFrame (id : option Z) : M unit :=
  p <- get pending ;;
  n <- get next_id ;;
  modify (set_frames match id with
                     | Some i => List.filter (fun j => negb (j =? i)) p
                     | None => p
                     end n) ;;;
  emit (CCancelFrame id).

(** *** Calls into the wasm module *)

Definition call_tick : M unit :=
  u <- get universe ;; w <- get wasm ;;
  emit (CTick u) ;;; modify (set_wasm (universe_tick u w)).

Definition call_kill_universe : M unit :=
  u <- get universe ;; w <- get wasm ;;
  emit (CKill u) ;;; modify (set_wasm (universe_kill_universe u w)).

Definition call_toggle_cell (row col : JS.num) : M unit :=
  u <- get universe ;; w <- get wasm ;;
  emit (CToggle u row col) ;;;
  match universe_toggle_cell u row col w with
  | Some w' => modify (set_wasm w')
  | None => throw
  end.

Definition call_random_universe (r : R) : M Z :=
  w <- get wasm ;;
  emit CRandomUniverse ;;;
  modify (set_wasm (fst (Universe_random_universe r w))) ;;;
  ret (snd (Universe_random_universe r w)).

Definition call_cells : M Z :=
  u <- get universe ;; w <- get wasm ;;
  emit (CCells u) ;;; ret (universe_cells w u).

(** [new Uint8Array(memory.buffer, ptr, len)]: a RangeError unless the
    view lies inside the buffer. *)
Definition new_Uint8Array (ptr len : Z) : M (list Z) :=
  w <- get wasm ;;
  emit (CView ptr len) ;;;
  if (0 <=? ptr) && (0 <=? len) &&
     (ptr + len <=? Z.of_nat (length (memory_buffer w)))
  then ret (take (Z.to_nat len) (drop (Z.to_nat ptr) (memory_buffer w)))
  else throw.

(** *** index.js, lines 24-39 *)

Definition isPaused : M bool :=
  a <- get animationId ;;
  ret match a with None => true | Some _ => false end.

Definition pause : M unit :=
  modify (set_playPauseButton "▶") ;;;
  a <- get animationId ;;
  cancelAnimationFrame a ;;;
  modify (set_animationId None).

(** *** index.js, lines 55-58 *)

Definition updateTicks : M unit :=
  v <- get ticksFrameInputRange ;;
  modify (set_ticksPerFrame (JS.Str v)) ;;;
  v' <- get ticksFrameInputRange ;;
  modify (set_ticksValue v').

(** *** index.js, lines 114-163 *)

Definition drawGrid : M unit :=
  ctx_beginPath ;;;
  ctx_set_strokeStyle GRID_COLOR ;;;
  w <- get width ;;
  h <- get height ;;
  for_le 0 w (fun i =>
    ctx_moveTo (i * (CELL_SIZE + 1) + 1) 0 ;;;
    ctx_lineTo (i * (CELL_SIZE + 1) + 1) ((CELL_SIZE + 1) * h + 1)) ;;;
  for_le 0 h (fun j =>
    ctx_moveTo 0 (j * (CELL_SIZE + 1) + 1) ;;;
    ctx_lineTo ((CELL_SIZE + 1) * w + 1) (j * (CELL_SIZE + 1) + 1)) ;;;
  ctx_stroke.

Definition getIndex (row column : Z) : M Z :=
  w <- get width ;;
  ret (row * w + column).

(** [cells[idx] === Cell.Dead ? DEAD_COLOR : ALIVE_COLOR]; an index
    outside the view reads [undefined], which is not [Cell.Dead]. *)
Definition cell_color (cells : list Z) (idx : Z) : string :=
  match (if 0 <=? idx then cells !! Z.to_nat idx else None) with
  | Some b => if b =? Cell_Dead then DEAD_COLOR else ALIVE_COLOR
  | None => ALIVE_COLOR
  end.

Definition drawCells : M unit :=
  cellsPtr <- call_cells ;;
  w <- get width ;;
  h <- get height ;;
  cells <- new_Uint8Array cellsPtr (w * h) ;;
  ctx_beginPath ;;;
  for_lt 0 h (fun row =>
    for_lt 0 w (fun col =>
      idx <- getIndex row col ;;
      ctx_set_fillStyle (cell_color cells idx) ;;;
      ctx_fillRect (col * (CELL_SIZE + 1) + 1) (row * (CELL_SIZE + 1) + 1)
                   CELL_SIZE CELL_SIZE)) ;;;
  ctx_stroke.

(** *** index.js, lines 100-112 and 30-33

    The tick loop compares its counter with [ticksPerFrame], which may
    never become false; [fuel] bounds the iterations the model runs. *)
Fixpoint tick_loop (fuel : nat) (i : Z) : M unit :=
  t <- get ticksPerFrame ;;
  if JS.ltb (JS.of_Z i) (ToNumber t) then
    match fuel with
    | O => diverge
    | S fuel' => call_tick ;;; tick_loop fuel' (JS.incr i)
    end
  else ret tt.

Definition renderLoop (fuel : nat) : M unit :=
  tick_loop fuel 0 ;;;
  drawGrid ;;;
  drawCells ;;;
  id <- requestAnimationFrame ;;
  modify (set_animationId (Some id)).

Definition play (fuel : nat) : M unit :=
  modify (set_playPauseButton "⏸") ;;;
  renderLoop fuel.

(** *** The event handlers, index.js lines 41-47, 60, 65-69, 74-79, 82-98 *)

Definition playPause_click (fuel : nat) : M unit :=
  p <- isPaused ;;
  if p then play fuel else pause.

(** An [input] event: the control already holds its new value. *)
Definition ticks_input (v : string) : M unit :=
  modify (set_ticksFrameInputRange v) ;;;
  updateTicks.

Definition reset_click (r : R) : M unit :=
  u <- call_random_universe r ;;
  modify (set_universe u) ;;;
  drawGrid ;;;
  drawCells.

Definition kill_click : M unit :=
  pause ;;;
  call_kill_universe ;;;
  drawGrid ;;;
  drawCells.

Definition canvas_click (boundingRect : DOMRect) (event : MouseEvent) : M unit :=
  cw <- get canvas_width ;;
  ch <- get canvas_height ;;
  w <- get width ;;
  h <- get height ;;
  let scaleX := JS.div (JS.of_Z cw) (JS.of_Q (rect_width boundingRect)) in
  let scaleY := JS.div (JS.of_Z ch) (JS.of_Q (rect_height boundingRect)) in
  let canvasLeft :=
    JS.mul (JS.sub (JS.of_Q (clientX event)) (JS.of_Q (rect_left boundingRect)))
           scaleX in
  let canvasTop :=
    JS.mul (JS.sub (JS.of_Q (clientY event)) (JS.of_Q (rect_top boundingRect)))
           scaleY in
  let row :=
    JS.min (JS.floor (JS.div canvasTop (JS.of_Z (CELL_SIZE + 1))))
           (JS.of_Z (h - 1)) in
  let col :=
    JS.min (JS.floor (JS.div canvasLeft (JS.of_Z (CELL_SIZE + 1))))
           (JS.of_Z (w - 1)) in
  call_toggle_cell row col ;;;
  drawGrid ;;;
  drawCells.

(** The browser runs a requested frame: the request leaves the pending
    list and its callback, always [renderLoop], is called. *)
Definition animation_frame (fuel : nat) (id : Z) : M unit :=
  p <- get pending ;;
  if existsb (Z.eqb id) p then
    n <- get next_id ;;
    modify (set_frames (List.filter (fun j => negb (j =? id)) p) n) ;;;
    renderLoop fuel
  else ret tt.

Inductive ui_event :=
| PlayPauseClick
| TicksInput (v : string)
| ResetClick (r : R)
| KillClick
| CanvasClick (boundingRect : DOMRect) (event : MouseEvent)
| AnimationFrame (id : Z).

Definition dispatch (fuel : nat) (e : ui_event) : M unit :=
  match e with
  | PlayPauseClick => playPause_click fuel
  | TicksInput v => ticks_input v
  | ResetClick r => reset_click r
  | KillClick => kill_click
  | CanvasClick b ev => canvas_click b ev
  | AnimationFrame id => animation_frame fuel id
  end.

(** The event loop: handlers run one after the other, each to its end;
    an exception ends the handler and keeps the state it reached, and a
    handler that never returns ends the run. *)
Fixpoint run (fuel : nat) (es : list ui_event) (s : World) : World :=
  match es with
  | [] => s
  | e :: es' =>
      match dispatch fuel e s with
      | (Diverged, s') => s'
      | (_, s') => run fuel es' s'
      end
  end.

(** *** Module start-up, index.js lines 10-22, 53 and 165-168

    [page] is what index.html provides: the initial context, the text of
    the play/pause button, the value of the range control and the
    content of the ticks label. *)
Record Page := mkPage {
  page_ctx : Ctx;
  page_playPauseButton : string;
  page_ticksFrameInputRange : string;
  page_ticksValue : string
}.

Definition start (fuel : nat) (w0 : W) (page : Page) : outcome unit * World :=
  let w1 := fst (Universe_new w0) in
  let u := snd (Universe_new w0) in
  let width := universe_width w1 u in
  let height := universe_height w1 u in
  let s0 :=
    {| wasm := w1; universe := u; width := width; height := height;
       canvas_height := (CELL_SIZE + 1) * height + 1;
       canvas_width := (CELL_SIZE + 1) * width + 1;
       ctx := page_ctx page;
       animationId := None;
       playPauseButton := page_playPauseButton page;
       ticksFrameInputRange := page_ticksFrameInputRange page;
       ticksValue := page_ticksValue page;
       ticksPerFrame := JS.Num (JS.of_Z 1);
       pending := []; next_id := 1;
       log := [CNew; CWidth u; CHeight u] |} in
  (updateTicks ;;; drawGrid ;;; drawCells ;;; play fuel) s0.

End Driver.
End Index.

(** ** The specified engine behind the driver's interface

    Modelled from the spec: a wasm instance holding grids of the data
    model.  The engine's source and its generated bindings are not in
    the tree; the instance allocates the universes one after the other,
    a universe object is its position among them, the linear memory is
    the cell buffers laid end to end with one byte per cell (0 for Dead,
    1 for Alive), and a coordinate that is not an integer is rejected
    the way an out-of-range one is.  [w] and [h] are the dimensions
    [Universe.new()] uses, [rw] and [rh] those
    [Universe.random_universe()] uses. *)

Module GridEngine.

(** Modelled from the spec: the byte of a cell, one of two
    distinguishable values. *)
Definition byte_of_cell (c : Grid.Cell) : Z := Grid.live c.

(** Modelled from the spec: the deterministic grid of [new], all Dead. *)
Definition fresh (w h : Z) : Grid.Grid :=
  Grid.mkGrid w h (repeat Grid.Dead (Z.to_nat (w * h))).

(** Modelled from the spec: the grid of [randomized], each cell set from
    one bit of the random source. *)
Definition random (w h : Z) (bits : list bool) : Grid.Grid :=
  Grid.mkGrid w h
    (map (fun i => if nth i bits false then Grid.Alive else Grid.Dead)
         (seq 0 (Z.to_nat (w * h)))).

(** Modelled from the spec: the grid behind a universe object, and an
    in-place mutation of it. *)
Definition grid_at (heap : list Grid.Grid) (u : Z) : option Grid.Grid :=
  if 0 <=? u then heap !! Z.to_nat u else None.

Definition update (f : Grid.Grid -> Grid.Grid) (u : Z) (heap : list Grid.Grid)
  : list Grid.Grid :=
  if 0 <=? u then alter f (Z.to_nat u) heap else heap.

(** Modelled from the spec: the layout of the cell buffers in the linear
    memory, and the pointer to the buffer of a universe. *)
Definition buffer_size (g : Grid.Grid) : Z := Z.of_nat (length (Grid.cells g)).

Definition cells_ptr (heap : list Grid.Grid) (u : Z) : Z :=
  fold_right Z.add 0 (map buffer_size (take (Z.to_nat u) heap)).

Definition memory (heap : list Grid.Grid) : list Z :=
  flat_map (fun g => map byte_of_cell (Grid.cells g)) heap.

(** Modelled from the spec: the coordinate a number passes to [toggle],
    when it is a whole number. *)
Definition integer (n : JS.num) : option Z :=
  match n with
  | JS.Fin q => if Qeq_bool q (inject_Z (Qfloor q)) then Some (Qfloor q) else None
  | _ => None
  end.

(** Modelled from the spec: [toggle] behind the driver's interface; an
    OutOfBounds failure is an exception of the call. *)
Definition toggle_cell (u : Z) (row col : JS.num) (heap : list Grid.Grid)
  : option (list Grid.Grid) :=
  match grid_at heap u, integer row, integer col with
  | Some g, Some r, Some c =>
      match Grid.toggle g r c with
      | (g', None) => Some (update (fun _ => g') u heap)
      | (_, Some _) => None
      end
  | _, _, _ => None
  end.

(** Modelled from the spec: the operations of the Grid Engine as the
    exports of the wasm package. *)
Definition engine (w h rw rh : Z) : Engine (list Grid.Grid) (list bool) := {|
  Universe_new heap := (heap ++ [fresh w h], Z.of_nat (length heap));
  Universe_random_universe bits heap :=
    (heap ++ [random rw rh bits], Z.of_nat (length heap));
  universe_width heap u := from_option Grid.width 0 (grid_at heap u);
  universe_height heap u := from_option Grid.height 0 (grid_at heap u);
  universe_tick u heap := update Grid.step u heap;
  universe_kill_universe u heap := update Grid.clear u heap;
  universe_toggle_cell := toggle_cell;
  universe_cells := cells_ptr;
  memory_buffer := memory;
  Cell_Dead := 0
|}.

(** ToNumber on strings, the conversion [i < ticksPerFrame] applies to
    the value of the range control.  A string is a number when, white
    space around it removed, it is empty (which is 0), a decimal literal
    with an optional sign, fraction and exponent, a signed [Infinity],
    or an unsigned hexadecimal, octal or binary literal; every other
    text is NaN.  The value is the double nearest to the number
    written.  Strings are sequences of bytes in UTF-8. *)
Definition digit (base : Z) (a : Ascii.ascii) : option Z :=
  let n := Z.of_N (Ascii.N_of_ascii a) in
  let d := if (48 <=? n) && (n <=? 57) then n - 48
           else if (97 <=? n) && (n <=? 102) then n - 87
           else if (65 <=? n) && (n <=? 70) then n - 55
           else -1 in
  if (0 <=? d) && (d <? base) then Some d else None.

(** One or more digits, to the end of the string. *)
Fixpoint digits (base : Z) (s : string) (seen : bool) (acc : Z) : option Z :=
  match s with
  | EmptyString => if seen then Some acc else None
  | String a s' =>
      match digit base a with
      | Some d => digits base s' true (base * acc + d)
      | None => None
      end
  end.

Definition exponent_part (s : string) : option Z :=
  match s with
  | String "+"%char s' => digits 10 s' false 0
  | String "-"%char s' => option_map Z.opp (digits 10 s' false 0)
  | _ => digits 10 s false 0
  end.

(** The digits read so far make the whole number [acc], [frac] of them
    stand after the point. *)
Fixpoint mantissa (s : string) (acc frac : Z) (point seen : bool) : option Q :=
  match s with
  | EmptyString =>
      if seen then Some (inject_Z acc * Qpower (inject_Z 10) (- frac))%Q else None
  | String a s' =>
      match digit 10 a with
      | Some d =>
          mantissa s' (10 * acc + d) (if point then frac + 1 else frac) point true
      | None =>
          if Ascii.eqb a "."%char && negb point then mantissa s' acc frac true seen
          else if (Ascii.eqb a "e"%char || Ascii.eqb a "E"%char) && seen then
            match exponent_part s' with
            | Some x => Some (inject_Z acc * Qpower (inject_Z 10) (x - frac))%Q
            | None => None
            end
          else None
      end
  end.

Definition non_decimal (s : string) : option Z :=
  match s with
  | String "0"%char (String c s') =>
      if Ascii.eqb c "x"%char || Ascii.eqb c "X"%char then digits 16 s' false 0
      else if Ascii.eqb c "o"%char || Ascii.eqb c "O"%char then digits 8 s' false 0
      else if Ascii.eqb c "b"%char || Ascii.eqb c "B"%char then digits 2 s' false 0
      else None
  | _ => None
  end.

Definition literal (s : string) : JS.num :=
  let unsigned (neg : bool) (body : string) : JS.num :=
    if String.eqb body "Infinity"%string then (if neg then JS.NegInf else JS.PosInf)
    else match mantissa body 0 0 false false with
         | Some q => JS.of_Q (if neg then - q else q)%Q
         | None => JS.NaN
         end in
  match non_decimal s with
  | Some z => JS.of_Q (inject_Z z)
  | None =>
      match s with
      | EmptyString => JS.of_Z 0
      | String "-"%char s' => unsigned true s'
      | String "+"%char s' => unsigned false s'
      | _ => unsigned false s
      end
  end.

(** The white space and line terminators: TAB, LF, VT, FF, CR and the
    space, and further U+00A0, U+1680, U+2000 to U+200A, U+2028, U+2029,
    U+202F, U+205F, U+3000 and U+FEFF.  [skip_space] takes one of them
    off the head of a string. *)
Definition wide_space (a b c : N) : bool :=
  ((a =? 225) && (b =? 154) && (c =? 128)
   || (a =? 226) && (b =? 128)
      && ((128 <=? c) && (c <=? 138) || (c =? 168) || (c =? 169) || (c =? 175))
   || (a =? 226) && (b =? 129) && (c =? 159)
   || (a =? 227) && (b =? 128) && (c =? 128)
   || (a =? 239) && (b =? 187) && (c =? 191))%N.

Definition skip_space (s : string) : option string :=
  match s with
  | String a s1 =>
      let n := Ascii.N_of_ascii a in
      if ((9 <=? n) && (n <=? 13) || (n =? 32))%N then Some s1
      else
        match s1 with
        | String b s2 =>
            let m := Ascii.N_of_ascii b in
            if ((n =? 194) && (m =? 160))%N then Some s2
            else
              match s2 with
              | String c s3 =>
                  if wide_space n m (Ascii.N_of_ascii c) then Some s3 else None
              | EmptyString => None
              end
        | EmptyString => None
        end
  | EmptyString => None
  end.

Fixpoint trim_left (n : nat) (s : string) : string :=
  match n with
  | O => s
  | S n' =>
      match skip_space s with
      | Some s' => trim_left n' s'
      | None => s
      end
  end.

(** The text up to the next white space, and the rest. *)
Fixpoint token (s : string) : string * string :=
  match skip_space s with
  | Some _ => (EmptyString, s)
  | None =>
      match s with
      | EmptyString => (EmptyString, EmptyString)
      | String a s' => (String a (fst (token s')), snd (token s'))
      end
  end.

Definition StringToNumber (s : string) : JS.num :=
  let body := token (trim_left (String.length s) s) in
  match trim_left (String.length (snd body)) (snd body) with
  | EmptyString => literal (fst body)
  | _ => JS.NaN
  end.

End GridEngine.

(** ** Vocabulary for the statements below *)

(** The values a loop counter takes: [n] of them, from [i] upwards. *)
Fixpoint iota (n : nat) (i : Z) : list Z :=
  match n with
  | O => []
  | S n' => i :: iota n' (i + 1)
  end.

Section Vocabulary.

Context {W R : Type} `{Engine W R}.

(** The path [drawGrid] builds for a [w] by [h] grid: a vertical line
    per column boundary, then a horizontal line per row boundary. *)
Definition grid_path (w h : Z) : list Index.PathOp :=
  flat_map (fun i => [Index.MoveTo (i * (Index.CELL_SIZE + 1) + 1) 0;
                      Index.LineTo (i * (Index.CELL_SIZE + 1) + 1)
                                   ((Index.CELL_SIZE + 1) * h + 1)])
           (iota (Z.to_nat (w + 1 - 0)) 0)
  ++
  flat_map (fun j => [Index.MoveTo 0 (j * (Index.CELL_SIZE + 1) + 1);
                      Index.LineTo ((Index.CELL_SIZE + 1) * w + 1)
                                   (j * (Index.CELL_SIZE + 1) + 1)])
           (iota (Z.to_nat (h + 1 - 0)) 0).

(** Path operations appended to the current path. *)
Definition add_path (ops : list Index.PathOp) (s : @Index.World W) : Index.World :=
  Index.set_ctx (Index.mkCtx (Index.strokeStyle (Index.ctx s))
                             (Index.fillStyle (Index.ctx s))
                             (Index.path (Index.ctx s) ++ ops)) s.

(** The state after [drawGrid]. *)
Definition grid_drawn (s : @Index.World W) : Index.World :=
  let p := grid_path (Index.width s) (Index.height s) in
  Index.set_log (Index.log s ++ [Index.CStroke p Index.GRID_COLOR])
    (Index.set_ctx (Index.mkCtx Index.GRID_COLOR (Index.fillStyle (Index.ctx s)) p) s).

(** The bytes [drawCells] looks at: [width * height] of them, from the
    pointer [universe.cells()] returns. *)
Definition cells_ptr (s : @Index.World W) : Z :=
  universe_cells (Index.wasm s) (Index.universe s).

Definition view_in_memory (s : @Index.World W) : bool :=
  (0 <=? cells_ptr s) && (0 <=? Index.width s * Index.height s) &&
  (cells_ptr s + Index.width s * Index.height s
   <=? Z.of_nat (length (memory_buffer (Index.wasm s)))).

(** The same test on the state in which the universe [u] lives in the
    instance [w]. *)
Definition view_fits (w : W) (u : Z) (s : @Index.World W) : bool :=
  view_in_memory (Index.set_universe u (Index.set_wasm w s)).

Definition cells_view (s : @Index.World W) : list Z :=
  take (Z.to_nat (Index.width s * Index.height s))
       (drop (Z.to_nat (cells_ptr s)) (memory_buffer (Index.wasm s))).

(** One filled cell: the fill style is set, then the rectangle is
    painted with it. *)
Definition fill_cell (x y : Z) (style : string) (s : @Index.World W) : Index.World :=
  Index.set_log (Index.log s ++ [Index.CFillRect x y Index.CELL_SIZE Index.CELL_SIZE style])
    (Index.set_ctx (Index.mkCtx (Index.strokeStyle (Index.ctx s)) style
                                (Index.path (Index.ctx s))) s).

Definition fill_all (l : list (Z * Z * string)) (s : @Index.World W) : Index.World :=
  fold_left (fun s r => fill_cell (fst (fst r)) (snd (fst r)) (snd r) s) l s.

Definition fill_call (r : Z * Z * string) : Index.call :=
  Index.CFillRect (fst (fst r)) (snd (fst r)) Index.CELL_SIZE Index.CELL_SIZE (snd r).

(** The rectangle of the cell at ([row], [col]) and its fill style, for
    the view [cells] and the width [w]; and all of them in the order
    [drawCells] paints them. *)
Definition cell_rect (cells : list Z) (w row col : Z) : Z * Z * string :=
  (col * (Index.CELL_SIZE + 1) + 1, row * (Index.CELL_SIZE + 1) + 1,
   Index.cell_color cells (row * w + col)).

Definition cell_rects (cells : list Z) (w h : Z) : list (Z * Z * string) :=
  flat_map (fun row => map (cell_rect cells w row) (iota (Z.to_nat (w - 0)) 0))
           (iota (Z.to_nat (h - 0)) 0).

(** The state after the two calls that open [drawCells], and the state
    after all of it when the view lies inside the memory. *)
Definition cells_read (s : @Index.World W) : Index.World :=
  Index.set_log
    (Index.log s ++ [Index.CCells (Index.universe s);
                     Index.CView (cells_ptr s) (Index.width s * Index.height s)]) s.

Definition cells_drawn (s : @Index.World W) : Index.World :=
  let s1 := Index.set_ctx (Index.mkCtx (Index.strokeStyle (Index.ctx s))
                                       (Index.fillStyle (Index.ctx s)) [])
                          (cells_read s) in
  let s2 := fill_all (cell_rects (cells_view s) (Index.width s) (Index.height s)) s1 in
  Index.set_log (Index.log s2 ++ [Index.CStroke [] (Index.strokeStyle (Index.ctx s))]) s2.

(** Two states with the same module variables, page controls and frame
    requests: they differ at most in the canvas context and the log. *)
Definition same_vars (s s' : @Index.World W) : Prop :=
  Index.wasm s' = Index.wasm s /\
  Index.universe s' = Index.universe s /\
  Index.width s' = Index.width s /\
  Index.height s' = Index.height s /\
  Index.canvas_width s' = Index.canvas_width s /\
  Index.canvas_height s' = Index.canvas_height s /\
  Index.animationId s' = Index.animationId s /\
  Index.playPauseButton s' = Index.playPauseButton s /\
  Index.ticksFrameInputRange s' = Index.ticksFrameInputRange s /\
  Index.ticksValue s' = Index.ticksValue s /\
  Index.ticksPerFrame s' = Index.ticksPerFrame s /\
  Index.pending s' = Index.pending s /\
  Index.next_id s' = Index.next_id s.

(** A redraw, [drawGrid(); drawCells();]: the state after it, and the
    calls it makes, which depend on the instance, the universe and the
    two constants only. *)
Definition redrawn (s : @Index.World W) : Index.World :=
  cells_drawn (grid_drawn s).

Definition redraw_calls (s : @Index.World W) : list Index.call :=
  [Index.CStroke (grid_path (Index.width s) (Index.height s)) Index.GRID_COLOR;
   Index.CCells (Index.universe s);
   Index.CView (cells_ptr s) (Index.width s * Index.height s)]
  ++ map fill_call (cell_rects (cells_view s) (Index.width s) (Index.height s))
  ++ [Index.CStroke [] Index.GRID_COLOR].

(** The state after [n] calls of [universe.tick()]. *)
Definition ticked (n : nat) (s : @Index.World W) : Index.World :=
  Index.set_wasm (Nat.iter n (universe_tick (Index.universe s)) (Index.wasm s))
    (Index.set_log (Index.log s ++ repeat (Index.CTick (Index.universe s)) n) s).

(** The state after a frame is requested and its id stored. *)
Definition frame_requested (s : @Index.World W) : Index.World :=
  Index.set_animationId (Some (Index.next_id s))
    (Index.set_log (Index.log s ++ [Index.CRequestFrame (Index.next_id s)])
       (Index.set_frames (Index.pending s ++ [Index.next_id s]) (Index.next_id s + 1) s)).

(** The state after [pause()]. *)
Definition paused (s : @Index.World W) : Index.World :=
  Index.set_animationId None
    (Index.set_log (Index.log s ++ [Index.CCancelFrame (Index.animationId s)])
       (Index.set_frames
          match Index.animationId s with
          | Some i => List.filter (fun j => negb (j =? i)) (Index.pending s)
          | None => Index.pending s
          end (Index.next_id s)
          (Index.set_playPauseButton "▶" s))).

(** The state after [universe.kill_universe()]. *)
Definition killed (s : @Index.World W) : Index.World :=
  Index.set_wasm (universe_kill_universe (Index.universe s) (Index.wasm s))
    (Index.set_log (Index.log s ++ [Index.CKill (Index.universe s)]) s).

(** The state after [universe = Universe.random_universe()]. *)
Definition replaced (r : R) (s : @Index.World W) : Index.World :=
  Index.set_universe (snd (Universe_random_universe r (Index.wasm s)))
    (Index.set_wasm (fst (Universe_random_universe r (Index.wasm s)))
       (Index.set_log (Index.log s ++ [Index.CRandomUniverse]) s)).

(** The coordinates the click handler computes. *)
Definition canvasLeft (s : @Index.World W) (b : Index.DOMRect) (e : Index.MouseEvent)
  : JS.num :=
  JS.mul (JS.sub (JS.of_Q (Index.clientX e)) (JS.of_Q (Index.rect_left b)))
         (JS.div (JS.of_Z (Index.canvas_width s)) (JS.of_Q (Index.rect_width b))).

Definition canvasTop (s : @Index.World W) (b : Index.DOMRect) (e : Index.MouseEvent)
  : JS.num :=
  JS.mul (JS.sub (JS.of_Q (Index.clientY e)) (JS.of_Q (Index.rect_top b)))
         (JS.div (JS.of_Z (Index.canvas_height s)) (JS.of_Q (Index.rect_height b))).

Definition click_row (s : @Index.World W) (b : Index.DOMRect) (e : Index.MouseEvent)
  : JS.num :=
  JS.min (JS.floor (JS.div (canvasTop s b e) (JS.of_Z (Index.CELL_SIZE + 1))))
         (JS.of_Z (Index.height s - 1)).

Definition click_col (s : @Index.World W) (b : Index.DOMRect) (e : Index.MouseEvent)
  : JS.num :=
  JS.min (JS.floor (JS.div (canvasLeft s b e) (JS.of_Z (Index.CELL_SIZE + 1))))
         (JS.of_Z (Index.width s - 1)).

(** The state after the call [universe.toggle_cell(row, col)] is made,
    and after it returned leaving the instance [w']. *)
Definition toggle_called (row col : JS.num) (s : @Index.World W) : Index.World :=
  Index.set_log (Index.log s ++ [Index.CToggle (Index.universe s) row col]) s.

Definition toggled (row col : JS.num) (w' : W) (s : @Index.World W) : Index.World :=
  Index.set_wasm w' (toggle_called row col s).

(** The ways one call of [renderLoop] ends: the tick loop exhausts its
    bound after [k] ticks, or the loop ends after [k] ticks and the
    redraw either throws at the view or completes, after which the next
    frame is requested. *)
Inductive rendered (s : @Index.World W) : Index.outcome unit * Index.World -> Prop :=
| rendered_diverged (k : nat) :
    rendered s (Index.Diverged, ticked k s)
| rendered_thrown (k : nat) :
    view_in_memory (ticked k s) = false ->
    rendered s (Index.Thrown, cells_read (grid_drawn (ticked k s)))
| rendered_returned (k : nat) :
    view_in_memory (ticked k s) = true ->
    rendered s (Index.Returned tt, frame_requested (redrawn (ticked k s))).

(** The state after the browser takes the request [id] off the pending
    list. *)
Definition frame_taken (id : Z) (s : @Index.World W) : Index.World :=
  Index.set_frames (List.filter (fun j => negb (j =? id)) (Index.pending s))
                   (Index.next_id s) s.

(** The state after [updateTicks()]. *)
Definition ticks_updated (s : @Index.World W) : Index.World :=
  Index.set_ticksValue (Index.ticksFrameInputRange s)
    (Index.set_ticksPerFrame (JS.Str (Index.ticksFrameInputRange s)) s).

(** The ways the handler of the event [e] ends. *)
Inductive handled (s : @Index.World W)
  : @Index.ui_event R -> Index.outcome unit * Index.World -> Prop :=
| handled_pause (id : Z) :
    Index.animationId s = Some id ->
    handled s Index.PlayPauseClick (Index.Returned tt, paused s)
| handled_play (r : Index.outcome unit * Index.World) :
    Index.animationId s = None ->
    rendered (Index.set_playPauseButton "⏸" s) r ->
    handled s Index.PlayPauseClick r
| handled_ticks (v : string) :
    handled s (Index.TicksInput v)
            (Index.Returned tt, ticks_updated (Index.set_ticksFrameInputRange v s))
| handled_reset (r : R) :
    view_in_memory (replaced r s) = true ->
    handled s (Index.ResetClick r) (Index.Returned tt, redrawn (replaced r s))
| handled_reset_thrown (r : R) :
    view_in_memory (replaced r s) = false ->
    handled s (Index.ResetClick r) (Index.Thrown, cells_read (grid_drawn (replaced r s)))
| handled_kill :
    view_in_memory (killed (paused s)) = true ->
    handled s Index.KillClick (Index.Returned tt, redrawn (killed (paused s)))
| handled_kill_thrown :
    view_in_memory (killed (paused s)) = false ->
    handled s Index.KillClick (Index.Thrown, cells_read (grid_drawn (killed (paused s))))
| handled_click (b : Index.DOMRect) (e : Index.MouseEvent) (w' : W) :
    universe_toggle_cell (Index.universe s) (click_row s b e) (click_col s b e)
                         (Index.wasm s) = Some w' ->
    view_in_memory (toggled (click_row s b e) (click_col s b e) w' s) = true ->
    handled s (Index.CanvasClick b e)
            (Index.Returned tt, redrawn (toggled (click_row s b e) (click_col s b e) w' s))
| handled_click_view (b : Index.DOMRect) (e : Index.MouseEvent) (w' : W) :
    universe_toggle_cell (Index.universe s) (click_row s b e) (click_col s b e)
                         (Index.wasm s) = Some w' ->
    view_in_memory (toggled (click_row s b e) (click_col s b e) w' s) = false ->
    handled s (Index.CanvasClick b e)
            (Index.Thrown,
             cells_read (grid_drawn (toggled (click_row s b e) (click_col s b e) w' s)))
| handled_click_thrown (b : Index.DOMRect) (e : Index.MouseEvent) :
    universe_toggle_cell (Index.universe s) (click_row s b e) (click_col s b e)
                         (Index.wasm s) = None ->
    handled s (Index.CanvasClick b e)
            (Index.Thrown, toggle_called (click_row s b e) (click_col s b e) s)
| handled_frame (id : Z) (r : Index.outcome unit * Index.World) :
    existsb (Z.eqb id) (Index.pending s) = true ->
    rendered (frame_taken id s) r ->
    handled s (Index.AnimationFrame id) r
| handled_no_frame (id : Z) :
    existsb (Z.eqb id) (Index.pending s) = false ->
    handled s (Index.AnimationFrame id) (Index.Returned tt, s).

(** What no handler changes, and what it may add to the log: the two
    constants and the canvas size stay, no call creates the first
    universe or asks a universe for its width or height, and every view
    has the length [width * height]. *)
Definition later_call (w h : Z) (c : Index.call) : Prop :=
  match c with
  | Index.CNew | Index.CWidth _ | Index.CHeight _ => False
  | Index.CView _ len => len = w * h
  | _ => True
  end.

Definition steady (s s' : @Index.World W) : Prop :=
  Index.width s' = Index.width s /\
  Index.height s' = Index.height s /\
  Index.canvas_width s' = Index.canvas_width s /\
  Index.canvas_height s' = Index.canvas_height s /\
  exists ext : list Index.call,
    Index.log s' = Index.log s ++ ext /\
    Forall (later_call (Index.width s) (Index.height s)) ext.

(** The state in which the start-up code has created the universe, read
    its dimensions and sized the canvas (index.js lines 10-22 and 53). *)
Definition booted (w0 : W) (page : Index.Page) : @Index.World W :=
  let w1 := fst (Universe_new w0) in
  let u := snd (Universe_new w0) in
  {| Index.wasm := w1; Index.universe := u;
     Index.width := universe_width w1 u;
     Index.height := universe_height w1 u;
     Index.canvas_width := (Index.CELL_SIZE + 1) * universe_width w1 u + 1;
     Index.canvas_height := (Index.CELL_SIZE + 1) * universe_height w1 u + 1;
     Index.ctx := Index.page_ctx page;
     Index.animationId := None;
     Index.playPauseButton := Index.page_playPauseButton page;
     Index.ticksFrameInputRange := Index.page_ticksFrameInputRange page;
     Index.ticksValue := Index.page_ticksValue page;
     Index.ticksPerFrame := JS.Num (JS.of_Z 1);
     Index.pending := []; Index.next_id := 1;
     Index.log := [Index.CNew; Index.CWidth u; Index.CHeight u] |}.

(** The universe object a call is made on. *)
Definition receiver (c : Index.call) : option Z :=
  match c with
  | Index.CWidth u | Index.CHeight u | Index.CTick u | Index.CKill u
  | Index.CToggle u _ _ | Index.CCells u => Some u
  | _ => None
  end.

(** Every pending frame request is the one [animationId] holds. *)
Definition frames_inv (s : @Index.World W) : Prop :=
  forall id : Z, In id (Index.pending s) -> Index.animationId s = Some id.

(** [ticksPerFrame] holds the value of the range control. *)
Definition ticks_inv (s : @Index.World W) : Prop :=
  Index.ticksPerFrame s = JS.Str (Index.ticksFrameInputRange s).

(** The calls that make up a redraw, and those that change a universe
    or make a new one. *)
Definition is_draw (c : Index.call) : bool :=
  match c with
  | Index.CCells _ | Index.CView _ _ | Index.CStroke _ _
  | Index.CFillRect _ _ _ _ _ => true
  | _ => false
  end.

Definition is_mutation (c : Index.call) : bool :=
  match c with
  | Index.CNew | Index.CRandomUniverse | Index.CTick _ | Index.CKill _
  | Index.CToggle _ _ _ => true
  | _ => false
  end.

Definition no_draw (l : list Index.call) : bool :=
  forallb (fun c => negb (is_draw c)) l.

Definition no_mutation (l : list Index.call) : bool :=
  forallb (fun c => negb (is_mutation c)) l.

Definition quiet (l : list Index.call) : bool :=
  forallb (fun c => negb (is_draw c) && negb (is_mutation c)) l.

(** The calls a handler added to the log split in two: no draw call in
    the first part, no mutating call in the second. *)
Definition ordered (s s' : @Index.World W) : Prop :=
  exists pre post : list Index.call,
    Index.log s' = Index.log s ++ pre ++ post /\
    no_draw pre = true /\ no_mutation post = true.

(** The calls a handler added to the log are: calls that draw nothing,
    then one whole redraw of the state the handler ends in, then calls
    that neither draw nor mutate. *)
Definition settled (s s' : @Index.World W) : Prop :=
  exists pre post : list Index.call,
    Index.log s' = Index.log s ++ pre ++ redraw_calls s' ++ post /\
    no_draw pre = true /\ quiet post = true.

(** The calls a handler added to the log are: the calls [pre], which draw
    nothing and leave the instance [w'] with the variable [universe]
    holding [u']; then one whole redraw, which reads that final state;
    then the calls [post], which neither draw nor mutate. *)
Definition drawn_after (pre post : list Index.call) (w' : W) (u' : Z)
    (s s' : @Index.World W) : Prop :=
  Index.wasm s' = w' /\ Index.universe s' = u' /\
  Index.log s' = Index.log s ++ pre ++ redraw_calls s' ++ post /\
  no_draw pre = true /\ quiet post = true.

(** The handler left the universe alone and drew nothing. *)
Definition untouched (s s' : @Index.World W) : Prop :=
  Index.wasm s' = Index.wasm s /\ Index.universe s' = Index.universe s /\
  exists ext : list Index.call,
    Index.log s' = Index.log s ++ ext /\ quiet ext = true.

End Vocabulary.

(** ** A small page to run the driver on

    The specified engine with 2 x 2 universes from [Universe.new()] and
    3 x 3 ones from [Universe.random_universe()], a page whose range
    control holds "3", and the state the page is in once the module has
    started. *)

Definition demo_engine : Engine (list Grid.Grid) (list bool) :=
  GridEngine.engine 2 2 3 3.

Definition demo_page : Index.Page :=
  Index.mkPage (Index.mkCtx "#000000" "#000000" []) "" "3" "".

Definition demo : @Index.World (list Grid.Grid) :=
  snd (@Index.start _ _ demo_engine GridEngine.StringToNumber 8 [] demo_page).

(** The canvas of the demo page is 13 pixels wide and high and is shown
    unscaled at the origin; [demo_inside] is a click in the first cell,
    [demo_border] one on the last pixel of the last row and column. *)
Definition demo_rect : Index.DOMRect := Index.mkRect 0 0 (13 # 1) (13 # 1).
Definition demo_inside : Index.MouseEvent := Index.mkMouse (3 # 1) (3 # 1).
Definition demo_border : Index.MouseEvent := Index.mkMouse (12 # 1) (12 # 1).

Definition demo_bits : list bool :=
  [true; false; true; false; true; false; true; false; true].

(** ** Fixtures of the engine's test list *)

(** The blinker of the spec's test list, on a 5 x 5 grid. *)
Definition blinker : Grid.Grid :=
  let D := Grid.Dead in
  let A := Grid.Alive in
  Grid.mkGrid 5 5
    [D; D; D; D; D;
     D; D; D; D; D;
     D; A; A; A; D;
     D; D; D; D; D;
     D; D; D; D; D].

(** ** Vocabulary for the properties of the rest of the driver *)

(** The point a path operation names. *)
Definition op_point (op : Index.PathOp) : Z * Z :=
  match op with
  | Index.MoveTo x y | Index.LineTo x y => (x, y)
  end.

(** The frame scheduler as the page keeps it: at most one request is
    pending, it is the one [animationId] holds, and while [animationId]
    is not null the play/pause button shows the pause glyph. *)
Definition page_inv {W : Type} (s : @Index.World W) : Prop :=
  (Index.pending s = [] \/
   exists id : Z, Index.pending s = [id] /\ Index.animationId s = Some id) /\
  (Index.animationId s <> None -> Index.playPauseButton s = "⏸"%string).

(** The ticks label and [ticksPerFrame] both hold the value of the range
    control. *)
Definition label_inv {W : Type} (s : @Index.World W) : Prop :=
  Index.ticksPerFrame s = JS.Str (Index.ticksFrameInputRange s) /\
  Index.ticksValue s = Index.ticksFrameInputRange s.

(** Two states with the same frame requests, [animationId] and button
    text; two states with the same range control, label and
    [ticksPerFrame]. *)
Definition same_frames {W : Type} (s s' : @Index.World W) : Prop :=
  Index.pending s' = Index.pending s /\
  Index.animationId s' = Index.animationId s /\
  Index.playPauseButton s' = Index.playPauseButton s.

Definition same_controls {W : Type} (s s' : @Index.World W) : Prop :=
  Index.ticksPerFrame s' = Index.ticksPerFrame s /\
  Index.ticksFrameInputRange s' = Index.ticksFrameInputRange s /\
  Index.ticksValue s' = Index.ticksValue s.

(** More states of the demo page: the range control holding a text that
    is no number, and the double 2^53 + 2; a click above the canvas;
    and a page whose engine makes 3 x 3 universes at start-up and 2 x 2
    ones on reset, after a reset. *)
Definition demo_still : @Index.World (list Grid.Grid) :=
  snd (@Index.ticks_input (list Grid.Grid) "fast" demo).

Definition demo_huge : @Index.World (list Grid.Grid) :=
  snd (@Index.ticks_input (list Grid.Grid) "9007199254740994" demo).

Definition demo_above : Index.MouseEvent := Index.mkMouse (3 # 1) (-3 # 1).

Definition shrink_engine : Engine (list Grid.Grid) (list bool) :=
  GridEngine.engine 3 3 2 2.

Definition demo_shrunk : @Index.World (list Grid.Grid) :=
  snd (@Index.reset_click _ _ shrink_engine demo_bits
         (snd (@Index.start _ _ shrink_engine GridEngine.StringToNumber 8 [] demo_page))).

(** * Properties *)

(** ** Row-major tables *)

Lemma flat_map_rows_length {A} (w : nat) (f : nat -> nat -> A) (rows : list nat) :
  length (flat_map (fun r => map (f r) (seq 0 w)) rows) = (length rows * w)%nat.
Proof.
  induction rows as [|r rows IH]; simpl; [reflexivity|].
  rewrite length_app, length_map, length_seq, IH. reflexivity.
Qed.

Lemma tabulate_length {A} (h w : nat) (f : nat -> nat -> A) :
  length (tabulate h w f) = (h * w)%nat.
Proof. unfold tabulate. rewrite flat_map_rows_length, length_seq. reflexivity. Qed.

Lemma flat_map_rows_lookup {A} (w : nat) (f : nat -> nat -> A) (n s r c : nat) :
  (r < n)%nat -> (c < w)%nat ->
  flat_map (fun r => map (f r) (seq 0 w)) (seq s n) !! (r * w + c)%nat
  = Some (f (s + r)%nat c).
Proof.
  revert s r. induction n as [|n IH]; intros s r Hr Hc; [lia|].
  simpl. destruct r as [|r].
  - rewrite lookup_app_l by (rewrite length_map, length_seq; lia).
    simpl. rewrite list_lookup_fmap, lookup_seq_lt by lia.
    simpl. f_equal. f_equal; lia.
  - rewrite lookup_app_r by (rewrite length_map, length_seq; lia).
    rewrite length_map, length_seq.
    replace (S r * w + c - w)%nat with (r * w + c)%nat by lia.
    rewrite IH by lia. f_equal. f_equal; lia.
Qed.

Lemma tabulate_lookup {A} (h w : nat) (f : nat -> nat -> A) (r c : nat) :
  (r < h)%nat -> (c < w)%nat ->
  tabulate h w f !! (r * w + c)%nat = Some (f r c).
Proof. intros Hr Hc. unfold tabulate. apply (flat_map_rows_lookup w f h 0 r c Hr Hc). Qed.


(** ** The engine: one generation *)

Lemma step_width (g : Grid.Grid) : Grid.width (Grid.step g) = Grid.width g.
Proof. reflexivity. Qed.

Lemma step_height (g : Grid.Grid) : Grid.height (Grid.step g) = Grid.height g.
Proof. reflexivity. Qed.

Lemma step_wf (g : Grid.Grid) : Grid.wf g -> Grid.wf (Grid.step g).
Proof.
  intros (Hw & Hh & Hlen). unfold Grid.wf. simpl.
  rewrite tabulate_length. repeat split; try assumption. lia.
Qed.

Lemma in_bounds_true (g : Grid.Grid) (row col : Z) :
  0 <= row < Grid.height g -> 0 <= col < Grid.width g ->
  Grid.in_bounds g row col = true.
Proof.
  intros Hr Hc. unfold Grid.in_bounds.
  rewrite !andb_true_iff, !Z.leb_le, !Z.ltb_lt. lia.
Qed.

Lemma index_to_nat (w row col : Z) :
  0 <= row -> 0 <= col -> 0 <= w ->
  Z.to_nat (row * w + col) = (Z.to_nat row * Z.to_nat w + Z.to_nat col)%nat.
Proof. intros Hr Hc Hw. rewrite Z2Nat.inj_add, Z2Nat.inj_mul by nia. reflexivity. Qed.

Lemma step_cell_at (g : Grid.Grid) (row col : Z) :
  0 <= row < Grid.height g -> 0 <= col < Grid.width g ->
  Grid.cell_at (Grid.step g) row col =
  Grid.next_cell (Grid.cell_at g row col) (Grid.live_neighbor_count g row col).
Proof.
  intros Hr Hc. unfold Grid.cell_at at 1.
  rewrite in_bounds_true by (simpl; assumption).
  unfold Grid.get_index. simpl.
  rewrite index_to_nat by lia.
  rewrite tabulate_lookup by lia.
  simpl. rewrite !Z2Nat.id by lia. reflexivity.
Qed.

Lemma wrap_range (n k : Z) : 0 < n -> 0 <= Grid.wrap n k < n.
Proof. intros Hn. unfold Grid.wrap. apply Z.mod_pos_bound. exact Hn. Qed.

Lemma neighbors_in_grid (g : Grid.Grid) (row col : Z) :
  Grid.wf g ->
  Forall (fun p => 0 <= fst p < Grid.height g /\ 0 <= snd p < Grid.width g)
         (Grid.neighbors g row col).
Proof.
  intros (Hw & Hh & _). unfold Grid.neighbors.
  apply Forall_forall. intros p Hp. apply in_map_iff in Hp.
  destruct Hp as (d & <- & _). simpl.
  split; apply wrap_range; assumption.
Qed.

(** C1: on a grid that satisfies the data-model invariant, [step] keeps
    the dimensions and the invariant, and the new state of every cell is
    a function of the previous generation alone: an Alive cell with 2 or
    3 live neighbours stays Alive and otherwise becomes Dead, a Dead
    cell with exactly 3 live neighbours becomes Alive and otherwise
    stays Dead.  The neighbours are the 8 adjacent positions taken
    modulo the height and the width (row -1 is row height-1, column
    width is column 0), each of them a position of the grid, so every
    cell has exactly 8 of them. *)
Theorem step_next_generation (g : Grid.Grid) (Hwf : Grid.wf g) :
  Grid.wf (Grid.step g) /\
  Grid.width (Grid.step g) = Grid.width g /\
  Grid.height (Grid.step g) = Grid.height g /\
  forall row col : Z,
    0 <= row < Grid.height g -> 0 <= col < Grid.width g ->
    let h := Grid.height g in
    let w := Grid.width g in
    let at_ r c := Grid.live (Grid.cell_at g (r mod h) (c mod w)) in
    let n := at_ (row - 1) (col - 1) + at_ (row - 1) col + at_ (row - 1) (col + 1)
           + at_ row (col - 1) + at_ row (col + 1)
           + at_ (row + 1) (col - 1) + at_ (row + 1) col + at_ (row + 1) (col + 1) in
    Grid.live_neighbor_count g row col = n /\
    length (Grid.neighbors g row col) = 8%nat /\
    Forall (fun p => 0 <= fst p < h /\ 0 <= snd p < w) (Grid.neighbors g row col) /\
    (Grid.cell_at g row col = Grid.Alive -> n = 2 \/ n = 3 ->
     Grid.cell_at (Grid.step g) row col = Grid.Alive) /\
    (Grid.cell_at g row col = Grid.Alive -> n <> 2 -> n <> 3 ->
     Grid.cell_at (Grid.step g) row col = Grid.Dead) /\
    (Grid.cell_at g row col = Grid.Dead -> n = 3 ->
     Grid.cell_at (Grid.step g) row col = Grid.Alive) /\
    (Grid.cell_at g row col = Grid.Dead -> n <> 3 ->
     Grid.cell_at (Grid.step g) row col = Grid.Dead).
Proof.
  split; [apply step_wf; exact Hwf|].
  split; [reflexivity|]. split; [reflexivity|].
  intros row col Hr Hc h w at_ n.
  assert (Hn : Grid.live_neighbor_count g row col = n).
  { unfold Grid.live_neighbor_count, Grid.neighbors, Grid.neighbor_offsets, Grid.wrap.
    subst n at_ h w. simpl.
    replace (row + -1) with (row - 1) by lia.
    replace (col + -1) with (col - 1) by lia.
    rewrite !Z.add_0_r. lia. }
  split; [exact Hn|]. split; [reflexivity|].
  split; [apply neighbors_in_grid; exact Hwf|].
  rewrite step_cell_at by assumption. rewrite Hn.
  repeat split; intros Hc0; rewrite Hc0; simpl.
  - intros [-> | ->]; reflexivity.
  - intros H2 H3.
    destruct (Z.eqb_spec n 2); [contradiction|].
    destruct (Z.eqb_spec n 3); [contradiction|]. reflexivity.
  - intros ->. reflexivity.
  - intros H3. destruct (Z.eqb_spec n 3); [contradiction|]. reflexivity.
Qed.

Lemma blinker_wf : Grid.wf blinker.
Proof. unfold Grid.wf. simpl. lia. Qed.

Lemma step_next_generation_witness :
  Grid.cell_at (Grid.step blinker) 1 2 = Grid.Alive /\
  Grid.cell_at (Grid.step blinker) 2 1 = Grid.Dead.
Proof.
  destruct (step_next_generation blinker blinker_wf) as (_ & _ & _ & Hcell).
  split.
  - destruct (Hcell 1 2 ltac:(simpl; lia) ltac:(simpl; lia))
      as (_ & _ & _ & _ & _ & Hborn & _).
    apply Hborn; reflexivity.
  - destruct (Hcell 2 1 ltac:(simpl; lia) ltac:(simpl; lia))
      as (_ & _ & _ & _ & Hdie & _ & _).
    apply Hdie; [reflexivity | discriminate | discriminate].
Defined.

(** The blinker alternates between its two phases and is back after
    exactly two steps. *)
Example blinker_period_two :
  Grid.step blinker <> blinker /\ Grid.step (Grid.step blinker) = blinker.
Proof. split; [discriminate | reflexivity]. Qed.

(** A live cell at (0,0) whose only live neighbours sit across the
    edges, at (height-1, width-1), (height-1, 0) and (0, width-1), has
    3 live neighbours. *)
Example corner_wraps :
  let D := Grid.Dead in
  let A := Grid.Alive in
  Grid.live_neighbor_count
    (Grid.mkGrid 4 4 [A; D; D; A;
                      D; D; D; D;
                      D; D; D; D;
                      A; D; D; A]) 0 0 = 3.
Proof. reflexivity. Qed.

(** ** The engine: toggling one cell *)

Lemma in_bounds_false (g : Grid.Grid) (row col : Z) :
  row < 0 \/ Grid.height g <= row \/ col < 0 \/ Grid.width g <= col ->
  Grid.in_bounds g row col = false.
Proof.
  intros Hout. unfold Grid.in_bounds.
  destruct (Z.leb_spec 0 row), (Z.ltb_spec row (Grid.height g)),
    (Z.leb_spec 0 col), (Z.ltb_spec col (Grid.width g)); simpl; try reflexivity; lia.
Qed.

Lemma index_injective (w row col row' col' : Z) :
  0 <= col < w -> 0 <= col' < w ->
  row * w + col = row' * w + col' -> row = row' /\ col = col'.
Proof.
  intros Hc Hc' Heq.
  assert (row = row') as -> by (destruct (Z.lt_trichotomy row row') as [|[|]]; nia).
  split; [reflexivity | lia].
Qed.

(** C7: [toggle] at a position of the grid succeeds, flips the entry at
    index [row * width + column] and leaves every other entry, the
    length and the dimensions as they were, so that the addressed cell
    is the only cell whose state changes; at a row or column that is
    negative or not below the height, respectively the width, it fails
    with OutOfBounds and the grid after the call is the grid before
    it. *)
Theorem toggle_one_cell (g : Grid.Grid) (row col : Z) (Hwf : Grid.wf g) :
  (0 <= row < Grid.height g -> 0 <= col < Grid.width g ->
   exists g',
     Grid.toggle g row col = (g', None) /\
     Grid.width g' = Grid.width g /\ Grid.height g' = Grid.height g /\
     length (Grid.cells g') = length (Grid.cells g) /\
     Grid.cell_at g' row col = Grid.flip (Grid.cell_at g row col) /\
     Grid.cell_at g' row col <> Grid.cell_at g row col /\
     (forall i : nat, i <> Z.to_nat (Grid.get_index g row col) ->
        Grid.cells g' !! i = Grid.cells g !! i) /\
     (forall r c : Z, 0 <= r < Grid.height g -> 0 <= c < Grid.width g ->
        (r, c) <> (row, col) -> Grid.cell_at g' r c = Grid.cell_at g r c)) /\
  (row < 0 \/ Grid.height g <= row \/ col < 0 \/ Grid.width g <= col ->
   Grid.toggle g row col = (g, Some Grid.OutOfBounds)).
Proof.
  destruct Hwf as (Hw & Hh & Hlen). split.
  - intros Hr Hc.
    assert (Hin : Grid.in_bounds g row col = true) by (apply in_bounds_true; assumption).
    unfold Grid.toggle. rewrite Hin.
    eexists. split; [reflexivity|].
    split; [reflexivity|]. split; [reflexivity|].
    split; [simpl; apply length_alter|].
    assert (Hflip : Grid.cell_at
              {| Grid.width := Grid.width g; Grid.height := Grid.height g;
                 Grid.cells := alter Grid.flip (Z.to_nat (Grid.get_index g row col))
                                     (Grid.cells g) |} row col
            = Grid.flip (Grid.cell_at g row col)).
    { unfold Grid.cell_at, Grid.in_bounds in *. simpl. rewrite Hin.
      unfold Grid.get_index. simpl.
      rewrite list_lookup_alter. destruct (decide _) as [_|Hne]; [|congruence].
      destruct (Grid.cells g !! Z.to_nat (row * Grid.width g + col)) as [c0|] eqn:Hlk;
        [reflexivity|].
      apply lookup_ge_None in Hlk. unfold Grid.get_index in *. nia. }
    split; [exact Hflip|].
    split; [rewrite Hflip; destruct (Grid.cell_at g row col); discriminate|].
    split.
    + intros i Hi. simpl. apply list_lookup_alter_ne. congruence.
    + intros r c Hr' Hc' Hne.
      unfold Grid.cell_at, Grid.in_bounds. simpl.
      destruct (_ && _); [|reflexivity].
      rewrite list_lookup_alter_ne; [reflexivity|].
      unfold Grid.get_index. simpl. intros Heq.
      apply Z2Nat.inj in Heq; [|nia|nia].
      apply index_injective in Heq; [|lia|lia].
      destruct Heq as [-> ->]. contradiction.
  - intros Hout. unfold Grid.toggle. rewrite in_bounds_false by exact Hout.
    reflexivity.
Qed.

Lemma toggle_one_cell_witness :
  Grid.cell_at (fst (Grid.toggle blinker 2 0)) 2 0 = Grid.Alive /\
  Grid.toggle blinker 5 0 = (blinker, Some Grid.OutOfBounds) /\
  Grid.toggle blinker 0 5 = (blinker, Some Grid.OutOfBounds).
Proof.
  split; [|split].
  - destruct (toggle_one_cell blinker 2 0 blinker_wf) as [Hin _].
    destruct (Hin ltac:(simpl; lia) ltac:(simpl; lia))
      as (g' & Heq & _ & _ & _ & Hflip & _).
    rewrite Heq. simpl. rewrite Hflip. reflexivity.
  - apply (toggle_one_cell blinker 5 0 blinker_wf). simpl. lia.
  - apply (toggle_one_cell blinker 0 5 blinker_wf). simpl. lia.
Defined.

(** Toggling the same cell twice restores the grid. *)
Lemma toggle_involution (g : Grid.Grid) (row col : Z) :
  Grid.in_bounds g row col = true ->
  fst (Grid.toggle (fst (Grid.toggle g row col)) row col) = g.
Proof.
  intros Hin. unfold Grid.toggle at 2. rewrite Hin. simpl.
  unfold Grid.toggle, Grid.in_bounds in *. simpl. rewrite Hin. simpl.
  destruct g as [w h cs]. simpl in *. f_equal.
  unfold Grid.get_index. simpl.
  set (idx := Z.to_nat (row * w + col)).
  apply list_eq. intros i. rewrite !list_lookup_alter.
  destruct (decide (idx = i)) as [<-|Hne]; [|reflexivity].
  rewrite decide_True by reflexivity.
  destruct (cs !! idx) as [[]|]; reflexivity.
Qed.

(** [clear] leaves only Dead entries and keeps the dimensions. *)
Lemma clear_all_dead (g : Grid.Grid) :
  Forall (fun c => c = Grid.Dead) (Grid.cells (Grid.clear g)) /\
  length (Grid.cells (Grid.clear g)) = length (Grid.cells g) /\
  Grid.width (Grid.clear g) = Grid.width g /\
  Grid.height (Grid.clear g) = Grid.height g.
Proof.
  split; [|split; [simpl; apply length_map | split; reflexivity]].
  simpl. apply Forall_forall. intros c Hc.
  apply in_map_iff in Hc. destruct Hc as (_ & <- & _). reflexivity.
Qed.

(** ** Doubles

    What the proofs below need of the rounding: it respects the
    equality of rationals, it is exact on the whole numbers below 2^53,
    it keeps the sign, and rounding a quotient by the cell pitch never
    moves it across a whole number. *)

Lemma round_comp (q q' : Q) : (q == q')%Q -> JS.round q = JS.round q'.
Proof. intros Heq. unfold JS.round. rewrite (Qred_complete q q' Heq). reflexivity. Qed.

Lemma Qred_inject_Z (z : Z) : Qred (inject_Z z) = inject_Z z.
Proof.
  unfold Qred, inject_Z.
  pose proof (Z.ggcd_gcd z 1) as Hg.
  pose proof (Z.ggcd_correct_divisors z 1) as Hd.
  destruct (Z.ggcd z 1) as [g [aa bb]]. cbn [fst snd] in *.
  rewrite Z.gcd_1_r in Hg. subst g. destruct Hd as [Ha Hb].
  rewrite Z.mul_1_l in Ha, Hb. subst aa bb. reflexivity.
Qed.

Lemma nearest_even_bounds (n d : Z) :
  0 < d ->
  d * (2 * JS.nearest_even n d - 1) <= 2 * n <= d * (2 * JS.nearest_even n d + 1).
Proof.
  intros Hd. unfold JS.nearest_even.
  pose proof (Z.div_mod n d ltac:(lia)) as Hdm.
  pose proof (Z.mod_pos_bound n d Hd) as Hm.
  set (f := n / d) in *. set (r := n mod d) in *.
  destruct (Z.compare_spec (2 * r) d) as [Heq | Hlt | Hgt].
  - destruct (Z.even f); nia.
  - nia.
  - nia.
Qed.

Lemma nearest_even_nonneg (n d : Z) : 0 <= n -> 0 < d -> 0 <= JS.nearest_even n d.
Proof.
  intros Hn Hd. unfold JS.nearest_even.
  assert (Hf : 0 <= n / d) by (apply Z.div_pos; assumption).
  destruct (_ ?= _); [destruct (Z.even _)| |]; lia.
Qed.

Lemma nearest_even_1 (n : Z) : JS.nearest_even n 1 = n.
Proof.
  unfold JS.nearest_even. rewrite Z.mod_1_r, Z.div_1_r. reflexivity.
Qed.

Lemma exponent_lower (n d : Z) :
  n <> 0 -> 0 < d ->
  (0 <= JS.exponent n d -> d * 2 ^ JS.exponent n d <= Z.abs n) /\
  (JS.exponent n d < 0 -> d <= Z.abs n * 2 ^ (- JS.exponent n d)).
Proof.
  intros Hn Hd. unfold JS.exponent.
  assert (Ha : 0 < Z.abs n) by lia.
  destruct (Z.log2_spec (Z.abs n) Ha) as [Hlo _].
  destruct (Z.log2_spec d Hd) as [_ Hhi].
  pose proof (Z.log2_nonneg (Z.abs n)) as Hln.
  pose proof (Z.log2_nonneg d) as Hld.
  set (a := Z.abs n) in *. set (la := Z.log2 a) in *. set (ld := Z.log2 d) in *.
  set (l := la - ld).
  destruct (Z.leb_spec 0 l) as [Hl | Hl].
  - destruct (Z.leb_spec (d * 2 ^ l) a) as [Ht | Ht].
    + split; [intros _; exact Ht | lia].
    + split.
      * intros Hl'.
        assert (Hp : 2 ^ (Z.succ ld) * 2 ^ (l - 1) = 2 ^ la).
        { rewrite <- Z.pow_add_r by lia. f_equal. lia. }
        assert (0 < 2 ^ (l - 1)) by (apply Z.pow_pos_nonneg; lia).
        nia.
      * intros Hl'. replace (- (l - 1)) with 1 by lia.
        assert (Hla : la = ld) by lia.
        rewrite Z.pow_succ_r in Hhi by exact Hld. rewrite <- Hla in Hhi.
        change (2 ^ 1) with 2. lia.
  - destruct (Z.leb_spec d (a * 2 ^ (- l))) as [Ht | Ht].
    + split; [lia | intros _; exact Ht].
    + split; [lia|]. intros _.
      assert (Hp : 2 ^ la * 2 ^ (- (l - 1)) = 2 ^ (Z.succ ld)).
      { rewrite <- Z.pow_add_r by lia. f_equal. lia. }
      assert (0 < 2 ^ (- (l - 1))) by (apply Z.pow_pos_nonneg; lia).
      nia.
Qed.

Lemma round_Z (z : Z) : Z.abs z < 2 ^ 53 -> JS.round (inject_Z z) = JS.of_Z z.
Proof.
  intros Hz. unfold JS.round, JS.of_Z. rewrite Qred_inject_Z.
  cbn [Qnum Qden inject_Z].
  destruct (Z.eqb_spec z 0) as [-> | Hnz]; [reflexivity|].
  assert (He : JS.exponent z 1 = Z.log2 (Z.abs z)).
  { unfold JS.exponent. change (Z.log2 1) with 0. rewrite Z.sub_0_r.
    pose proof (Z.log2_nonneg (Z.abs z)) as Hl.
    destruct (Z.leb_spec 0 (Z.log2 (Z.abs z))); [|lia].
    destruct (Z.log2_spec (Z.abs z) ltac:(lia)) as [Hlo _].
    destruct (Z.leb_spec (1 * 2 ^ Z.log2 (Z.abs z)) (Z.abs z)); [reflexivity | lia]. }
  rewrite He.
  assert (Hl : 0 <= Z.log2 (Z.abs z) < 53).
  { split; [apply Z.log2_nonneg|]. apply Z.log2_lt_pow2; lia. }
  set (l := Z.log2 (Z.abs z)) in *.
  rewrite Z.max_l by lia.
  destruct (Z.leb_spec 0 (l - 52)) as [Hex | Hex].
  - replace (l - 52) with 0 by lia. change (2 ^ 0) with 1.
    rewrite Z.mul_1_r, nearest_even_1, !Z.mul_1_r.
    destruct (Z.leb_spec (2 ^ 1024) (Z.abs z)) as [Hbig | _]; [|reflexivity].
    assert (2 ^ 53 < 2 ^ 1024) by (apply Z.pow_lt_mono_r; lia). lia.
  - rewrite nearest_even_1. f_equal.
    rewrite <- (Qred_inject_Z z). apply Qred_complete.
    assert (Hp : 0 < 2 ^ (- (l - 52))) by (apply Z.pow_pos_nonneg; lia).
    unfold Qeq. cbn [Qnum Qden inject_Z]. rewrite Z2Pos.id by exact Hp. lia.
Qed.

Lemma round_nonneg (q : Q) :
  (0 <= q)%Q ->
  JS.round q = JS.PosInf \/ exists r : Q, JS.round q = JS.Fin r /\ (0 <= r)%Q.
Proof.
  intros Hq. rewrite <- (Qred_correct q) in Hq. unfold JS.round.
  destruct (Qred q) as [n d]. cbn [Qnum Qden].
  assert (Hn : 0 <= n) by (unfold Qle in Hq; cbn in Hq; lia).
  destruct (Z.eqb_spec n 0) as [Hz | Hnz].
  { right. exists 0%Q. split; [reflexivity | apply Qle_refl]. }
  set (ex := Z.max (JS.exponent n (Z.pos d) - 52) (-1074)).
  destruct (Z.leb_spec 0 ex) as [Hex | Hex].
  - assert (Hm : 0 <= JS.nearest_even n (Z.pos d * 2 ^ ex)).
    { apply nearest_even_nonneg; [exact Hn|].
      apply Z.mul_pos_pos; [lia | apply Z.pow_pos_nonneg; lia]. }
    destruct (_ <=? _).
    + left. destruct (Z.compare_spec n 0); try lia. reflexivity.
    + right. eexists. split; [reflexivity|].
      change 0%Q with (inject_Z 0). rewrite <- Zle_Qle.
      apply Z.mul_nonneg_nonneg; [exact Hm | apply Z.pow_nonneg; lia].
  - right. eexists. split; [reflexivity|]. rewrite Qred_correct.
    unfold Qle. cbn [Qnum Qden]. rewrite Z.mul_1_r. cbn.
    apply nearest_even_nonneg; [|lia].
    apply Z.mul_nonneg_nonneg; [exact Hn | apply Z.pow_nonneg; lia].
Qed.

Lemma floor_round_pitch (n : Z) :
  0 <= n < 2 ^ 50 ->
  JS.floor (JS.div (JS.of_Z n) (JS.of_Z 6)) = JS.of_Z (n / 6).
Proof.
  intros Hn. unfold JS.div, JS.of_Z.
  change (Qeq_bool (inject_Z 6) 0) with false. cbv iota.
  unfold JS.round.
  pose proof (Qred_correct (inject_Z n / inject_Z 6)) as Hq.
  destruct (Qred (inject_Z n / inject_Z 6)) as [p r]. cbn [Qnum Qden].
  assert (Hpr : p * 6 = n * Z.pos r).
  { unfold Qeq in Hq. cbn in Hq. lia. }
  clear Hq.
  destruct (Z.eqb_spec p 0) as [Hp0 | Hp0].
  { assert (n = 0) by nia. subst n. reflexivity. }
  assert (Hp : 0 < p) by nia.
  destruct (exponent_lower p (Z.pos r) Hp0 ltac:(lia)) as [Hlo _].
  assert (He : JS.exponent p (Z.pos r) < 50).
  { destruct (Z.lt_ge_cases (JS.exponent p (Z.pos r)) 50) as [Hlt | Hge]; [exact Hlt|].
    exfalso. specialize (Hlo ltac:(lia)).
    assert (Hpow : 2 ^ 50 <= 2 ^ JS.exponent p (Z.pos r))
      by (apply Z.pow_le_mono_r; lia).
    rewrite Z.abs_eq in Hlo by lia. nia. }
  set (e := JS.exponent p (Z.pos r)) in *.
  set (ex := Z.max (e - 52) (-1074)).
  assert (Hex : ex <= -3) by (unfold ex; lia).
  destruct (Z.leb_spec 0 ex) as [Hge | _]; [lia|].
  assert (HT : 8 <= 2 ^ (- ex)).
  { change 8 with (2 ^ 3). apply Z.pow_le_mono_r; lia. }
  set (T := 2 ^ (- ex)) in *.
  pose proof (nearest_even_bounds (p * T) (Z.pos r) ltac:(lia)) as Hm.
  set (m := JS.nearest_even (p * T) (Z.pos r)) in *.
  cbn [JS.floor]. unfold JS.of_Z. do 2 f_equal.
  rewrite (Qfloor_comp _ _ (Qred_correct _)).
  unfold Qfloor. rewrite Z2Pos.id by lia.
  pose proof (Z.div_mod n 6 ltac:(lia)) as Hdm.
  pose proof (Z.mod_pos_bound n 6 ltac:(lia)) as Hj.
  set (k := n / 6) in *. set (j := n mod 6) in *.
  symmetry. apply (Z.div_unique m T k (m - k * T)); [|lia].
  left.
  assert (H1 : Z.pos r * (6 * (2 * m - 1)) <= Z.pos r * (2 * n * T)) by nia.
  assert (H2 : Z.pos r * (2 * n * T) <= Z.pos r * (6 * (2 * m + 1))) by nia.
  apply Z.mul_le_mono_pos_l in H1; [|lia].
  apply Z.mul_le_mono_pos_l in H2; [|lia].
  assert (HjT : 0 <= j * T <= 5 * T) by nia.
  assert (HnT : n * T = 6 * (k * T) + j * T) by nia.
  lia.
Qed.

(** ** The driver: loops and drawing *)

Section DriverFacts.

Context {W R : Type} `{Engine W R}.
Variable S2N : string -> JS.num.

Lemma bind_returned {A B} (m : Index.M A) (k : A -> Index.M B) (s s' : @Index.World W) (a : A) :
  m s = (Index.Returned a, s') -> Index.bind m k s = k a s'.
Proof. intros Hm. unfold Index.bind. rewrite Hm. reflexivity. Qed.

Lemma for_range_fold (body : Z -> Index.M unit) (f : Z -> (@Index.World W) -> (@Index.World W)) :
  (forall j s, body j s = (Index.Returned tt, f j s)) ->
  forall n i s,
    Index.for_range n i body s
    = (Index.Returned tt, fold_left (fun s j => f j s) (iota n i) s).
Proof.
  intros Hbody. induction n as [|n IH]; intros i s; simpl; [reflexivity|].
  unfold Index.bind. rewrite Hbody. apply IH.
Qed.

Lemma add_path_nil (s : @Index.World W) : add_path [] s = s.
Proof.
  destruct s as [? ? ? ? ? ? [? ? ?] ? ? ? ? ? ? ? ?]. unfold add_path. simpl.
  rewrite app_nil_r. reflexivity.
Qed.

Lemma add_path_app (a b : list Index.PathOp) (s : @Index.World W) :
  add_path b (add_path a s) = add_path (a ++ b) s.
Proof. unfold add_path. simpl. rewrite app_assoc. reflexivity. Qed.

Lemma fold_add_path (seg : Z -> list Index.PathOp) (l : list Z) (s : @Index.World W) :
  fold_left (fun s j => add_path (seg j) s) l s = add_path (flat_map seg l) s.
Proof.
  revert s. induction l as [|j l IH]; intros s; simpl.
  - symmetry. apply add_path_nil.
  - rewrite IH. apply add_path_app.
Qed.

Lemma lines_loop (a b c d : Z -> Z) (n : nat) (i : Z) (s : @Index.World W) :
  Index.for_range n i
    (fun j => Index.bind (Index.ctx_moveTo (a j) (b j))
                         (fun _ => Index.ctx_lineTo (c j) (d j))) s
  = (Index.Returned tt,
     add_path (flat_map (fun j => [Index.MoveTo (a j) (b j); Index.LineTo (c j) (d j)])
                        (iota n i)) s).
Proof.
  erewrite for_range_fold; [rewrite fold_add_path; reflexivity|].
  intros j s0. unfold Index.bind, Index.ctx_moveTo, Index.ctx_lineTo, Index.modify, add_path.
  simpl. rewrite <- app_assoc. reflexivity.
Qed.

Lemma drawGrid_returns (s : @Index.World W) :
  Index.drawGrid s = (Index.Returned tt, grid_drawn s).
Proof.
  unfold Index.drawGrid.
  do 4 (unfold Index.bind at 1; simpl).
  unfold Index.for_le.
  erewrite bind_returned by apply lines_loop.
  erewrite bind_returned by apply lines_loop.
  unfold Index.ctx_stroke, Index.bind, Index.get, Index.emit, Index.modify, grid_drawn,
    grid_path, add_path.
  reflexivity.
Qed.

(** *** Painting the cells *)

Lemma same_vars_refl (s : @Index.World W) : same_vars s s.
Proof. unfold same_vars. repeat split. Qed.

Lemma same_vars_trans (s1 s2 s3 : @Index.World W) :
  same_vars s1 s2 -> same_vars s2 s3 -> same_vars s1 s3.
Proof.
  unfold same_vars. intros H12 H23.
  destruct H12 as (?&?&?&?&?&?&?&?&?&?&?&?&?).
  destruct H23 as (?&?&?&?&?&?&?&?&?&?&?&?&?).
  repeat split; congruence.
Qed.

Lemma fill_all_app (a b : list (Z * Z * string)) (s : @Index.World W) :
  fill_all (a ++ b) s = fill_all b (fill_all a s).
Proof. unfold fill_all. apply fold_left_app. Qed.

Lemma fill_all_same_vars (l : list (Z * Z * string)) (s : @Index.World W) :
  same_vars s (fill_all l s).
Proof.
  revert s. induction l as [|r l IH]; intros s; [apply same_vars_refl|].
  eapply same_vars_trans; [|apply (IH (fill_cell (fst (fst r)) (snd (fst r)) (snd r) s))].
  unfold same_vars. repeat split.
Qed.

Lemma fill_all_log (l : list (Z * Z * string)) (s : @Index.World W) :
  Index.log (fill_all l s) = Index.log s ++ map fill_call l.
Proof.
  revert s. induction l as [|r l IH]; intros s; simpl.
  - rewrite app_nil_r. reflexivity.
  - unfold fill_all in *. simpl. rewrite IH. simpl. rewrite <- app_assoc. reflexivity.
Qed.

Lemma fill_all_stroke (l : list (Z * Z * string)) (s : @Index.World W) :
  Index.strokeStyle (Index.ctx (fill_all l s)) = Index.strokeStyle (Index.ctx s) /\
  Index.path (Index.ctx (fill_all l s)) = Index.path (Index.ctx s).
Proof.
  revert s. induction l as [|r l IH]; intros s; [split; reflexivity|].
  unfold fill_all in *. simpl.
  destruct (IH (fill_cell (fst (fst r)) (snd (fst r)) (snd r) s)) as [-> ->].
  split; reflexivity.
Qed.

Lemma row_loop (cells : list Z) (row : Z) (n : nat) (i : Z) (s : @Index.World W) :
  Index.for_range n i
    (fun col =>
       Index.bind (Index.getIndex row col) (fun idx =>
       Index.bind (Index.ctx_set_fillStyle (Index.cell_color cells idx)) (fun _ =>
       Index.ctx_fillRect (col * (Index.CELL_SIZE + 1) + 1)
                          (row * (Index.CELL_SIZE + 1) + 1)
                          Index.CELL_SIZE Index.CELL_SIZE))) s
  = (Index.Returned tt,
     fill_all (map (cell_rect cells (Index.width s) row) (iota n i)) s).
Proof.
  revert i s. induction n as [|n IH]; intros i s; [reflexivity|].
  simpl. unfold Index.bind at 1.
  unfold Index.bind at 1. unfold Index.getIndex at 1. unfold Index.bind at 1. simpl.
  unfold Index.bind at 1. simpl.
  rewrite IH. reflexivity.
Qed.

Lemma rows_loop (cells : list Z) (w : Z) (n : nat) (i : Z) (s : @Index.World W) :
  Index.width s = w ->
  Index.for_range n i
    (fun row =>
       Index.for_lt 0 w (fun col =>
         Index.bind (Index.getIndex row col) (fun idx =>
         Index.bind (Index.ctx_set_fillStyle (Index.cell_color cells idx)) (fun _ =>
         Index.ctx_fillRect (col * (Index.CELL_SIZE + 1) + 1)
                            (row * (Index.CELL_SIZE + 1) + 1)
                            Index.CELL_SIZE Index.CELL_SIZE)))) s
  = (Index.Returned tt,
     fill_all (flat_map (fun row => map (cell_rect cells w row) (iota (Z.to_nat (w - 0)) 0))
                        (iota n i)) s).
Proof.
  revert i s. induction n as [|n IH]; intros i s Hw; [reflexivity|].
  simpl. unfold Index.bind at 1. unfold Index.for_lt at 1.
  rewrite row_loop. rewrite IH.
  - rewrite fill_all_app, Hw. reflexivity.
  - rewrite <- Hw. apply (fill_all_same_vars _ s).
Qed.

Lemma call_cells_returns (s : @Index.World W) :
  Index.call_cells s =
  (Index.Returned (cells_ptr s),
   Index.set_log (Index.log s ++ [Index.CCells (Index.universe s)]) s).
Proof. reflexivity. Qed.

Lemma new_Uint8Array_returns (ptr len : Z) (s : @Index.World W) :
  Index.new_Uint8Array ptr len s =
  let s' := Index.set_log (Index.log s ++ [Index.CView ptr len]) s in
  if (0 <=? ptr) && (0 <=? len) &&
     (ptr + len <=? Z.of_nat (length (memory_buffer (Index.wasm s))))
  then (Index.Returned (take (Z.to_nat len)
                             (drop (Z.to_nat ptr) (memory_buffer (Index.wasm s)))), s')
  else (Index.Thrown, s').
Proof.
  unfold Index.new_Uint8Array, Index.bind, Index.get, Index.emit, Index.modify,
    Index.ret, Index.throw.
  cbn [Index.wasm Index.set_log].
  destruct (_ && _); reflexivity.
Qed.

Lemma drawCells_returns (s : @Index.World W) :
  view_in_memory s = true ->
  Index.drawCells s = (Index.Returned tt, cells_drawn s).
Proof.
  intros Hview. unfold Index.drawCells.
  erewrite bind_returned by apply call_cells_returns.
  do 2 (unfold Index.bind at 1; unfold Index.get at 1).
  cbn [Index.width Index.height Index.set_log].
  unfold Index.bind at 1. rewrite new_Uint8Array_returns.
  cbn [Index.wasm Index.set_log Index.log].
  unfold view_in_memory in Hview. rewrite Hview.
  unfold Index.bind at 1. unfold Index.ctx_beginPath at 1, Index.modify at 1.
  unfold Index.for_lt at 1.
  erewrite bind_returned by (apply rows_loop; reflexivity).
  unfold Index.ctx_stroke, Index.bind, Index.get, Index.emit, Index.modify.
  unfold cells_drawn, cells_read, cells_view.
  match goal with
  | |- context [fill_all ?l ?s0] =>
      destruct (fill_all_stroke l s0) as [Hss Hp]; rewrite Hss, Hp
  end.
  cbn [Index.ctx Index.set_ctx Index.set_log Index.path Index.strokeStyle
       Index.fillStyle Index.log Index.wasm Index.universe Index.width Index.height
       Index.canvas_width Index.canvas_height Index.animationId Index.playPauseButton
       Index.ticksFrameInputRange Index.ticksValue Index.ticksPerFrame Index.pending
       Index.next_id].
  rewrite <- app_assoc. reflexivity.
Qed.

Lemma drawCells_throws (s : @Index.World W) :
  view_in_memory s = false ->
  Index.drawCells s = (Index.Thrown, cells_read s).
Proof.
  intros Hview. unfold Index.drawCells.
  erewrite bind_returned by apply call_cells_returns.
  do 2 (unfold Index.bind at 1; unfold Index.get at 1).
  cbn [Index.width Index.height Index.set_log].
  unfold Index.bind at 1. rewrite new_Uint8Array_returns.
  cbn [Index.wasm Index.set_log Index.log].
  unfold view_in_memory in Hview. rewrite Hview.
  unfold cells_read. rewrite <- app_assoc. reflexivity.
Qed.

Lemma iota_seq (n : nat) (i : Z) :
  iota n i = map (fun k => i + Z.of_nat k) (seq 0 n).
Proof.
  revert i. induction n as [|n IH]; intros i; [reflexivity|].
  simpl. rewrite Z.add_0_r. f_equal.
  rewrite IH, <- seq_shift, map_map.
  apply map_ext. intros k. lia.
Qed.

Lemma cell_rects_table (cells : list Z) (w h : Z) :
  cell_rects cells w h =
  tabulate (Z.to_nat h) (Z.to_nat w)
           (fun r c => cell_rect cells w (Z.of_nat r) (Z.of_nat c)).
Proof.
  unfold cell_rects, tabulate. rewrite !Z.sub_0_r, !iota_seq.
  rewrite flat_map_concat_map, map_map, <- flat_map_concat_map.
  apply flat_map_ext. intros r. rewrite map_map. reflexivity.
Qed.

Lemma cells_view_length (s : @Index.World W) :
  view_in_memory s = true ->
  length (cells_view s) = Z.to_nat (Index.width s * Index.height s).
Proof.
  unfold view_in_memory, cells_view. rewrite !andb_true_iff, !Z.leb_le.
  intros [[Hp Hl] Hb]. rewrite length_take, length_drop. lia.
Qed.

Lemma cells_view_lookup (s : @Index.World W) (i : Z) :
  view_in_memory s = true ->
  0 <= i < Index.width s * Index.height s ->
  cells_view s !! Z.to_nat i
  = memory_buffer (Index.wasm s) !! Z.to_nat (cells_ptr s + i).
Proof.
  unfold view_in_memory, cells_view. rewrite !andb_true_iff, !Z.leb_le.
  intros [[Hp Hl] Hb] Hi.
  rewrite lookup_take_lt by lia. rewrite lookup_drop. f_equal. lia.
Qed.

Lemma same_vars_set_log (l : list Index.call) (s : @Index.World W) :
  same_vars s (Index.set_log l s).
Proof. unfold same_vars. repeat split. Qed.

Lemma same_vars_set_ctx (c : Index.Ctx) (s : @Index.World W) :
  same_vars s (Index.set_ctx c s).
Proof. unfold same_vars. repeat split. Qed.

Lemma grid_drawn_same_vars (s : @Index.World W) : same_vars s (grid_drawn s).
Proof.
  unfold grid_drawn.
  eapply same_vars_trans; [apply same_vars_set_ctx | apply same_vars_set_log].
Qed.

Lemma cells_read_same_vars (s : @Index.World W) : same_vars s (cells_read s).
Proof. apply same_vars_set_log. Qed.

Lemma cells_drawn_same_vars (s : @Index.World W) : same_vars s (cells_drawn s).
Proof.
  unfold cells_drawn.
  eapply same_vars_trans; [|apply same_vars_set_log].
  eapply same_vars_trans; [|apply fill_all_same_vars].
  eapply same_vars_trans; [apply cells_read_same_vars | apply same_vars_set_ctx].
Qed.

(** C2: when the view lies inside the wasm memory, [drawCells] returns
    and changes nothing but the canvas.  It asks the universe for its
    cell pointer, takes a view of [width * height] bytes of the memory
    from that pointer, and then paints exactly [width * height]
    rectangles in row-major order: the rectangle painted at position
    [row * width + column] is that of the cell at ([row], [column]), it
    is filled according to the view's entry at the same index, with the
    dead colour when the entry equals [Cell.Dead] and with the alive
    colour otherwise. *)
Theorem drawCells_wire_format (s : @Index.World W)
    (Hw : 0 <= Index.width s) (Hh : 0 <= Index.height s)
    (Hview : view_in_memory s = true) :
  exists (s' : @Index.World W) (rects : list Index.call),
    Index.drawCells s = (Index.Returned tt, s') /\
    same_vars s s' /\
    Index.log s' =
      Index.log s
      ++ [Index.CCells (Index.universe s);
          Index.CView (universe_cells (Index.wasm s) (Index.universe s))
                      (Index.width s * Index.height s)]
      ++ rects ++ [Index.CStroke [] (Index.strokeStyle (Index.ctx s))] /\
    length (cells_view s) = Z.to_nat (Index.width s * Index.height s) /\
    length rects = Z.to_nat (Index.width s * Index.height s) /\
    forall row col : Z,
      0 <= row < Index.height s -> 0 <= col < Index.width s ->
      exists b : Z,
        cells_view s !! Z.to_nat (row * Index.width s + col) = Some b /\
        memory_buffer (Index.wasm s)
          !! Z.to_nat (universe_cells (Index.wasm s) (Index.universe s)
                       + (row * Index.width s + col)) = Some b /\
        rects !! Z.to_nat (row * Index.width s + col) =
          Some (Index.CFillRect (col * (Index.CELL_SIZE + 1) + 1)
                                (row * (Index.CELL_SIZE + 1) + 1)
                                Index.CELL_SIZE Index.CELL_SIZE
                                (if b =? Cell_Dead then Index.DEAD_COLOR
                                 else Index.ALIVE_COLOR)).
Proof.
  set (w := Index.width s) in *. set (h := Index.height s) in *.
  exists (cells_drawn s), (map fill_call (cell_rects (cells_view s) w h)).
  split; [apply drawCells_returns; exact Hview|].
  split.
  { apply cells_drawn_same_vars. }
  split.
  { unfold cells_drawn. cbn [Index.log Index.set_log]. rewrite fill_all_log.
    unfold cells_read. cbn [Index.log Index.set_log Index.set_ctx].
    rewrite <- !app_assoc. reflexivity. }
  split; [apply cells_view_length; exact Hview|].
  split.
  { rewrite length_map, cell_rects_table, tabulate_length. nia. }
  intros row col Hr Hc.
  assert (Hidx : 0 <= row * w + col < w * h) by nia.
  destruct (cells_view s !! Z.to_nat (row * w + col)) as [b|] eqn:Hb.
  2:{ apply lookup_ge_None in Hb. rewrite cells_view_length in Hb by exact Hview.
      fold w h in Hb. lia. }
  exists b. split; [reflexivity|]. split.
  { rewrite <- Hb. symmetry. apply cells_view_lookup; [exact Hview | exact Hidx]. }
  rewrite list_lookup_fmap, cell_rects_table.
  rewrite index_to_nat by lia.
  rewrite tabulate_lookup by lia.
  rewrite !Z2Nat.id by lia. unfold cell_rect, fill_call, Index.cell_color. simpl.
  destruct (Z.leb_spec 0 (row * w + col)); [|lia].
  rewrite Hb. reflexivity.
Qed.

(** *** A redraw *)

Lemma cells_drawn_log (s : @Index.World W) :
  Index.log (cells_drawn s) =
  Index.log s
  ++ [Index.CCells (Index.universe s);
      Index.CView (cells_ptr s) (Index.width s * Index.height s)]
  ++ map fill_call (cell_rects (cells_view s) (Index.width s) (Index.height s))
  ++ [Index.CStroke [] (Index.strokeStyle (Index.ctx s))].
Proof.
  unfold cells_drawn. cbn [Index.log Index.set_log]. rewrite fill_all_log.
  unfold cells_read. cbn [Index.log Index.set_log Index.set_ctx].
  rewrite <- !app_assoc. reflexivity.
Qed.

Lemma redraw_returns {A} (k : Index.M A) (s : @Index.World W) :
  view_in_memory s = true ->
  Index.bind Index.drawGrid (fun _ => Index.bind Index.drawCells (fun _ => k)) s
  = k (redrawn s).
Proof.
  intros Hview.
  erewrite bind_returned by apply drawGrid_returns.
  erewrite bind_returned by (apply drawCells_returns; exact Hview).
  reflexivity.
Qed.

Lemma redraw_throws {A} (k : Index.M A) (s : @Index.World W) :
  view_in_memory s = false ->
  Index.bind Index.drawGrid (fun _ => Index.bind Index.drawCells (fun _ => k)) s
  = (Index.Thrown, cells_read (grid_drawn s)).
Proof.
  intros Hview.
  erewrite bind_returned by apply drawGrid_returns.
  unfold Index.bind. rewrite drawCells_throws by exact Hview. reflexivity.
Qed.

Lemma redrawn_same_vars (s : @Index.World W) : same_vars s (redrawn s).
Proof.
  eapply same_vars_trans; [apply grid_drawn_same_vars | apply cells_drawn_same_vars].
Qed.

Lemma redrawn_log (s : @Index.World W) :
  Index.log (redrawn s) = Index.log s ++ redraw_calls s.
Proof.
  unfold redrawn. rewrite cells_drawn_log. unfold redraw_calls.
  cbn. rewrite <- !app_assoc. reflexivity.
Qed.

Lemma redraw_calls_draw (s : @Index.World W) : forallb is_draw (redraw_calls s) = true.
Proof.
  unfold redraw_calls. rewrite !forallb_app. simpl.
  rewrite andb_true_r. apply forallb_forall. intros c Hc.
  apply in_map_iff in Hc. destruct Hc as (r & <- & _). reflexivity.
Qed.

Lemma redraw_calls_ext (s s' : @Index.World W) :
  Index.wasm s' = Index.wasm s -> Index.universe s' = Index.universe s ->
  Index.width s' = Index.width s -> Index.height s' = Index.height s ->
  redraw_calls s' = redraw_calls s.
Proof.
  intros Hwasm Hu Hw Hh. unfold redraw_calls, cells_view, cells_ptr.
  rewrite Hwasm, Hu, Hw, Hh. reflexivity.
Qed.

Lemma redraw_calls_redrawn (s : @Index.World W) : redraw_calls (redrawn s) = redraw_calls s.
Proof.
  destruct (redrawn_same_vars s) as (Hwasm & Hu & Hw & Hh & _).
  apply redraw_calls_ext; assumption.
Qed.

(** *** Projections of the states the handlers go through *)

Lemma redraw_calls_frame_requested (s : @Index.World W) :
  redraw_calls (frame_requested s) = redraw_calls s.
Proof. apply redraw_calls_ext; reflexivity. Qed.

Lemma killed_paused_log (s : @Index.World W) :
  Index.log (killed (paused s))
  = Index.log s
    ++ [Index.CCancelFrame (Index.animationId s); Index.CKill (Index.universe s)].
Proof. cbn. rewrite <- app_assoc. reflexivity. Qed.

Lemma replaced_log (r : R) (s : @Index.World W) :
  Index.log (replaced r s) = Index.log s ++ [Index.CRandomUniverse].
Proof. reflexivity. Qed.

Lemma toggled_log (row col : JS.num) (w' : W) (s : @Index.World W) :
  Index.log (toggled row col w' s)
  = Index.log s ++ [Index.CToggle (Index.universe s) row col].
Proof. reflexivity. Qed.

Lemma ticked_log (k : nat) (s : @Index.World W) :
  Index.log (ticked k s) = Index.log s ++ repeat (Index.CTick (Index.universe s)) k.
Proof. reflexivity. Qed.

Lemma frame_requested_log (s : @Index.World W) :
  Index.log (frame_requested s) = Index.log s ++ [Index.CRequestFrame (Index.next_id s)].
Proof. reflexivity. Qed.

Lemma frame_requested_pending (s : @Index.World W) :
  Index.pending (frame_requested s) = Index.pending s ++ [Index.next_id s].
Proof. reflexivity. Qed.

Lemma frame_requested_animationId (s : @Index.World W) :
  Index.animationId (frame_requested s) = Some (Index.next_id s).
Proof. reflexivity. Qed.

Lemma frame_requested_ticks (s : @Index.World W) :
  Index.ticksPerFrame (frame_requested s) = Index.ticksPerFrame s /\
  Index.ticksFrameInputRange (frame_requested s) = Index.ticksFrameInputRange s.
Proof. split; reflexivity. Qed.

Lemma ticked_pending (k : nat) (s : @Index.World W) :
  Index.pending (ticked k s) = Index.pending s.
Proof. reflexivity. Qed.

Lemma set_playPauseButton_pending (t : string) (s : @Index.World W) :
  Index.pending (Index.set_playPauseButton t s) = Index.pending s.
Proof. reflexivity. Qed.

Lemma set_playPauseButton_ticks (t : string) (s : @Index.World W) :
  Index.ticksPerFrame (Index.set_playPauseButton t s) = Index.ticksPerFrame s /\
  Index.ticksFrameInputRange (Index.set_playPauseButton t s)
  = Index.ticksFrameInputRange s.
Proof. split; reflexivity. Qed.

Lemma redraw_thrown_log (s : @Index.World W) :
  Index.log (cells_read (grid_drawn s))
  = Index.log s
    ++ [Index.CStroke (grid_path (Index.width s) (Index.height s)) Index.GRID_COLOR;
        Index.CCells (Index.universe s);
        Index.CView (cells_ptr s) (Index.width s * Index.height s)].
Proof. unfold cells_read, grid_drawn. cbn. rewrite <- app_assoc. reflexivity. Qed.

Lemma redraw_thrown_same_vars (s : @Index.World W) :
  same_vars s (cells_read (grid_drawn s)).
Proof.
  eapply same_vars_trans; [apply grid_drawn_same_vars | apply cells_read_same_vars].
Qed.

Lemma redraw_thrown_pending (s : @Index.World W) :
  Index.pending (cells_read (grid_drawn s)) = Index.pending s.
Proof. reflexivity. Qed.


(** *** The render loop *)

Lemma lt_ceiling (i : Z) (q : Q) : (inject_Z i < q)%Q <-> i < Qceiling q.
Proof.
  split; intros Hlt.
  - rewrite Zlt_Qlt. eapply Qlt_le_trans; [exact Hlt | apply Qle_ceiling].
  - eapply Qle_lt_trans; [|apply Qceiling_lt].
    rewrite <- Zle_Qle. lia.
Qed.

Lemma ltb_counter (i : Z) (q : Q) :
  JS.ltb (JS.of_Z i) (JS.Fin q) = (i <? Qceiling q).
Proof.
  unfold JS.ltb, JS.of_Z.
  destruct (Z.ltb_spec i (Qceiling q)) as [Hlt|Hge].
  - apply lt_ceiling in Hlt.
    destruct (Qle_bool q (inject_Z i)) eqn:Hle; [|reflexivity].
    apply Qle_bool_iff in Hle. exfalso. eapply Qlt_not_le; eassumption.
  - destruct (Qle_bool q (inject_Z i)) eqn:Hle; [reflexivity|].
    exfalso. assert (Hlt : (inject_Z i < q)%Q).
    { apply Qnot_le_lt. intros Hle'. apply Qle_bool_iff in Hle'. congruence. }
    apply lt_ceiling in Hlt. lia.
Qed.

Lemma ticked_zero (s : @Index.World W) : ticked 0 s = s.
Proof.
  destruct s. unfold ticked. simpl. rewrite app_nil_r. reflexivity.
Qed.

Lemma call_tick_returns (s : @Index.World W) :
  Index.call_tick s = (Index.Returned tt, ticked 1 s).
Proof. reflexivity. Qed.

Lemma ticked_succ (n : nat) (s : @Index.World W) : ticked n (ticked 1 s) = ticked (S n) s.
Proof.
  unfold ticked. cbn [Index.universe Index.wasm Index.log Index.set_wasm Index.set_log].
  rewrite <- Nat.iter_succ_r. rewrite <- app_assoc. reflexivity.
Qed.

Lemma tick_loop_returns (fuel : nat) (i : Z) (s : @Index.World W) (q : Q) :
  Index.ToNumber S2N (Index.ticksPerFrame s) = JS.Fin q ->
  0 <= i -> Qceiling q <= 2 ^ 53 ->
  (Z.to_nat (Qceiling q - i) <= fuel)%nat ->
  Index.tick_loop S2N fuel i s
  = (Index.Returned tt, ticked (Z.to_nat (Qceiling q - i)) s).
Proof.
  revert i s. induction fuel as [|fuel IH]; intros i s Hq Hi Hmax Hfuel.
  - cbn [Index.tick_loop]. unfold Index.bind, Index.get. rewrite Hq, ltb_counter.
    destruct (Z.ltb_spec i (Qceiling q)); [lia|].
    replace (Z.to_nat (Qceiling q - i)) with 0%nat by lia.
    rewrite ticked_zero. reflexivity.
  - cbn [Index.tick_loop]. unfold Index.bind at 1. unfold Index.get at 1.
    rewrite Hq, ltb_counter.
    destruct (Z.ltb_spec i (Qceiling q)) as [Hlt|Hge].
    + erewrite bind_returned by apply call_tick_returns.
      assert (Hincr : JS.incr i = i + 1).
      { unfold JS.incr. destruct (Z.ltb_spec i (2 ^ 53)); [reflexivity | lia]. }
      rewrite Hincr, IH; [|exact Hq|lia|exact Hmax|lia].
      rewrite ticked_succ. do 2 f_equal. lia.
    + replace (Z.to_nat (Qceiling q - i)) with 0%nat by lia.
      rewrite ticked_zero. reflexivity.
Qed.

Lemma requestAnimationFrame_returns (s : @Index.World W) :
  Index.bind Index.requestAnimationFrame
             (fun id => Index.modify (Index.set_animationId (Some id))) s
  = (Index.Returned tt, frame_requested s).
Proof. reflexivity. Qed.

Lemma renderLoop_returns (fuel : nat) (s : @Index.World W) (q : Q) :
  Index.ToNumber S2N (Index.ticksPerFrame s) = JS.Fin q ->
  Qceiling q <= 2 ^ 53 ->
  (Z.to_nat (Qceiling q) <= fuel)%nat ->
  view_in_memory (ticked (Z.to_nat (Qceiling q)) s) = true ->
  Index.renderLoop S2N fuel s
  = (Index.Returned tt, frame_requested (redrawn (ticked (Z.to_nat (Qceiling q)) s))).
Proof.
  intros Hq Hmax Hfuel Hview. unfold Index.renderLoop.
  erewrite bind_returned
    by (rewrite (tick_loop_returns fuel 0 s q Hq); [reflexivity|lia|lia|];
        rewrite Z.sub_0_r; exact Hfuel).
  rewrite Z.sub_0_r. rewrite redraw_returns by exact Hview.
  apply requestAnimationFrame_returns.
Qed.

(** *** The handlers *)

Lemma redraw_cases (s : @Index.World W) :
  Index.bind Index.drawGrid (fun _ => Index.drawCells) s
  = if view_in_memory s then (Index.Returned tt, redrawn s)
    else (Index.Thrown, cells_read (grid_drawn s)).
Proof.
  erewrite bind_returned by apply drawGrid_returns.
  destruct (view_in_memory s) eqn:Hview.
  - apply drawCells_returns. exact Hview.
  - apply drawCells_throws. exact Hview.
Qed.

Lemma pause_returns (s : @Index.World W) : Index.pause s = (Index.Returned tt, paused s).
Proof. reflexivity. Qed.

Lemma kill_click_cases (s : @Index.World W) :
  Index.kill_click s
  = if view_in_memory (killed (paused s))
    then (Index.Returned tt, redrawn (killed (paused s)))
    else (Index.Thrown, cells_read (grid_drawn (killed (paused s)))).
Proof.
  unfold Index.kill_click.
  erewrite bind_returned by apply pause_returns.
  erewrite bind_returned by reflexivity.
  apply (redraw_cases (killed (paused s))).
Qed.

Lemma reset_click_cases (r : R) (s : @Index.World W) :
  Index.reset_click r s
  = if view_in_memory (replaced r s)
    then (Index.Returned tt, redrawn (replaced r s))
    else (Index.Thrown, cells_read (grid_drawn (replaced r s))).
Proof.
  unfold Index.reset_click.
  erewrite bind_returned by reflexivity.
  erewrite bind_returned by reflexivity.
  apply (redraw_cases (replaced r s)).
Qed.

Lemma canvas_click_cases (b : Index.DOMRect) (e : Index.MouseEvent) (s : @Index.World W) :
  Index.canvas_click b e s
  = match universe_toggle_cell (Index.universe s) (click_row s b e) (click_col s b e)
                               (Index.wasm s) with
    | Some w' =>
        let s1 := toggled (click_row s b e) (click_col s b e) w' s in
        if view_in_memory s1 then (Index.Returned tt, redrawn s1)
        else (Index.Thrown, cells_read (grid_drawn s1))
    | None => (Index.Thrown, toggle_called (click_row s b e) (click_col s b e) s)
    end.
Proof.
  unfold Index.canvas_click.
  do 4 (unfold Index.bind at 1; unfold Index.get at 1).
  fold (canvasLeft s b e). fold (canvasTop s b e).
  fold (click_row s b e). fold (click_col s b e).
  unfold Index.bind at 1. unfold Index.call_toggle_cell.
  do 2 (unfold Index.bind at 1; unfold Index.get at 1).
  unfold Index.bind at 1. unfold Index.emit at 1, Index.modify at 1.
  cbn [Index.universe Index.wasm Index.set_log].
  destruct (universe_toggle_cell _ _ _ _) as [w'|]; [|reflexivity].
  unfold Index.modify at 1.
  apply (redraw_cases (toggled (click_row s b e) (click_col s b e) w' s)).
Qed.

Lemma tick_loop_succ (fuel : nat) (i : Z) (s : @Index.World W) :
  Index.tick_loop S2N (S fuel) i s
  = if JS.ltb (JS.of_Z i) (Index.ToNumber S2N (Index.ticksPerFrame s))
    then Index.tick_loop S2N fuel (JS.incr i) (ticked 1 s)
    else (Index.Returned tt, s).
Proof.
  cbn [Index.tick_loop]. unfold Index.bind at 1. unfold Index.get at 1.
  destruct (JS.ltb _ _); reflexivity.
Qed.

Lemma tick_loop_zero (i : Z) (s : @Index.World W) :
  Index.tick_loop S2N 0 i s
  = if JS.ltb (JS.of_Z i) (Index.ToNumber S2N (Index.ticksPerFrame s))
    then (Index.Diverged, s)
    else (Index.Returned tt, s).
Proof.
  cbn [Index.tick_loop]. unfold Index.bind, Index.get.
  destruct (JS.ltb _ _); reflexivity.
Qed.

Lemma tick_loop_cases (fuel : nat) (i : Z) (s : @Index.World W) :
  exists k : nat,
    Index.tick_loop S2N fuel i s = (Index.Returned tt, ticked k s) \/
    Index.tick_loop S2N fuel i s = (Index.Diverged, ticked k s).
Proof.
  revert i s. induction fuel as [|fuel IH]; intros i s.
  - exists 0%nat. rewrite ticked_zero, tick_loop_zero.
    destruct (JS.ltb _ _); [right | left]; reflexivity.
  - rewrite tick_loop_succ. destruct (JS.ltb _ _).
    + destruct (IH (JS.incr i) (ticked 1 s)) as (k & Hk).
      exists (S k). rewrite ticked_succ in Hk. exact Hk.
    + exists 0%nat. rewrite ticked_zero. left. reflexivity.
Qed.

Lemma renderLoop_cases (fuel : nat) (s : @Index.World W) :
  rendered s (Index.renderLoop S2N fuel s).
Proof.
  unfold Index.renderLoop.
  destruct (tick_loop_cases fuel 0 s) as (k & [Hk | Hk]).
  - erewrite bind_returned by exact Hk.
    destruct (view_in_memory (ticked k s)) eqn:Hview.
    + rewrite redraw_returns by exact Hview.
      rewrite requestAnimationFrame_returns. apply rendered_returned. exact Hview.
    + rewrite redraw_throws by exact Hview. apply rendered_thrown. exact Hview.
  - unfold Index.bind. rewrite Hk. apply rendered_diverged.
Qed.

Lemma play_cases (fuel : nat) (s : @Index.World W) :
  rendered (Index.set_playPauseButton "⏸" s) (Index.play S2N fuel s).
Proof. apply (renderLoop_cases fuel (Index.set_playPauseButton "⏸" s)). Qed.

Lemma playPause_click_cases (fuel : nat) (s : @Index.World W) :
  match Index.animationId s with
  | None => rendered (Index.set_playPauseButton "⏸" s) (Index.playPause_click S2N fuel s)
  | Some _ => Index.playPause_click S2N fuel s = (Index.Returned tt, paused s)
  end.
Proof.
  destruct (Index.animationId s) as [id|] eqn:Hid.
  - unfold Index.playPause_click, Index.isPaused, Index.bind, Index.get, Index.ret.
    rewrite Hid. reflexivity.
  - replace (Index.playPause_click S2N fuel s) with (Index.play S2N fuel s);
      [apply play_cases|].
    unfold Index.playPause_click, Index.isPaused, Index.bind, Index.get, Index.ret.
    rewrite Hid. reflexivity.
Qed.

Lemma animation_frame_unfold (fuel : nat) (id : Z) (s : @Index.World W) :
  Index.animation_frame S2N fuel id s
  = if existsb (Z.eqb id) (Index.pending s)
    then Index.renderLoop S2N fuel (frame_taken id s)
    else (Index.Returned tt, s).
Proof.
  unfold Index.animation_frame.
  unfold Index.bind at 1; unfold Index.get at 1. cbv beta iota.
  destruct (existsb _ _); reflexivity.
Qed.

Lemma animation_frame_cases (fuel : nat) (id : Z) (s : @Index.World W) :
  if existsb (Z.eqb id) (Index.pending s)
  then rendered (frame_taken id s) (Index.animation_frame S2N fuel id s)
  else Index.animation_frame S2N fuel id s = (Index.Returned tt, s).
Proof.
  rewrite animation_frame_unfold.
  destruct (existsb _ _); [apply renderLoop_cases | reflexivity].
Qed.

Lemma updateTicks_returns (s : @Index.World W) :
  Index.updateTicks s = (Index.Returned tt, ticks_updated s).
Proof. reflexivity. Qed.

Lemma ticks_input_returns (v : string) (s : @Index.World W) :
  Index.ticks_input v s
  = (Index.Returned tt, ticks_updated (Index.set_ticksFrameInputRange v s)).
Proof. reflexivity. Qed.

Lemma dispatch_cases (fuel : nat) (e : Index.ui_event) (s : @Index.World W) :
  handled s e (Index.dispatch S2N fuel e s).
Proof.
  destruct e as [|v|r| |b e|id]; cbn [Index.dispatch].
  - pose proof (playPause_click_cases fuel s) as Hc.
    destruct (Index.animationId s) as [id|] eqn:Hid.
    + rewrite Hc. eapply handled_pause. exact Hid.
    + apply handled_play; assumption.
  - rewrite ticks_input_returns. apply handled_ticks.
  - rewrite reset_click_cases.
    destruct (view_in_memory (replaced r s)) eqn:Hv;
      [apply handled_reset | apply handled_reset_thrown]; exact Hv.
  - rewrite kill_click_cases.
    destruct (view_in_memory (killed (paused s))) eqn:Hv;
      [apply handled_kill | apply handled_kill_thrown]; exact Hv.
  - rewrite canvas_click_cases.
    destruct (universe_toggle_cell _ _ _ _) as [w'|] eqn:Ht.
    + cbv zeta.
      destruct (view_in_memory _) eqn:Hv;
        [apply handled_click | apply handled_click_view]; assumption.
    + apply handled_click_thrown. exact Ht.
  - pose proof (animation_frame_cases fuel id s) as Hc.
    destruct (existsb (Z.eqb id) (Index.pending s)) eqn:Hp.
    + apply handled_frame; assumption.
    + rewrite Hc. apply handled_no_frame. exact Hp.
Qed.

(** *** What stays fixed across handlers *)

Lemma steady_refl (s : @Index.World W) : steady s s.
Proof.
  unfold steady. repeat split. exists []. rewrite app_nil_r. split; [reflexivity|constructor].
Qed.

Lemma steady_trans (s1 s2 s3 : @Index.World W) : steady s1 s2 -> steady s2 s3 -> steady s1 s3.
Proof.
  intros (Hw & Hh & Hcw & Hch & e1 & Hl1 & He1) (Hw' & Hh' & Hcw' & Hch' & e2 & Hl2 & He2).
  unfold steady. repeat split; try congruence.
  exists (e1 ++ e2). split; [rewrite Hl2, Hl1, app_assoc; reflexivity|].
  apply Forall_app. split; [exact He1|]. rewrite <- Hw, <- Hh. exact He2.
Qed.

Lemma same_vars_steady (s s' : @Index.World W) (ext : list Index.call) :
  same_vars s s' ->
  Index.log s' = Index.log s ++ ext ->
  Forall (later_call (Index.width s) (Index.height s)) ext ->
  steady s s'.
Proof.
  intros (_ & _ & Hw & Hh & Hcw & Hch & _) Hlog Hext.
  unfold steady. repeat split; try assumption. exists ext. split; assumption.
Qed.

Lemma redraw_calls_later (s : @Index.World W) :
  Forall (later_call (Index.width s) (Index.height s)) (redraw_calls s).
Proof.
  unfold redraw_calls. repeat constructor.
  apply Forall_app. split; [|repeat constructor].
  apply Forall_forall. intros c Hc. apply in_map_iff in Hc.
  destruct Hc as (r & <- & _). exact I.
Qed.

Lemma redrawn_steady (s : @Index.World W) : steady s (redrawn s).
Proof.
  eapply same_vars_steady;
    [apply redrawn_same_vars | apply redrawn_log | apply redraw_calls_later].
Qed.

Lemma redraw_thrown_steady (s : @Index.World W) : steady s (cells_read (grid_drawn s)).
Proof.
  eapply same_vars_steady with
    (ext := [Index.CStroke (grid_path (Index.width s) (Index.height s)) Index.GRID_COLOR;
             Index.CCells (Index.universe s);
             Index.CView (cells_ptr s) (Index.width s * Index.height s)]).
  - apply redraw_thrown_same_vars.
  - apply redraw_thrown_log.
  - repeat constructor.
Qed.

Lemma ticked_steady (k : nat) (s : @Index.World W) : steady s (ticked k s).
Proof.
  unfold steady, ticked. cbn. repeat split.
  eexists. split; [reflexivity|].
  apply Forall_forall. intros c Hc. apply repeat_spec in Hc. subst c. exact I.
Qed.

Lemma frame_requested_steady (s : @Index.World W) : steady s (frame_requested s).
Proof.
  unfold steady, frame_requested. cbn. repeat split.
  eexists. split; [reflexivity | repeat constructor].
Qed.

Lemma paused_steady (s : @Index.World W) : steady s (paused s).
Proof.
  unfold steady, paused. cbn. repeat split.
  eexists. split; [reflexivity | repeat constructor].
Qed.

Lemma killed_steady (s : @Index.World W) : steady s (killed s).
Proof.
  unfold steady, killed. cbn. repeat split.
  eexists. split; [reflexivity | repeat constructor].
Qed.

Lemma replaced_steady (r : R) (s : @Index.World W) : steady s (replaced r s).
Proof.
  unfold steady, replaced. cbn. repeat split.
  eexists. split; [reflexivity | repeat constructor].
Qed.

Lemma toggle_called_steady (row col : JS.num) (s : @Index.World W) :
  steady s (toggle_called row col s).
Proof.
  unfold steady, toggle_called. cbn. repeat split.
  eexists. split; [reflexivity | repeat constructor].
Qed.

Lemma toggled_steady (row col : JS.num) (w' : W) (s : @Index.World W) :
  steady s (toggled row col w' s).
Proof.
  unfold steady, toggled, toggle_called. cbn. repeat split.
  eexists. split; [reflexivity | repeat constructor].
Qed.

Lemma silent_steady (s s' : @Index.World W) :
  Index.width s' = Index.width s -> Index.height s' = Index.height s ->
  Index.canvas_width s' = Index.canvas_width s ->
  Index.canvas_height s' = Index.canvas_height s ->
  Index.log s' = Index.log s -> steady s s'.
Proof.
  intros Hw Hh Hcw Hch Hlog. unfold steady. repeat split; try assumption.
  exists []. rewrite app_nil_r. split; [assumption | constructor].
Qed.

Lemma set_playPauseButton_steady (t : string) (s : @Index.World W) :
  steady s (Index.set_playPauseButton t s).
Proof. apply silent_steady; reflexivity. Qed.

Lemma ticks_updated_steady (s : @Index.World W) : steady s (ticks_updated s).
Proof. apply silent_steady; reflexivity. Qed.

Lemma rendered_steady (s : @Index.World W) (r : Index.outcome unit * @Index.World W) :
  rendered s r -> steady s (snd r).
Proof.
  intros Hr. inversion Hr as [k | k Hv | k Hv]; subst; cbn [snd].
  - apply ticked_steady.
  - eapply steady_trans; [apply ticked_steady | apply redraw_thrown_steady].
  - eapply steady_trans; [apply ticked_steady|].
    eapply steady_trans; [apply redrawn_steady | apply frame_requested_steady].
Qed.

Lemma handled_steady (e : Index.ui_event) (s : @Index.World W) (r : Index.outcome unit * @Index.World W) :
  handled s e r -> steady s (snd r).
Proof.
  intros Hh. inversion Hh; subst; cbn [snd].
  - apply paused_steady.
  - eapply steady_trans; [|apply rendered_steady; eassumption].
    apply silent_steady; reflexivity.
  - apply silent_steady; reflexivity.
  - eapply steady_trans; [apply replaced_steady | apply redrawn_steady].
  - eapply steady_trans; [apply replaced_steady | apply redraw_thrown_steady].
  - eapply steady_trans; [apply paused_steady|].
    eapply steady_trans; [apply killed_steady | apply redrawn_steady].
  - eapply steady_trans; [apply paused_steady|].
    eapply steady_trans; [apply killed_steady | apply redraw_thrown_steady].
  - eapply steady_trans; [apply toggled_steady | apply redrawn_steady].
  - eapply steady_trans; [apply toggled_steady | apply redraw_thrown_steady].
  - apply toggle_called_steady.
  - eapply steady_trans; [|apply rendered_steady; eassumption].
    apply silent_steady; reflexivity.
  - apply steady_refl.
Qed.

Lemma dispatch_steady (fuel : nat) (e : Index.ui_event) (s : @Index.World W) :
  steady s (snd (Index.dispatch S2N fuel e s)).
Proof. eapply handled_steady. apply dispatch_cases. Qed.

Lemma run_steady (fuel : nat) (es : list Index.ui_event) (s : @Index.World W) :
  steady s (Index.run S2N fuel es s).
Proof.
  revert s. induction es as [|e es IH]; intros s; [apply steady_refl|].
  cbn [Index.run].
  pose proof (dispatch_steady fuel e s) as Hd.
  destruct (Index.dispatch S2N fuel e s) as [[a| |] s1]; cbn [snd] in Hd.
  - eapply steady_trans; [exact Hd | apply IH].
  - eapply steady_trans; [exact Hd | apply IH].
  - exact Hd.
Qed.

(** *** The claims about single handlers *)

(** C3: when [ticksPerFrame] reads as the whole number [n] (at most
    2^53, the range in which the loop counter is exact) and the view of
    the cells fits in the wasm memory once the ticks are done, one call
    of [renderLoop] returns after calling [universe.tick()] exactly [n]
    times and then redrawing once: its calls are [n] ticks, then the
    calls of one redraw, which read the instance as the last tick left
    it and contain no tick, then the request for the next frame, whose
    id it stores in [animationId]. *)
Theorem renderLoop_tick_batch (fuel : nat) (s : @Index.World W) (q : Q) (n : Z)
    (Hq : Index.ToNumber S2N (Index.ticksPerFrame s) = JS.Fin q)
    (Hint : (q == inject_Z n)%Q)
    (Hn : 0 <= n <= 2 ^ 53)
    (Hfuel : (Z.to_nat n <= fuel)%nat)
    (Hview : view_in_memory (ticked (Z.to_nat n) s) = true) :
  exists s' : @Index.World W,
    Index.renderLoop S2N fuel s = (Index.Returned tt, s') /\
    Index.wasm s' = Nat.iter (Z.to_nat n) (universe_tick (Index.universe s)) (Index.wasm s) /\
    Index.universe s' = Index.universe s /\
    Index.log s' =
      Index.log s ++ repeat (Index.CTick (Index.universe s)) (Z.to_nat n)
      ++ redraw_calls s' ++ [Index.CRequestFrame (Index.next_id s)] /\
    forallb is_draw (redraw_calls s') = true /\
    Index.animationId s' = Some (Index.next_id s).
Proof.
  assert (Hceil : Qceiling q = n) by (rewrite (Qceiling_comp _ _ Hint); apply Qceiling_Z).
  exists (frame_requested (redrawn (ticked (Z.to_nat n) s))).
  split.
  { rewrite <- Hceil in *. apply renderLoop_returns; [assumption|lia|assumption|assumption]. }
  set (s1 := ticked (Z.to_nat n) s).
  destruct (redrawn_same_vars s1) as (Hwasm & Hu & Hw & Hh & _ & _ & _ & _ & _ & _ & _ & _ & Hid).
  assert (Hcalls : redraw_calls (frame_requested (redrawn s1)) = redraw_calls s1).
  { rewrite redraw_calls_frame_requested. apply redraw_calls_redrawn. }
  split; [change (Index.wasm (frame_requested (redrawn s1))) with (Index.wasm (redrawn s1));
          rewrite Hwasm; reflexivity|].
  split; [change (Index.universe (frame_requested (redrawn s1)))
            with (Index.universe (redrawn s1)); rewrite Hu; reflexivity|].
  split.
  { rewrite Hcalls, frame_requested_log, redrawn_log, Hid. subst s1.
    rewrite ticked_log, <- !app_assoc. reflexivity. }
  split; [apply redraw_calls_draw|].
  change (Index.animationId (frame_requested (redrawn s1)))
    with (Some (Index.next_id (redrawn s1))).
  rewrite Hid. reflexivity.
Qed.

(** When [ticksPerFrame] reads as NaN, or as a number that is not
    positive, the loop body never runs. *)
Lemma tick_loop_none (fuel : nat) (s : @Index.World W) :
  JS.ltb (JS.of_Z 0) (Index.ToNumber S2N (Index.ticksPerFrame s)) = false ->
  Index.tick_loop S2N fuel 0 s = (Index.Returned tt, s).
Proof.
  intros Hlt. destruct fuel; [rewrite tick_loop_zero | rewrite tick_loop_succ];
    rewrite Hlt; reflexivity.
Qed.

Lemma redraw_calls_receiver (s : @Index.World W) :
  Forall (fun c => receiver c = None \/ receiver c = Some (Index.universe s))
         (redraw_calls s).
Proof.
  unfold redraw_calls. cbn [app].
  constructor; [left; reflexivity|]. constructor; [right; reflexivity|].
  constructor; [left; reflexivity|].
  apply Forall_app. split.
  - apply Forall_forall. intros c Hc. apply in_map_iff in Hc as (r & <- & _).
    left. reflexivity.
  - constructor; [left; reflexivity | constructor].
Qed.

(** C4, as amended: a reset does not call into the current universe.
    However the handler ends, its first call is
    [Universe.random_universe()], the variable [universe] holds the
    object that call returned, and every call after it is a draw call
    which, if made on a universe at all, is made on the new one.  A
    kill-all, however it ends, first pauses and calls [kill_universe()]
    on the current universe, which stays in the variable, and only
    draws afterwards.  When the view of the cells fits in the wasm
    memory, each of the two handlers goes on to exactly one redraw of
    the state it has produced and returns. *)
Theorem reset_and_kill_redraw (r : R) (s : @Index.World W) :
  (let s' := snd (Index.reset_click r s) in
   Index.wasm s' = fst (Universe_random_universe r (Index.wasm s)) /\
   Index.universe s' = snd (Universe_random_universe r (Index.wasm s)) /\
   exists rest : list Index.call,
     Index.log s' = Index.log s ++ Index.CRandomUniverse :: rest /\
     forallb is_draw rest = true /\
     Forall (fun c => receiver c = None \/ receiver c = Some (Index.universe s')) rest) /\
  (view_in_memory (replaced r s) = true ->
   exists s' : @Index.World W,
     Index.reset_click r s = (Index.Returned tt, s') /\
     Index.wasm s' = fst (Universe_random_universe r (Index.wasm s)) /\
     Index.universe s' = snd (Universe_random_universe r (Index.wasm s)) /\
     Index.log s' = Index.log s ++ [Index.CRandomUniverse] ++ redraw_calls s' /\
     forallb is_draw (redraw_calls s') = true) /\
  (let s' := snd (Index.kill_click s) in
   Index.wasm s' = universe_kill_universe (Index.universe s) (Index.wasm s) /\
   Index.universe s' = Index.universe s /\
   exists rest : list Index.call,
     Index.log s' =
       Index.log s
       ++ Index.CCancelFrame (Index.animationId s) :: Index.CKill (Index.universe s) :: rest /\
     forallb is_draw rest = true) /\
  (view_in_memory (killed (paused s)) = true ->
   exists s' : @Index.World W,
     Index.kill_click s = (Index.Returned tt, s') /\
     Index.wasm s' = universe_kill_universe (Index.universe s) (Index.wasm s) /\
     Index.universe s' = Index.universe s /\
     Index.log s' =
       Index.log s
       ++ [Index.CCancelFrame (Index.animationId s); Index.CKill (Index.universe s)]
       ++ redraw_calls s' /\
     forallb is_draw (redraw_calls s') = true).
Proof.
  split; [|split; [|split]].
  - cbv zeta. rewrite reset_click_cases.
    destruct (view_in_memory (replaced r s)); cbn [snd].
    + destruct (redrawn_same_vars (replaced r s)) as (Hwasm & Hu & _).
      split; [rewrite Hwasm; reflexivity|]. split; [rewrite Hu; reflexivity|].
      exists (redraw_calls (replaced r s)).
      split; [rewrite redrawn_log, replaced_log, <- app_assoc; reflexivity|].
      split; [apply redraw_calls_draw|].
      rewrite Hu. apply redraw_calls_receiver.
    + destruct (redraw_thrown_same_vars (replaced r s)) as (Hwasm & Hu & _).
      split; [rewrite Hwasm; reflexivity|]. split; [rewrite Hu; reflexivity|].
      eexists.
      split; [rewrite redraw_thrown_log, replaced_log, <- app_assoc; reflexivity|].
      split; [reflexivity|].
      rewrite Hu.
      constructor; [left; reflexivity|]. constructor; [right; reflexivity|].
      constructor; [left; reflexivity | constructor].
  - intros Hview. exists (redrawn (replaced r s)).
    rewrite reset_click_cases, Hview. split; [reflexivity|].
    destruct (redrawn_same_vars (replaced r s)) as (Hwasm & Hu & _).
    split; [rewrite Hwasm; reflexivity|]. split; [rewrite Hu; reflexivity|].
    split; [|apply redraw_calls_draw].
    rewrite redrawn_log, redraw_calls_redrawn, replaced_log, <- app_assoc. reflexivity.
  - cbv zeta. rewrite kill_click_cases.
    destruct (view_in_memory (killed (paused s))); cbn [snd].
    + destruct (redrawn_same_vars (killed (paused s))) as (Hwasm & Hu & _).
      split; [rewrite Hwasm; reflexivity|]. split; [rewrite Hu; reflexivity|].
      exists (redraw_calls (killed (paused s))).
      split; [rewrite redrawn_log, killed_paused_log, <- app_assoc; reflexivity|].
      apply redraw_calls_draw.
    + destruct (redraw_thrown_same_vars (killed (paused s))) as (Hwasm & Hu & _).
      split; [rewrite Hwasm; reflexivity|]. split; [rewrite Hu; reflexivity|].
      eexists.
      split; [rewrite redraw_thrown_log, killed_paused_log, <- app_assoc; reflexivity|].
      reflexivity.
  - intros Hview. exists (redrawn (killed (paused s))).
    rewrite kill_click_cases, Hview. split; [reflexivity|].
    destruct (redrawn_same_vars (killed (paused s))) as (Hwasm & Hu & _).
    split; [rewrite Hwasm; reflexivity|]. split; [rewrite Hu; reflexivity|].
    split; [|apply redraw_calls_draw].
    rewrite redrawn_log, redraw_calls_redrawn, killed_paused_log, <- app_assoc.
    reflexivity.
Qed.

(** *** Mutations come before the redraw *)

Lemma draws_no_mutation (l : list Index.call) :
  forallb is_draw l = true -> no_mutation l = true.
Proof.
  intros Hl. unfold no_mutation. apply forallb_forall. intros c Hc.
  rewrite forallb_forall in Hl. specialize (Hl c Hc). destruct c; try discriminate; reflexivity.
Qed.

Lemma quiet_no_mutation (l : list Index.call) : quiet l = true -> no_mutation l = true.
Proof.
  unfold quiet, no_mutation. rewrite !forallb_forall. intros Hl c Hc.
  specialize (Hl c Hc). apply andb_true_iff in Hl. tauto.
Qed.

Lemma settled_ordered (s s' : @Index.World W) : settled s s' -> ordered s s'.
Proof.
  intros (pre & post & Hlog & Hpre & Hpost).
  exists pre, (redraw_calls s' ++ post). split; [exact Hlog|]. split; [exact Hpre|].
  unfold no_mutation. rewrite forallb_app.
  apply andb_true_iff. split.
  - apply draws_no_mutation, redraw_calls_draw.
  - apply quiet_no_mutation. exact Hpost.
Qed.

Lemma ticks_no_draw (u : Z) (k : nat) : no_draw (repeat (Index.CTick u) k) = true.
Proof.
  unfold no_draw. apply forallb_forall. intros c Hc.
  apply repeat_spec in Hc. subst c. reflexivity.
Qed.

Lemma redrawn_settled (s s1 : @Index.World W) (pre : list Index.call) :
  Index.log s1 = Index.log s ++ pre -> no_draw pre = true ->
  settled s (redrawn s1).
Proof.
  intros Hlog Hpre. exists pre, []. split; [|split; [exact Hpre | reflexivity]].
  rewrite redrawn_log, redraw_calls_redrawn, Hlog, app_nil_r, <- app_assoc. reflexivity.
Qed.

Lemma redraw_thrown_ordered (s s1 : @Index.World W) (pre : list Index.call) :
  Index.log s1 = Index.log s ++ pre -> no_draw pre = true ->
  ordered s (cells_read (grid_drawn s1)).
Proof.
  intros Hlog Hpre.
  exists pre, [Index.CStroke (grid_path (Index.width s1) (Index.height s1)) Index.GRID_COLOR;
               Index.CCells (Index.universe s1);
               Index.CView (cells_ptr s1) (Index.width s1 * Index.height s1)].
  split; [|split; [exact Hpre | reflexivity]].
  rewrite redraw_thrown_log, Hlog, <- !app_assoc. reflexivity.
Qed.

Lemma rendered_ordered (s0 s : @Index.World W) (r : Index.outcome unit * @Index.World W) :
  Index.log s0 = Index.log s ->
  rendered s0 r ->
  ordered s (snd r) /\ (fst r = Index.Returned tt -> settled s (snd r)).
Proof.
  intros Hlog Hr. inversion Hr as [k | k Hv | k Hv]; subst; cbn [fst snd].
  - split; [|discriminate].
    exists (repeat (Index.CTick (Index.universe s0)) k), [].
    split; [|split; [apply ticks_no_draw | reflexivity]].
    rewrite ticked_log, Hlog, app_nil_r. reflexivity.
  - split; [|discriminate].
    eapply redraw_thrown_ordered; [|apply (ticks_no_draw (Index.universe s0) k)].
    rewrite ticked_log, Hlog. reflexivity.
  - assert (Hset : settled s (frame_requested (redrawn (ticked k s0)))).
    { exists (repeat (Index.CTick (Index.universe s0)) k),
             [Index.CRequestFrame (Index.next_id (redrawn (ticked k s0)))].
      split; [|split; [apply ticks_no_draw | reflexivity]].
      rewrite redraw_calls_frame_requested, redraw_calls_redrawn.
      rewrite frame_requested_log, redrawn_log, ticked_log, Hlog, <- !app_assoc.
      reflexivity. }
    split; [apply settled_ordered; exact Hset | intros _; exact Hset].
Qed.

Lemma untouched_ordered (s s' : @Index.World W) : untouched s s' -> ordered s s'.
Proof.
  intros (_ & _ & ext & Hlog & Hq). exists [], ext.
  split; [exact Hlog|]. split; [reflexivity | apply quiet_no_mutation; exact Hq].
Qed.

(** *** Clicks on the canvas *)

Lemma min_le (a b : JS.num) : JS.leb a b = true -> JS.min a b = a.
Proof.
  destruct a as [| | |x], b as [| | |y]; simpl; try discriminate; try reflexivity.
  intros ->. reflexivity.
Qed.

(** C6, as amended: the click handler scales the click's offset in the
    bounding rectangle to canvas coordinates, divides by the cell pitch
    [CELL_SIZE + 1], rounds down and then clamps the row to
    [height - 1] and the column to [width - 1], every step in double
    arithmetic.  However the handler ends, the first call it makes is
    [toggle_cell] with exactly this pair, on the current universe, and
    no later call of it changes a universe.  Where rounding down
    already gives a row (a column) that does not exceed the last one,
    the clamp changes nothing.  When the call returns and the view of
    the cells fits in the wasm memory, the handler goes on to one
    redraw, which reads the instance the toggle left, and returns. *)
Theorem click_toggles_clamped_cell (b : Index.DOMRect) (e : Index.MouseEvent)
    (s : @Index.World W) (w' : W) :
  let scaleX := JS.div (JS.of_Z (Index.canvas_width s)) (JS.of_Q (Index.rect_width b)) in
  let scaleY := JS.div (JS.of_Z (Index.canvas_height s)) (JS.of_Q (Index.rect_height b)) in
  let left :=
    JS.mul (JS.sub (JS.of_Q (Index.clientX e)) (JS.of_Q (Index.rect_left b))) scaleX in
  let top :=
    JS.mul (JS.sub (JS.of_Q (Index.clientY e)) (JS.of_Q (Index.rect_top b))) scaleY in
  let pitch := JS.of_Z (Index.CELL_SIZE + 1) in
  let row := JS.min (JS.floor (JS.div top pitch)) (JS.of_Z (Index.height s - 1)) in
  let col := JS.min (JS.floor (JS.div left pitch)) (JS.of_Z (Index.width s - 1)) in
  (JS.leb (JS.floor (JS.div top pitch)) (JS.of_Z (Index.height s - 1)) = true ->
   row = JS.floor (JS.div top pitch)) /\
  (JS.leb (JS.floor (JS.div left pitch)) (JS.of_Z (Index.width s - 1)) = true ->
   col = JS.floor (JS.div left pitch)) /\
  (exists rest : list Index.call,
     Index.log (snd (Index.canvas_click b e s))
     = Index.log s ++ Index.CToggle (Index.universe s) row col :: rest /\
     no_mutation rest = true) /\
  (universe_toggle_cell (Index.universe s) row col (Index.wasm s) = Some w' ->
   view_in_memory (toggled row col w' s) = true ->
   exists s' : @Index.World W,
     Index.canvas_click b e s = (Index.Returned tt, s') /\
     Index.wasm s' = w' /\
     Index.universe s' = Index.universe s /\
     Index.log s' =
       Index.log s ++ [Index.CToggle (Index.universe s) row col] ++ redraw_calls s' /\
     forallb is_draw (redraw_calls s') = true).
Proof.
  intros scaleX scaleY left top pitch row col.
  split; [apply min_le|]. split; [apply min_le|].
  rewrite canvas_click_cases.
  change (click_row s b e) with row. change (click_col s b e) with col.
  split.
  - destruct (universe_toggle_cell _ _ _ _) as [w1|].
    + cbv zeta. destruct (view_in_memory _); cbn [snd].
      * exists (redraw_calls (toggled row col w1 s)).
        split; [rewrite redrawn_log, toggled_log, <- app_assoc; reflexivity|].
        apply draws_no_mutation, redraw_calls_draw.
      * eexists.
        split; [rewrite redraw_thrown_log, toggled_log, <- app_assoc; reflexivity|].
        reflexivity.
    + exists []. split; reflexivity.
  - intros Htoggle Hview. exists (redrawn (toggled row col w' s)).
    rewrite Htoggle. cbv zeta. rewrite Hview.
    split; [reflexivity|].
    destruct (redrawn_same_vars (toggled row col w' s)) as (Hwasm & Hu & _).
    split; [rewrite Hwasm; reflexivity|]. split; [rewrite Hu; reflexivity|].
    split; [|apply redraw_calls_draw].
    rewrite redrawn_log, redraw_calls_redrawn, toggled_log, <- app_assoc. reflexivity.
Qed.

Lemma clamp_in_range (a : JS.num) (m : Z) :
  0 <= m -> JS.leb (JS.of_Z 0) a = true ->
  exists z : Z,
    0 <= z <= m /\
    JS.min (JS.floor (JS.div a (JS.of_Z (Index.CELL_SIZE + 1)))) (JS.of_Z m) = JS.of_Z z.
Proof.
  intros Hm Ha. destruct a as [| | |q]; try discriminate.
  - exists m. split; [lia | reflexivity].
  - unfold JS.leb, JS.of_Z in Ha. apply Qle_bool_iff in Ha.
    assert (Hdiv : JS.div (JS.Fin q) (JS.of_Z (Index.CELL_SIZE + 1))
                   = JS.round (q / inject_Z 6)) by reflexivity.
    rewrite Hdiv.
    destruct (round_nonneg (q / inject_Z 6)) as [-> | (r & -> & Hr)].
    { apply Qle_shift_div_l; [reflexivity|]. rewrite Qmult_0_l. exact Ha. }
    { exists m. split; [lia | reflexivity]. }
    cbn [JS.floor]. unfold JS.of_Z, JS.min.
    assert (Hfloor : 0 <= Qfloor r).
    { rewrite <- (Qfloor_Z 0). apply Qfloor_resp_le. exact Hr. }
    destruct (Qle_bool _ _) eqn:Hle.
    + exists (Qfloor r). split; [|reflexivity].
      apply Qle_bool_iff in Hle. rewrite <- Zle_Qle in Hle. lia.
    + exists m. split; [lia | reflexivity].
Qed.

(** C8: on a grid of positive width and height, a click whose canvas
    coordinates [canvasLeft] and [canvasTop] are not negative makes the
    handler call [toggle_cell] with a whole row in [0, height - 1] and a
    whole column in [0, width - 1], the last row and column included for
    clicks on the far border; this call is the first thing the handler
    adds to the log. *)
Theorem click_in_bounds (b : Index.DOMRect) (e : Index.MouseEvent) (s : @Index.World W)
    (Hw : 0 < Index.width s) (Hh : 0 < Index.height s)
    (Hleft : JS.leb (JS.of_Z 0) (canvasLeft s b e) = true)
    (Htop : JS.leb (JS.of_Z 0) (canvasTop s b e) = true) :
  exists (row col : Z) (rest : list Index.call),
    0 <= row <= Index.height s - 1 /\
    0 <= col <= Index.width s - 1 /\
    Index.log (snd (Index.canvas_click b e s))
    = Index.log s ++ Index.CToggle (Index.universe s) (JS.of_Z row) (JS.of_Z col) :: rest.
Proof.
  destruct (clamp_in_range (canvasTop s b e) (Index.height s - 1)) as (row & Hrow & Hr);
    [lia | exact Htop |].
  destruct (clamp_in_range (canvasLeft s b e) (Index.width s - 1)) as (col & Hcol & Hc);
    [lia | exact Hleft |].
  fold (click_row s b e) in Hr. fold (click_col s b e) in Hc.
  exists row, col.
  rewrite canvas_click_cases, Hr, Hc.
  destruct (universe_toggle_cell _ _ _ _) as [w'|].
  - cbv zeta. destruct (view_in_memory _).
    + eexists. split; [exact Hrow|]. split; [exact Hcol|].
      cbn [snd]. rewrite redrawn_log, toggled_log, <- app_assoc. reflexivity.
    + eexists. split; [exact Hrow|]. split; [exact Hcol|].
      cbn [snd]. rewrite redraw_thrown_log, toggled_log, <- app_assoc. reflexivity.
  - exists []. split; [exact Hrow|]. split; [exact Hcol|]. reflexivity.
Qed.

(** *** Pausing *)

Lemma isPaused_returns (s : @Index.World W) :
  Index.isPaused s
  = (Index.Returned match Index.animationId s with None => true | Some _ => false end, s).
Proof. reflexivity. Qed.

Lemma cancelled_not_pending (id : Z) (p : list Z) :
  ~ In id (List.filter (fun j => negb (j =? id)) p).
Proof.
  intros Hin. apply filter_In in Hin. destruct Hin as [_ Hne].
  rewrite Z.eqb_refl in Hne. discriminate.
Qed.

Lemma paused_pending_nil (s : @Index.World W) : frames_inv s -> Index.pending (paused s) = [].
Proof.
  intros Hinv. cbn [paused Index.pending Index.set_animationId Index.set_log Index.set_frames].
  destruct (Index.animationId s) as [i|] eqn:Hid.
  - destruct (List.filter _ _) as [|x l] eqn:Hf; [reflexivity|].
    assert (Hx : In x (List.filter (fun j => negb (j =? i)) (Index.pending s)))
      by (rewrite Hf; left; reflexivity).
    apply filter_In in Hx. destruct Hx as [Hx Hne].
    specialize (Hinv x Hx). rewrite Hid in Hinv. injection Hinv as ->.
    rewrite Z.eqb_refl in Hne. discriminate.
  - destruct (Index.pending s) as [|x l] eqn:Hp; [reflexivity|].
    specialize (Hinv x). rewrite Hp, Hid in Hinv.
    discriminate (Hinv (or_introl eq_refl)).
Qed.

(** C9: the kill-all handler pauses before it kills: the cancellation of
    the frame in [animationId] is the first call it adds to the log and
    [kill_universe()] the second.  However the handler ends,
    [animationId] is null afterwards, so that [isPaused()] returns true,
    the play/pause button shows the play glyph and the frame that was
    requested is no longer pending; no frame at all is pending when, as
    in every state the page reaches, the only pending request was the
    one in [animationId].  The reset handler leaves [animationId], the
    pending requests and the button text as they were. *)
Theorem kill_pauses_first (s : @Index.World W) :
  let s' := snd (Index.kill_click s) in
  (exists rest : list Index.call,
     Index.log s' =
       Index.log s ++ Index.CCancelFrame (Index.animationId s)
                   :: Index.CKill (Index.universe s) :: rest) /\
  Index.animationId s' = None /\
  Index.isPaused s' = (Index.Returned true, s') /\
  Index.playPauseButton s' = "▶"%string /\
  (forall id : Z, Index.animationId s = Some id -> ~ In id (Index.pending s')) /\
  (frames_inv s -> Index.pending s' = []) /\
  forall r : R,
    let s'' := snd (Index.reset_click r s) in
    Index.animationId s'' = Index.animationId s /\
    Index.pending s'' = Index.pending s /\
    Index.playPauseButton s'' = Index.playPauseButton s /\
    Index.isPaused s''
    = (Index.Returned match Index.animationId s with None => true | Some _ => false end,
       s'').
Proof.
  cbv zeta.
  assert (Hkill : exists (s' : @Index.World W) (rest : list Index.call),
            snd (Index.kill_click s) = s' /\ same_vars (killed (paused s)) s' /\
            Index.log s' = Index.log (killed (paused s)) ++ rest).
  { rewrite kill_click_cases. destruct (view_in_memory _); cbn [snd].
    - eexists _, _. split; [reflexivity|].
      split; [apply redrawn_same_vars | apply redrawn_log].
    - eexists _, _. split; [reflexivity|].
      split; [apply redraw_thrown_same_vars | apply redraw_thrown_log]. }
  destruct Hkill as (s' & rest & -> & Hsame & Hlog).
  destruct Hsame as (_ & _ & _ & _ & _ & _ & Hid & Hbtn & _ & _ & _ & Hpend & _).
  cbn [killed paused Index.animationId Index.playPauseButton Index.set_wasm Index.set_log
       Index.set_animationId Index.set_frames Index.set_playPauseButton] in Hid, Hbtn.
  split.
  { exists rest. rewrite Hlog, killed_paused_log, <- app_assoc. reflexivity. }
  split; [exact Hid|].
  split; [rewrite isPaused_returns, Hid; reflexivity|].
  split; [exact Hbtn|].
  split.
  { intros id Hsome. rewrite Hpend.
    cbn [killed paused Index.pending Index.set_wasm Index.set_log Index.set_animationId
         Index.set_frames]. rewrite Hsome. apply cancelled_not_pending. }
  split.
  { intros Hinv. rewrite Hpend. apply (paused_pending_nil s Hinv). }
  intros r.
  assert (Hreset : same_vars (replaced r s) (snd (Index.reset_click r s))).
  { rewrite reset_click_cases. destruct (view_in_memory _); cbn [snd].
    - apply redrawn_same_vars.
    - apply redraw_thrown_same_vars. }
  destruct Hreset as (_ & _ & _ & _ & _ & _ & Hid' & Hbtn' & _ & _ & _ & Hpend' & _).
  rewrite isPaused_returns, Hid', Hbtn', Hpend'. repeat split.
Qed.

(** The invariant of the frame scheduler holds in every state the page
    reaches. *)
Lemma rendered_frames_inv (s : @Index.World W) (r : Index.outcome unit * @Index.World W) :
  Index.pending s = [] -> rendered s r -> frames_inv (snd r).
Proof.
  intros Hp Hr.
  assert (Hnil : forall s' : @Index.World W, Index.pending s' = [] -> frames_inv s')
    by (intros s' Hs' id Hin; rewrite Hs' in Hin; destruct Hin).
  inversion Hr as [k | k Hv | k Hv]; subst; cbn [snd].
  - apply Hnil. exact Hp.
  - apply Hnil. exact Hp.
  - intros id Hin.
    destruct (redrawn_same_vars (ticked k s))
      as (_ & _ & _ & _ & _ & _ & _ & _ & _ & _ & _ & Hpend & Hnext).
    rewrite frame_requested_pending, Hpend, ticked_pending, Hp in Hin.
    rewrite frame_requested_animationId.
    destruct Hin as [<- | []]. reflexivity.
Qed.

Lemma handled_frames_inv (e : Index.ui_event) (s : @Index.World W)
    (r : Index.outcome unit * @Index.World W) :
  frames_inv s -> handled s e r -> frames_inv (snd r).
Proof.
  intros Hinv Hh.
  assert (Hnil : forall s' : @Index.World W, Index.pending s' = [] -> frames_inv s')
    by (intros s' Hs' id Hin; rewrite Hs' in Hin; destruct Hin).
  assert (Hkeep : forall s' : @Index.World W,
            Index.pending s' = Index.pending s ->
            Index.animationId s' = Index.animationId s -> frames_inv s')
    by (intros s' Hp Ha id Hin; rewrite Hp in Hin; rewrite Ha; apply Hinv; exact Hin).
  inversion Hh; subst; cbn [snd].
  - apply Hnil, paused_pending_nil, Hinv.
  - eapply rendered_frames_inv; [|eassumption].
    cbn. destruct (Index.pending s) as [|x l] eqn:Hp; [reflexivity|].
    specialize (Hinv x). rewrite Hp in Hinv.
    specialize (Hinv (or_introl eq_refl)). congruence.
  - apply Hkeep; reflexivity.
  - destruct (redrawn_same_vars (replaced r0 s))
      as (_ & _ & _ & _ & _ & _ & Ha & _ & _ & _ & _ & Hp & _).
    apply Hkeep; [rewrite Hp | rewrite Ha]; reflexivity.
  - apply Hkeep; reflexivity.
  - destruct (redrawn_same_vars (killed (paused s)))
      as (_ & _ & _ & _ & _ & _ & _ & _ & _ & _ & _ & Hp & _).
    apply Hnil. rewrite Hp. apply (paused_pending_nil s Hinv).
  - apply Hnil. apply (paused_pending_nil s Hinv).
  - match goal with |- frames_inv (redrawn ?x) =>
      destruct (redrawn_same_vars x)
        as (_ & _ & _ & _ & _ & _ & Ha & _ & _ & _ & _ & Hp & _)
    end.
    apply Hkeep; [rewrite Hp | rewrite Ha]; reflexivity.
  - apply Hkeep; reflexivity.
  - apply Hkeep; reflexivity.
  - eapply rendered_frames_inv; [|eassumption].
    cbn [frame_taken Index.pending Index.set_frames].
    destruct (List.filter _ _) as [|x l] eqn:Hf; [reflexivity|].
    assert (Hx : In x (List.filter (fun j => negb (j =? id)) (Index.pending s)))
      by (rewrite Hf; left; reflexivity).
    apply filter_In in Hx. destruct Hx as [Hx Hne].
    match goal with Hex : existsb _ _ = true |- _ =>
      apply existsb_exists in Hex; destruct Hex as (y & Hy & Heq) end.
    apply Z.eqb_eq in Heq. subst y.
    pose proof (Hinv x Hx) as Hax. pose proof (Hinv id Hy) as Hay.
    rewrite Hax in Hay. injection Hay as ->.
    rewrite Z.eqb_refl in Hne. discriminate.
  - exact Hinv.
Qed.

(** *** Start-up *)

Lemma start_unfold (fuel : nat) (w0 : W) (page : Index.Page) :
  Index.start S2N fuel w0 page
  = if view_in_memory (ticks_updated (booted w0 page))
    then Index.play S2N fuel (redrawn (ticks_updated (booted w0 page)))
    else (Index.Thrown, cells_read (grid_drawn (ticks_updated (booted w0 page)))).
Proof.
  unfold Index.start. fold (booted w0 page).
  erewrite bind_returned by apply updateTicks_returns.
  destruct (view_in_memory (ticks_updated (booted w0 page))) eqn:Hv.
  - rewrite redraw_returns by exact Hv. reflexivity.
  - rewrite redraw_throws by exact Hv. reflexivity.
Qed.

Lemma start_steady (fuel : nat) (w0 : W) (page : Index.Page) :
  steady (booted w0 page) (snd (Index.start S2N fuel w0 page)).
Proof.
  rewrite start_unfold.
  eapply steady_trans; [apply ticks_updated_steady|].
  destruct (view_in_memory _).
  - eapply steady_trans; [apply redrawn_steady|].
    eapply steady_trans; [apply set_playPauseButton_steady|].
    apply rendered_steady. apply play_cases.
  - apply redraw_thrown_steady.
Qed.

(** C10: the constants [width] and [height] are the dimensions the first
    universe reported at start-up, and so is the canvas size computed
    from them; whatever events follow, they keep these values.  The log
    of the whole run starts with the creation of that universe and the
    two dimension queries, and holds no further dimension query: the
    universe a reset installs is never asked for its size.  Every view
    of the wasm memory taken later has the length [width * height] of
    the captured constants, and a returning reset in particular redraws
    the new universe through a view of that length. *)
Theorem dimensions_captured_once (fuel : nat) (w0 : W) (page : Index.Page)
    (es : list Index.ui_event) :
  let w1 := fst (Universe_new w0) in
  let u0 := snd (Universe_new w0) in
  let s := Index.run S2N fuel es (snd (Index.start S2N fuel w0 page)) in
  Index.width s = universe_width w1 u0 /\
  Index.height s = universe_height w1 u0 /\
  Index.canvas_width s = (Index.CELL_SIZE + 1) * universe_width w1 u0 + 1 /\
  Index.canvas_height s = (Index.CELL_SIZE + 1) * universe_height w1 u0 + 1 /\
  (exists later : list Index.call,
     Index.log s = [Index.CNew; Index.CWidth u0; Index.CHeight u0] ++ later /\
     Forall (later_call (universe_width w1 u0) (universe_height w1 u0)) later) /\
  forall r : R,
    let s' := snd (Index.reset_click r s) in
    Index.width s' = universe_width w1 u0 /\
    Index.height s' = universe_height w1 u0 /\
    Index.universe s' = snd (Universe_random_universe r (Index.wasm s)) /\
    (fst (Index.reset_click r s) = Index.Returned tt ->
     In (Index.CView (universe_cells (Index.wasm s') (Index.universe s'))
                     (universe_width w1 u0 * universe_height w1 u0))
        (Index.log s')).
Proof.
  intros w1 u0 s.
  assert (Hs : steady (booted w0 page) s).
  { eapply steady_trans; [apply start_steady | apply run_steady]. }
  destruct Hs as (Hw & Hh & Hcw & Hch & later & Hlog & Hlater).
  cbn [booted Index.width Index.height Index.canvas_width Index.canvas_height Index.log]
    in Hw, Hh, Hcw, Hch, Hlog, Hlater.
  fold w1 u0 in Hw, Hh, Hcw, Hch, Hlog, Hlater.
  repeat (split; [assumption|]).
  split; [exists later; split; assumption|].
  intros r s'. subst s'. rewrite reset_click_cases.
  destruct (view_in_memory (replaced r s)) eqn:Hv; cbn [fst snd].
  - destruct (redrawn_same_vars (replaced r s)) as (Hwasm & Hu & Hw' & Hh' & _).
    rewrite Hw', Hh', Hu, Hwasm.
    repeat (split; [assumption || reflexivity|]).
    intros _. rewrite redrawn_log. apply in_or_app. right.
    unfold redraw_calls, cells_ptr. cbn [replaced Index.width Index.height Index.universe
      Index.wasm Index.set_universe Index.set_wasm Index.set_log].
    rewrite Hw, Hh. right. right. left. reflexivity.
  - repeat (split; [assumption || reflexivity|]).
    intros Habs. discriminate Habs.
Qed.

(** *** Every rendering comes after the mutations *)

Lemma view_in_memory_ext (s s' : @Index.World W) :
  Index.wasm s' = Index.wasm s -> Index.universe s' = Index.universe s ->
  Index.width s' = Index.width s -> Index.height s' = Index.height s ->
  view_in_memory s' = view_in_memory s.
Proof.
  intros Hwasm Hu Hw Hh. unfold view_in_memory, cells_ptr.
  rewrite Hwasm, Hu, Hw, Hh. reflexivity.
Qed.

Lemma ticked_wasm (k : nat) (s : @Index.World W) :
  Index.wasm (ticked k s) = Nat.iter k (universe_tick (Index.universe s)) (Index.wasm s).
Proof. reflexivity. Qed.

Lemma ticked_fields (k : nat) (s : @Index.World W) :
  Index.universe (ticked k s) = Index.universe s /\
  Index.next_id (ticked k s) = Index.next_id s /\
  Index.animationId (ticked k s) = Index.animationId s /\
  Index.playPauseButton (ticked k s) = Index.playPauseButton s.
Proof. repeat split. Qed.

Lemma frame_requested_fields (s : @Index.World W) :
  Index.wasm (frame_requested s) = Index.wasm s /\
  Index.universe (frame_requested s) = Index.universe s /\
  Index.playPauseButton (frame_requested s) = Index.playPauseButton s.
Proof. repeat split. Qed.

(** The state [renderLoop] returns in when its loop made [k] ticks. *)
Lemma frame_shape (k : nat) (s : @Index.World W) :
  let s' := frame_requested (redrawn (ticked k s)) in
  Index.wasm s' = Nat.iter k (universe_tick (Index.universe s)) (Index.wasm s) /\
  Index.universe s' = Index.universe s /\
  Index.log s' =
    Index.log s ++ repeat (Index.CTick (Index.universe s)) k
    ++ redraw_calls s' ++ [Index.CRequestFrame (Index.next_id s)] /\
  Index.animationId s' = Some (Index.next_id s) /\
  Index.pending s' = Index.pending s ++ [Index.next_id s] /\
  Index.playPauseButton s' = Index.playPauseButton s.
Proof.
  cbv zeta.
  destruct (redrawn_same_vars (ticked k s))
    as (Hwasm & Hu & _ & _ & _ & _ & _ & Hbtn & _ & _ & _ & Hpend & Hid).
  destruct (frame_requested_fields (redrawn (ticked k s))) as (-> & -> & ->).
  destruct (ticked_fields k s) as (Hu' & Hid' & _ & Hbtn').
  rewrite Hwasm, Hu, Hbtn, ticked_wasm, Hu', Hbtn'.
  rewrite frame_requested_log, frame_requested_animationId, frame_requested_pending.
  rewrite redraw_calls_frame_requested, redraw_calls_redrawn, redrawn_log.
  rewrite Hid, Hid', Hpend, ticked_pending, ticked_log, <- !app_assoc.
  repeat split.
Qed.

Lemma rendered_inv (s0 : @Index.World W) (r : Index.outcome unit * @Index.World W) :
  rendered s0 r ->
  exists k : nat,
    r = (Index.Diverged, ticked k s0) \/
    r = (Index.Thrown, cells_read (grid_drawn (ticked k s0))) \/
    r = (Index.Returned tt, frame_requested (redrawn (ticked k s0))).
Proof.
  intros Hr. inversion Hr as [k | k Hv | k Hv]; exists k; auto.
Qed.

Lemma redraw_request_no_mutation (s : @Index.World W) (id : Z) :
  no_mutation (redraw_calls s ++ [Index.CRequestFrame id]) = true.
Proof.
  unfold no_mutation. rewrite forallb_app. apply andb_true_iff.
  split; [apply draws_no_mutation, redraw_calls_draw | reflexivity].
Qed.

Lemma redrawn_drawn_after (s s1 : @Index.World W) (pre : list Index.call) :
  Index.log s1 = Index.log s ++ pre -> no_draw pre = true ->
  drawn_after pre [] (Index.wasm s1) (Index.universe s1) s (redrawn s1).
Proof.
  intros Hlog Hpre.
  destruct (redrawn_same_vars s1) as (Hwasm & Hu & _).
  split; [exact Hwasm|]. split; [exact Hu|].
  split; [|split; [exact Hpre | reflexivity]].
  rewrite redrawn_log, redraw_calls_redrawn, Hlog, app_nil_r, <- app_assoc. reflexivity.
Qed.

Lemma rendered_drawn (s0 s : @Index.World W) (r : Index.outcome unit * @Index.World W) :
  Index.log s0 = Index.log s -> Index.wasm s0 = Index.wasm s ->
  Index.universe s0 = Index.universe s -> Index.next_id s0 = Index.next_id s ->
  rendered s0 r -> fst r = Index.Returned tt ->
  exists k : nat,
    drawn_after (repeat (Index.CTick (Index.universe s)) k)
                [Index.CRequestFrame (Index.next_id s)]
                (Nat.iter k (universe_tick (Index.universe s)) (Index.wasm s))
                (Index.universe s) s (snd r).
Proof.
  intros Hlog Hwasm Hu Hid Hr Hret.
  inversion Hr as [k | k Hv | k Hv]; subst; cbn [fst snd] in *; try discriminate.
  exists k. destruct (frame_shape k s0) as (Hw' & Hu' & Hlog' & _).
  unfold drawn_after. rewrite Hw', Hu', Hlog', Hlog, Hwasm, Hu, Hid.
  split; [reflexivity|]. split; [reflexivity|]. split; [reflexivity|].
  split; [apply ticks_no_draw | reflexivity].
Qed.

(** C5: every code path that changes the universe completes its changes
    and then redraws.  In the calls a handler adds to the log, however
    it ends, no mutating call comes after a draw call.  A handler that
    returns has, for a reset, made the new universe and then one whole
    redraw of it; for a kill-all, paused, killed the universe and then
    redrawn it; for a click on the canvas, toggled the cell and then
    redrawn; for a delivered frame, and for a click on play/pause while
    paused, made a batch of ticks and then one redraw, followed by the
    request for the next frame.  Each of these redraws reads the state
    the handler ends in.  The other paths (a pausing click, an input
    on the range control, a frame that was cancelled) leave the universe
    alone and draw nothing.  Start-up draws twice: its first draw calls
    come right after the universe is created and measured, then comes a
    batch of ticks, and nothing after the batch changes a universe;
    when start-up returns, the first drawing is one whole redraw of the
    universe as created and the second one whole redraw of the state
    the ticks left. *)
Theorem redraw_after_mutations (fuel : nat) (e : Index.ui_event) (s : @Index.World W)
    (w0 : W) (page : Index.Page) :
  let r := Index.dispatch S2N fuel e s in
  let s' := snd r in
  let u := Index.universe s in
  let batch :=
    exists k : nat,
      drawn_after (repeat (Index.CTick u) k) [Index.CRequestFrame (Index.next_id s)]
                  (Nat.iter k (universe_tick u) (Index.wasm s)) u s s' in
  let r0 := Index.start S2N fuel w0 page in
  let u0 := snd (Universe_new w0) in
  (ordered s s' /\
   (fst r = Index.Returned tt ->
    match e with
    | Index.TicksInput _ => untouched s s'
    | Index.PlayPauseClick =>
        match Index.animationId s with
        | Some _ => untouched s s'
        | None => batch
        end
    | Index.AnimationFrame id =>
        if existsb (Z.eqb id) (Index.pending s) then batch else s' = s
    | Index.ResetClick x =>
        drawn_after [Index.CRandomUniverse] []
                    (fst (Universe_random_universe x (Index.wasm s)))
                    (snd (Universe_random_universe x (Index.wasm s))) s s'
    | Index.KillClick =>
        drawn_after [Index.CCancelFrame (Index.animationId s); Index.CKill u] []
                    (universe_kill_universe u (Index.wasm s)) u s s'
    | Index.CanvasClick b ev =>
        exists w' : W,
          universe_toggle_cell u (click_row s b ev) (click_col s b ev) (Index.wasm s)
          = Some w' /\
          drawn_after [Index.CToggle u (click_row s b ev) (click_col s b ev)] []
                      w' u s s'
    end)) /\
  (exists (first : list Index.call) (k : nat) (last : list Index.call),
     Index.log (snd r0)
     = [Index.CNew; Index.CWidth u0; Index.CHeight u0]
       ++ first ++ repeat (Index.CTick u0) k ++ last /\
     forallb is_draw first = true /\ no_mutation last = true /\
     (fst r0 = Index.Returned tt ->
      first = redraw_calls (booted w0 page) /\
      last = redraw_calls (snd r0) ++ [Index.CRequestFrame 1] /\
      Index.wasm (snd r0) = Nat.iter k (universe_tick u0) (fst (Universe_new w0)) /\
      Index.universe (snd r0) = u0)).
Proof.
  cbv zeta. split.
  - pose proof (dispatch_cases fuel e s) as Hh.
    destruct (Index.dispatch S2N fuel e s) as [o s'].
    inversion Hh; subst; cbn [fst snd].
    + assert (Hu : untouched s (paused s)).
      { repeat split. eexists. split; [cbn; reflexivity | reflexivity]. }
      match goal with Hid : Index.animationId s = Some _ |- _ => rewrite Hid end.
      split; [apply untouched_ordered; exact Hu | intros _; exact Hu].
    + match goal with Hid : Index.animationId s = None |- _ => rewrite Hid end.
      match goal with Hr : rendered ?s0 ?r0 |- _ =>
        destruct (rendered_ordered s0 s r0 eq_refl Hr) as [Ho _];
        pose proof (rendered_drawn s0 s r0 eq_refl eq_refl eq_refl eq_refl Hr) as Hd
      end.
      split; [exact Ho | exact Hd].
    + assert (Hu : untouched s (ticks_updated (Index.set_ticksFrameInputRange v s))).
      { repeat split. exists []. split; [cbn; rewrite app_nil_r; reflexivity | reflexivity]. }
      split; [apply untouched_ordered; exact Hu | intros _; exact Hu].
    + assert (Hs : settled s (redrawn (replaced r s)))
        by (apply (redrawn_settled s (replaced r s) [Index.CRandomUniverse]); reflexivity).
      split; [apply settled_ordered; exact Hs | intros _].
      apply (redrawn_drawn_after s (replaced r s) [Index.CRandomUniverse]); reflexivity.
    + split; [|discriminate].
      apply (redraw_thrown_ordered s (replaced r s) [Index.CRandomUniverse]); reflexivity.
    + assert (Hs : settled s (redrawn (killed (paused s)))).
      { apply (redrawn_settled s (killed (paused s))
                 [Index.CCancelFrame (Index.animationId s); Index.CKill (Index.universe s)]);
          [apply killed_paused_log | reflexivity]. }
      split; [apply settled_ordered; exact Hs | intros _].
      apply (redrawn_drawn_after s (killed (paused s))
               [Index.CCancelFrame (Index.animationId s); Index.CKill (Index.universe s)]);
        [apply killed_paused_log | reflexivity].
    + split; [|discriminate].
      apply (redraw_thrown_ordered s (killed (paused s))
               [Index.CCancelFrame (Index.animationId s); Index.CKill (Index.universe s)]);
        [apply killed_paused_log | reflexivity].
    + match goal with |- context [toggled ?row ?col ?w' s] =>
        assert (Hs : settled s (redrawn (toggled row col w' s)))
          by (apply (redrawn_settled s _ [Index.CToggle (Index.universe s) row col]);
              reflexivity);
        split; [apply settled_ordered; exact Hs | intros _];
        exists w'; split; [assumption|];
        apply (redrawn_drawn_after s (toggled row col w' s)
                 [Index.CToggle (Index.universe s) row col]); reflexivity
      end.
    + split; [|discriminate].
      match goal with |- context [toggled ?row ?col ?w' s] =>
        apply (redraw_thrown_ordered s _ [Index.CToggle (Index.universe s) row col]);
          reflexivity
      end.
    + split; [|discriminate].
      match goal with |- context [toggle_called ?row ?col s] =>
        exists [Index.CToggle (Index.universe s) row col], []
      end.
      split; [reflexivity | split; reflexivity].
    + match goal with Hp : existsb _ _ = true |- _ => rewrite Hp end.
      match goal with Hr : rendered ?s0 ?r0 |- _ =>
        destruct (rendered_ordered s0 s r0 eq_refl Hr) as [Ho _];
        pose proof (rendered_drawn s0 s r0 eq_refl eq_refl eq_refl eq_refl Hr) as Hd
      end.
      split; [exact Ho | exact Hd].
    + match goal with Hp : existsb _ _ = false |- _ => rewrite Hp end.
      match goal with |- ordered ?a _ /\ _ => assert (Hu : untouched a a) end.
      { repeat split. exists []. split; [rewrite app_nil_r; reflexivity | reflexivity]. }
      split; [apply untouched_ordered; exact Hu | intros _; reflexivity].
  - rewrite start_unfold.
    set (B := booted w0 page). set (T := ticks_updated B).
    set (u0 := snd (Universe_new w0)).
    assert (HcT : redraw_calls T = redraw_calls B)
      by (apply redraw_calls_ext; reflexivity).
    assert (HlogT : Index.log T = [Index.CNew; Index.CWidth u0; Index.CHeight u0])
      by reflexivity.
    destruct (view_in_memory T).
    + destruct (rendered_inv _ _ (play_cases fuel (redrawn T))) as (k & Hk).
      set (s0 := Index.set_playPauseButton "⏸" (redrawn T)) in *.
      destruct (redrawn_same_vars T)
        as (Hwasm & Hu & _ & _ & _ & _ & _ & _ & _ & _ & _ & _ & Hid).
      assert (Hwasm0 : Index.wasm s0 = fst (Universe_new w0))
        by (unfold s0; cbn [Index.wasm Index.set_playPauseButton]; rewrite Hwasm;
            reflexivity).
      assert (Hu0 : Index.universe s0 = u0)
        by (unfold s0; cbn [Index.universe Index.set_playPauseButton]; rewrite Hu;
            reflexivity).
      assert (Hid0 : Index.next_id s0 = 1)
        by (unfold s0; cbn [Index.next_id Index.set_playPauseButton]; rewrite Hid;
            reflexivity).
      assert (Hlog0 : Index.log s0
                      = [Index.CNew; Index.CWidth u0; Index.CHeight u0] ++ redraw_calls B).
      { unfold s0. cbn [Index.log Index.set_playPauseButton].
        rewrite redrawn_log, HcT, HlogT. reflexivity. }
      destruct Hk as [-> | [-> | ->]]; cbn [fst snd].
      * exists (redraw_calls B), k, [].
        split; [rewrite ticked_log, Hlog0, Hu0, app_nil_r, <- app_assoc; reflexivity|].
        split; [apply redraw_calls_draw|]. split; [reflexivity | discriminate].
      * eexists (redraw_calls B), k, _.
        split; [rewrite redraw_thrown_log, ticked_log, Hlog0, Hu0, <- !app_assoc;
                reflexivity|].
        split; [apply redraw_calls_draw|]. split; [reflexivity | discriminate].
      * destruct (frame_shape k s0) as (Hw' & Hu' & Hlog' & _).
        eexists (redraw_calls B), k, _.
        split; [rewrite Hlog', Hlog0, Hu0, Hid0, <- !app_assoc; reflexivity|].
        split; [apply redraw_calls_draw|].
        split; [apply redraw_request_no_mutation|].
        intros _. split; [reflexivity|]. split; [reflexivity|].
        split; [rewrite Hw', Hwasm0, Hu0; reflexivity | rewrite Hu'; exact Hu0].
    + cbn [fst snd]. eexists _, 0%nat, [].
      split; [rewrite redraw_thrown_log, HlogT; cbn [repeat app]; rewrite app_nil_r;
              reflexivity|].
      split; [reflexivity|]. split; [reflexivity | discriminate].
Qed.

(** *** Invariants of the running page *)

Lemma run_invariant (P : (@Index.World W) -> Prop) (fuel : nat) :
  (forall (e : Index.ui_event) (s : @Index.World W) (r : Index.outcome unit * @Index.World W),
      P s -> handled s e r -> P (snd r)) ->
  forall (es : list Index.ui_event) (s : @Index.World W), P s -> P (Index.run S2N fuel es s).
Proof.
  intros Hstep. induction es as [|e es IH]; intros s Hs; [exact Hs|].
  cbn [Index.run].
  pose proof (Hstep e s _ Hs (dispatch_cases fuel e s)) as Hd.
  destruct (Index.dispatch S2N fuel e s) as [[a| |] s1]; cbn [snd] in Hd.
  - apply IH. exact Hd.
  - apply IH. exact Hd.
  - exact Hd.
Qed.

Lemma start_frames_inv (fuel : nat) (w0 : W) (page : Index.Page) :
  frames_inv (snd (Index.start S2N fuel w0 page)).
Proof.
  rewrite start_unfold. destruct (view_in_memory _).
  - eapply rendered_frames_inv; [|apply play_cases].
    destruct (redrawn_same_vars (ticks_updated (booted w0 page)))
      as (_ & _ & _ & _ & _ & _ & _ & _ & _ & _ & _ & Hp & _).
    rewrite set_playPauseButton_pending, Hp. reflexivity.
  - cbn [snd]. intros id Hin. rewrite redraw_thrown_pending in Hin. destruct Hin.
Qed.

Lemma reachable_frames_inv (fuel : nat) (w0 : W) (page : Index.Page)
    (es : list Index.ui_event) :
  frames_inv (Index.run S2N fuel es (snd (Index.start S2N fuel w0 page))).
Proof.
  apply run_invariant; [|apply start_frames_inv].
  intros e s r Hs Hh. eapply handled_frames_inv; eassumption.
Qed.

Lemma rendered_ticks_inv (s : @Index.World W) (r : Index.outcome unit * @Index.World W) :
  ticks_inv s -> rendered s r -> ticks_inv (snd r).
Proof.
  unfold ticks_inv. intros Hs Hr.
  inversion Hr as [k | k Hv | k Hv]; subst; cbn [snd].
  - exact Hs.
  - exact Hs.
  - destruct (redrawn_same_vars (ticked k s))
      as (_ & _ & _ & _ & _ & _ & _ & _ & Hsl & _ & Ht & _).
    destruct (frame_requested_ticks (redrawn (ticked k s))) as [-> ->].
    rewrite Ht, Hsl. exact Hs.
Qed.

Lemma handled_ticks_inv (e : Index.ui_event) (s : @Index.World W)
    (r : Index.outcome unit * @Index.World W) :
  ticks_inv s -> handled s e r -> ticks_inv (snd r).
Proof.
  unfold ticks_inv. intros Hs Hh. inversion Hh; subst; cbn [snd];
    try exact Hs; try reflexivity;
    try (eapply rendered_ticks_inv; [|eassumption]; exact Hs);
    match goal with |- context [redrawn ?x] =>
      destruct (redrawn_same_vars x)
        as (_ & _ & _ & _ & _ & _ & _ & _ & Hsl & _ & Ht & _);
      rewrite Ht, Hsl; exact Hs
    end.
Qed.

(** In every state the page reaches, [ticksPerFrame] holds the value of
    the range control: the number it is initialised with is replaced at
    start-up, before the first frame. *)
Lemma reachable_ticks_inv (fuel : nat) (w0 : W) (page : Index.Page)
    (es : list Index.ui_event) :
  ticks_inv (Index.run S2N fuel es (snd (Index.start S2N fuel w0 page))).
Proof.
  apply run_invariant.
  - intros e s r Hs Hh. eapply handled_ticks_inv; eassumption.
  - rewrite start_unfold. destruct (view_in_memory _).
    + eapply rendered_ticks_inv; [|apply play_cases].
      destruct (redrawn_same_vars (ticks_updated (booted w0 page)))
        as (_ & _ & _ & _ & _ & _ & _ & _ & Hsl & _ & Ht & _).
      unfold ticks_inv.
      destruct (set_playPauseButton_ticks "⏸"
                  (redrawn (ticks_updated (booted w0 page)))) as [-> ->].
      rewrite Ht, Hsl. reflexivity.
    + destruct (redraw_thrown_same_vars (ticks_updated (booted w0 page)))
        as (_ & _ & _ & _ & _ & _ & _ & _ & Hsl & _ & Ht & _).
      unfold ticks_inv. cbn [snd]. rewrite Ht, Hsl. reflexivity.
Qed.

End DriverFacts.

(** ** The claims on the demo page *)

Lemma drawCells_wire_format_witness :
  exists (s' : Index.World) (rects : list Index.call),
    @Index.drawCells _ _ demo_engine demo = (Index.Returned tt, s') /\
    length rects = 4%nat /\
    rects !! 3%nat = Some (Index.CFillRect 7 7 5 5 Index.DEAD_COLOR).
Proof.
  destruct (@drawCells_wire_format _ _ demo_engine demo)
    as (s' & rects & Hrun & _ & _ & _ & Hlen & Hcell).
  - vm_compute. discriminate.
  - vm_compute. discriminate.
  - vm_compute. reflexivity.
  - exists s', rects. split; [exact Hrun|]. split; [exact Hlen|].
    destruct (Hcell 1 1) as (b & Hb & _ & Hrect).
    + vm_compute. split; [discriminate | reflexivity].
    + vm_compute. split; [discriminate | reflexivity].
    + vm_compute in Hb. injection Hb as <-. exact Hrect.
Defined.

Lemma renderLoop_tick_batch_witness :
  exists s' : Index.World,
    @Index.renderLoop _ _ demo_engine GridEngine.StringToNumber 5 demo
    = (Index.Returned tt, s') /\
    Index.animationId s' = Some 2.
Proof.
  destruct (@renderLoop_tick_batch _ _ demo_engine GridEngine.StringToNumber
              5 demo (inject_Z 3) 3)
    as (s' & Hrun & _ & _ & _ & _ & Hid).
  - reflexivity.
  - reflexivity.
  - vm_compute. split; discriminate.
  - vm_compute. lia.
  - vm_compute. reflexivity.
  - exists s'. split; [exact Hrun | exact Hid].
Defined.

Lemma reset_and_kill_redraw_witness :
  (exists s' : Index.World,
     @Index.reset_click _ _ demo_engine demo_bits demo = (Index.Returned tt, s') /\
     Index.universe s' = 1) /\
  (exists s' : Index.World,
     @Index.kill_click _ _ demo_engine demo = (Index.Returned tt, s') /\
     Index.universe s' = 0).
Proof.
  destruct (@reset_and_kill_redraw _ _ demo_engine demo_bits demo)
    as (_ & Hreset & _ & Hkill).
  split.
  - destruct Hreset as (s' & Hrun & _ & Hu & _); [vm_compute; reflexivity|].
    exists s'. split; [exact Hrun | exact Hu].
  - destruct Hkill as (s' & Hrun & _ & Hu & _); [vm_compute; reflexivity|].
    exists s'. split; [exact Hrun | exact Hu].
Defined.

(** C4, as stated, fails on the demo page: the reset handler makes no
    call on the universe the variable held, which stays in the wasm
    memory as it was, and the variable holds another object afterwards. *)
Lemma reset_replaces_the_universe :
  let s' := snd (@Index.reset_click _ _ demo_engine demo_bits demo) in
  let added := drop (length (Index.log demo)) (Index.log s') in
  Index.universe demo = 0 /\
  Index.universe s' = 1 /\
  GridEngine.grid_at (Index.wasm s') 0 = GridEngine.grid_at (Index.wasm demo) 0 /\
  ~ (exists c : Index.call, In c added /\ receiver c = Some (Index.universe demo)).
Proof.
  vm_compute. repeat split.
  intros (c & Hin & Hrecv).
  repeat (destruct Hin as [<- | Hin]; [discriminate Hrecv|]).
  destruct Hin.
Qed.

Lemma redraw_after_mutations_witness :
  @drawn_after _ _ demo_engine [Index.CRandomUniverse] []
    (fst (@Universe_random_universe _ _ demo_engine demo_bits (Index.wasm demo)))
    (snd (@Universe_random_universe _ _ demo_engine demo_bits (Index.wasm demo)))
    demo
    (snd (@Index.dispatch _ _ demo_engine GridEngine.StringToNumber 5
            (Index.ResetClick demo_bits) demo)).
Proof.
  destruct (@redraw_after_mutations _ _ demo_engine GridEngine.StringToNumber 5
              (Index.ResetClick demo_bits) demo [] demo_page) as [[_ Hret] _].
  apply Hret. vm_compute. reflexivity.
Defined.

Lemma click_toggles_clamped_cell_witness :
  exists s' : Index.World,
    @Index.canvas_click _ _ demo_engine demo_rect demo_inside demo
    = (Index.Returned tt, s') /\
    In (Index.CToggle 0 (JS.of_Z 0) (JS.of_Z 0)) (Index.log s').
Proof.
  destruct (@click_toggles_clamped_cell _ _ demo_engine demo_rect demo_inside demo
              [Grid.mkGrid 2 2 [Grid.Alive; Grid.Dead; Grid.Dead; Grid.Dead]])
    as (_ & _ & _ & Hreturns).
  destruct Hreturns as (s' & Hrun & _ & _ & Hlog & _).
  - vm_compute. reflexivity.
  - vm_compute. reflexivity.
  - exists s'. split; [exact Hrun|]. rewrite Hlog.
    apply in_or_app. right. left. reflexivity.
Defined.

(** C6, as stated, fails on the demo page: for a click on the last pixel
    of the canvas, scaling and dividing by the cell pitch gives row 2
    and column 2, and the handler toggles the cell in row 1, column 1. *)
Lemma border_click_is_clamped :
  let top := canvasTop demo demo_rect demo_border in
  let left := canvasLeft demo demo_rect demo_border in
  let pitch := JS.of_Z (Index.CELL_SIZE + 1) in
  let s' := snd (@Index.canvas_click _ _ demo_engine demo_rect demo_border demo) in
  let added := drop (length (Index.log demo)) (Index.log s') in
  JS.floor (JS.div top pitch) = JS.of_Z 2 /\
  JS.floor (JS.div left pitch) = JS.of_Z 2 /\
  In (Index.CToggle 0 (JS.of_Z 1) (JS.of_Z 1)) added /\
  ~ In (Index.CToggle 0 (JS.of_Z 2) (JS.of_Z 2)) added.
Proof.
  vm_compute. repeat split.
  - left. reflexivity.
  - intros Hin. repeat (destruct Hin as [Hin | Hin]; [discriminate Hin|]).
    destruct Hin.
Qed.

(** The arithmetic of the handler is that of doubles.  With the demo
    canvas, 13 pixels wide, shown 637 pixels wide, the click at offset
    294 lies exactly on the first pixel of the second column,
    294 * 13 / 637 = 6; the handler computes 294 * (13 / 637), which
    rounds to a double just below 6, and toggles the first column. *)
Example scaled_click_rounds_down :
  let b := Index.mkRect 0 0 (637 # 1) (637 # 1) in
  let e := Index.mkMouse (294 # 1) (294 # 1) in
  ((294 # 1) * (13 # 1) / (637 # 1) == 6 # 1)%Q /\
  JS.ltb (canvasLeft demo b e) (JS.of_Z 6) = true /\
  click_col demo b e = JS.of_Z 0 /\
  click_row demo b e = JS.of_Z 0.
Proof. vm_compute. repeat split. Qed.

Lemma click_in_bounds_witness :
  exists (row col : Z) (rest : list Index.call),
    0 <= row <= 1 /\ 0 <= col <= 1 /\
    Index.log (snd (@Index.canvas_click _ _ demo_engine demo_rect demo_border demo))
    = Index.log demo ++ Index.CToggle 0 (JS.of_Z row) (JS.of_Z col) :: rest.
Proof.
  destruct (@click_in_bounds _ _ demo_engine demo_rect demo_border demo)
    as (row & col & rest & Hrow & Hcol & Hlog).
  - vm_compute. reflexivity.
  - vm_compute. reflexivity.
  - vm_compute. reflexivity.
  - vm_compute. reflexivity.
  - exists row, col, rest. split; [exact Hrow|]. split; [exact Hcol | exact Hlog].
Defined.

Lemma frames_inv_check {W : Type} (s : @Index.World W) :
  forallb (fun id => match Index.animationId s with
                     | Some j => id =? j
                     | None => false
                     end) (Index.pending s) = true ->
  frames_inv s.
Proof.
  intros Hall id Hin. rewrite forallb_forall in Hall. specialize (Hall id Hin).
  destruct (Index.animationId s) as [j|]; [|discriminate].
  apply Z.eqb_eq in Hall. congruence.
Qed.

Lemma demo_frames_inv : @frames_inv (list Grid.Grid) demo.
Proof. apply frames_inv_check. vm_compute. reflexivity. Qed.

Lemma kill_pauses_first_witness :
  Index.pending (snd (@Index.kill_click _ _ demo_engine demo)) = [] /\
  Index.animationId (snd (@Index.kill_click _ _ demo_engine demo)) = None /\
  Index.animationId (snd (@Index.reset_click _ _ demo_engine demo_bits demo)) = Some 1.
Proof.
  destruct (@kill_pauses_first _ _ demo_engine demo)
    as (_ & Hid & _ & _ & _ & Hpend & Hreset).
  split; [|split; [exact Hid|]].
  - apply Hpend. exact demo_frames_inv.
  - destruct (Hreset demo_bits) as (Hid' & _). rewrite Hid'. vm_compute. reflexivity.
Defined.

Lemma dimensions_captured_once_witness :
  let s := @Index.run _ _ demo_engine GridEngine.StringToNumber 8 []
             (snd (@Index.start _ _ demo_engine GridEngine.StringToNumber 8 [] demo_page)) in
  let s' := snd (@Index.reset_click _ _ demo_engine demo_bits s) in
  let w1 := fst (@Universe_new _ _ demo_engine []) in
  let u0 := snd (@Universe_new _ _ demo_engine []) in
  Index.width s' = @universe_width _ _ demo_engine w1 u0 /\
  Index.height s' = @universe_height _ _ demo_engine w1 u0 /\
  In (Index.CView (@universe_cells _ _ demo_engine (Index.wasm s') (Index.universe s'))
                  (@universe_width _ _ demo_engine w1 u0
                   * @universe_height _ _ demo_engine w1 u0))
     (Index.log s').
Proof.
  intros s s' w1 u0.
  destruct (@dimensions_captured_once _ _ demo_engine GridEngine.StringToNumber
              8 [] demo_page [])
    as (_ & _ & _ & _ & _ & Hreset).
  destruct (Hreset demo_bits) as (Hw & Hh & _ & Hview).
  split; [exact Hw|]. split; [exact Hh|].
  apply Hview. vm_compute. reflexivity.
Defined.

(** On the demo page a reset installs a 3 x 3 universe, while the
    constants stay 2 and the view keeps its 4 bytes. *)
Example reset_keeps_captured_dimensions :
  let s := snd (@Index.reset_click _ _ demo_engine demo_bits demo) in
  Index.width s = 2 /\ Index.height s = 2 /\
  @universe_width _ _ demo_engine (Index.wasm s) (Index.universe s) = 3 /\
  @universe_height _ _ demo_engine (Index.wasm s) (Index.universe s) = 3 /\
  existsb (fun c => match c with Index.CView 4 4 => true | _ => false end)
          (Index.log s) = true.
Proof. vm_compute. repeat split. Qed.


(** * More of the driver *)

(** ** Lists of pairs of path operations *)

Lemma iota_length (n : nat) (i : Z) : length (iota n i) = n.
Proof. rewrite iota_seq, length_map, length_seq. reflexivity. Qed.

Lemma iota_lookup (n k : nat) (i : Z) :
  (k < n)%nat -> iota n i !! k = Some (i + Z.of_nat k).
Proof.
  intros Hk. rewrite iota_seq.
  change (map (fun k0 => i + Z.of_nat k0) (seq 0 n))
    with ((fun k0 => i + Z.of_nat k0) <$> seq 0 n).
  rewrite list_lookup_fmap, lookup_seq_lt by exact Hk. reflexivity.
Qed.

Lemma pairs_length {A} (f g : Z -> A) (l : list Z) :
  length (flat_map (fun i => [f i; g i]) l) = (2 * length l)%nat.
Proof. induction l as [|x l IH]; simpl; [reflexivity | rewrite IH; lia]. Qed.

Lemma pairs_lookup {A} (f g : Z -> A) (l : list Z) (k : nat) (x : Z) :
  l !! k = Some x ->
  flat_map (fun i => [f i; g i]) l !! (2 * k)%nat = Some (f x) /\
  flat_map (fun i => [f i; g i]) l !! (2 * k + 1)%nat = Some (g x).
Proof.
  revert k. induction l as [|y l IH]; intros k Hk; [discriminate|].
  destruct k as [|k].
  - injection Hk as ->. split; reflexivity.
  - simpl in Hk. destruct (IH k Hk) as [Hf Hg].
    replace (2 * S k)%nat with (S (S (2 * k))) by lia.
    replace (S (S (2 * k)) + 1)%nat with (S (S (2 * k + 1))) by lia.
    split; assumption.
Qed.

Lemma tabulate_lookup_flat {A} (h w : nat) (f : nat -> nat -> A) (i : nat) :
  (i < h * w)%nat -> tabulate h w f !! i = Some (f (i / w)%nat (i mod w)%nat).
Proof.
  intros Hi.
  assert (Hw : (w <> 0)%nat) by (intros ->; lia).
  pose proof (Nat.div_mod_eq i w) as Hdm.
  pose proof (Nat.mod_upper_bound i w Hw) as Hm.
  assert (Hd : (i / w < h)%nat) by (apply Nat.Div0.div_lt_upper_bound; lia).
  rewrite Hdm at 1. rewrite (Nat.mul_comm w).
  apply tabulate_lookup; assumption.
Qed.

Lemma Qfloor_unique (q : Q) (z : Z) :
  (inject_Z z <= q)%Q -> (q < inject_Z (z + 1))%Q -> Qfloor q = z.
Proof.
  intros Hle Hlt.
  assert (Hlo : z <= Qfloor q)
    by (rewrite <- (Qfloor_Z z); apply Qfloor_resp_le; exact Hle).
  assert (Hhi : Qfloor q < z + 1).
  { rewrite Zlt_Qlt. eapply Qle_lt_trans; [apply Qfloor_le | exact Hlt]. }
  lia.
Qed.

Section Coverage.

Context {W R : Type} `{Engine W R}.
Variable S2N : string -> JS.num.

(** ** The grid lines *)

Lemma grid_drawn_log (s : @Index.World W) :
  Index.log (grid_drawn s)
  = Index.log s
    ++ [Index.CStroke (grid_path (Index.width s) (Index.height s)) Index.GRID_COLOR].
Proof. reflexivity. Qed.

Lemma grid_drawn_ctx (s : @Index.World W) :
  Index.ctx (grid_drawn s)
  = Index.mkCtx Index.GRID_COLOR (Index.fillStyle (Index.ctx s))
                (grid_path (Index.width s) (Index.height s)).
Proof. reflexivity. Qed.

(** X1: [drawGrid] always returns and changes the canvas only.  It drops
    the path that was current, builds one path of [width + 1] vertical
    and [height + 1] horizontal lines, the i-th vertical line from
    (6i+1, 0) to (6i+1, 6*height+1) and the j-th horizontal line from
    (0, 6j+1) to (6*width+1, 6j+1), and strokes it once in the grid
    colour; the fill style is left alone.  Every point of the path lies
    in the rectangle from (0, 0) to (6*width+1, 6*height+1), the size
    given to the canvas. *)
Theorem drawGrid_lines (s : @Index.World W)
    (Hw : 0 <= Index.width s) (Hh : 0 <= Index.height s) :
  let w := Index.width s in
  let h := Index.height s in
  let pitch := Index.CELL_SIZE + 1 in
  exists (s' : @Index.World W) (p : list Index.PathOp),
    Index.drawGrid s = (Index.Returned tt, s') /\
    same_vars s s' /\
    Index.log s' = Index.log s ++ [Index.CStroke p Index.GRID_COLOR] /\
    Index.ctx s' = Index.mkCtx Index.GRID_COLOR (Index.fillStyle (Index.ctx s)) p /\
    length p = Z.to_nat (2 * (w + 1) + 2 * (h + 1)) /\
    (forall i : Z, 0 <= i <= w ->
       p !! Z.to_nat (2 * i) = Some (Index.MoveTo (i * pitch + 1) 0) /\
       p !! Z.to_nat (2 * i + 1) = Some (Index.LineTo (i * pitch + 1) (pitch * h + 1))) /\
    (forall j : Z, 0 <= j <= h ->
       p !! Z.to_nat (2 * (w + 1) + 2 * j) = Some (Index.MoveTo 0 (j * pitch + 1)) /\
       p !! Z.to_nat (2 * (w + 1) + 2 * j + 1)
       = Some (Index.LineTo (pitch * w + 1) (j * pitch + 1))) /\
    Forall (fun op => 0 <= fst (op_point op) <= pitch * w + 1 /\
                      0 <= snd (op_point op) <= pitch * h + 1) p.
Proof.
  intros w h pitch.
  exists (grid_drawn s), (grid_path w h).
  split; [apply drawGrid_returns|].
  split; [apply grid_drawn_same_vars|].
  split; [apply grid_drawn_log|].
  split; [apply grid_drawn_ctx|].
  unfold grid_path. rewrite !Z.sub_0_r.
  set (V := flat_map _ (iota (Z.to_nat (w + 1)) 0)).
  set (Hz := flat_map _ (iota (Z.to_nat (h + 1)) 0)).
  assert (HlenV : length V = (2 * Z.to_nat (w + 1))%nat)
    by (subst V; rewrite pairs_length, iota_length; reflexivity).
  assert (HlenH : length Hz = (2 * Z.to_nat (h + 1))%nat)
    by (subst Hz; rewrite pairs_length, iota_length; reflexivity).
  split; [rewrite length_app, HlenV, HlenH; lia|].
  split; [|split].
  - intros i Hi.
    destruct (pairs_lookup
                (fun i => Index.MoveTo (i * (Index.CELL_SIZE + 1) + 1) 0)
                (fun i => Index.LineTo (i * (Index.CELL_SIZE + 1) + 1)
                                       ((Index.CELL_SIZE + 1) * h + 1))
                (iota (Z.to_nat (w + 1)) 0) (Z.to_nat i) i) as [Hm Hl].
    { rewrite iota_lookup by lia. f_equal. lia. }
    fold V in Hm, Hl.
    replace (Z.to_nat (2 * i)) with (2 * Z.to_nat i)%nat by lia.
    replace (Z.to_nat (2 * i + 1)) with (2 * Z.to_nat i + 1)%nat by lia.
    rewrite !lookup_app_l by (rewrite HlenV; lia).
    split; assumption.
  - intros j Hj.
    destruct (pairs_lookup
                (fun j => Index.MoveTo 0 (j * (Index.CELL_SIZE + 1) + 1))
                (fun j => Index.LineTo ((Index.CELL_SIZE + 1) * w + 1)
                                       (j * (Index.CELL_SIZE + 1) + 1))
                (iota (Z.to_nat (h + 1)) 0) (Z.to_nat j) j) as [Hm Hl].
    { rewrite iota_lookup by lia. f_equal. lia. }
    fold Hz in Hm, Hl.
    replace (Z.to_nat (2 * (w + 1) + 2 * j))
      with (length V + 2 * Z.to_nat j)%nat by (rewrite HlenV; lia).
    replace (Z.to_nat (2 * (w + 1) + 2 * j + 1))
      with (length V + (2 * Z.to_nat j + 1))%nat by (rewrite HlenV; lia).
    rewrite !lookup_app_r by lia.
    replace (length V + 2 * Z.to_nat j - length V)%nat with (2 * Z.to_nat j)%nat by lia.
    replace (length V + (2 * Z.to_nat j + 1) - length V)%nat
      with (2 * Z.to_nat j + 1)%nat by lia.
    split; assumption.
  - assert (Hiota : forall n x, In x (iota n 0) -> 0 <= x < Z.of_nat n).
    { intros n x Hx. rewrite iota_seq in Hx. apply in_map_iff in Hx.
      destruct Hx as (k & <- & Hk). apply in_seq in Hk. lia. }
    apply Forall_app. split; apply Forall_forall; intros op Hop;
      apply in_flat_map in Hop; destruct Hop as (x & Hx & Hop);
      apply Hiota in Hx;
      destruct Hop as [<- | [<- | []]]; unfold pitch, Index.CELL_SIZE; simpl; lia.
Qed.

(** ** The cell rectangles *)

Lemma rects_lookup (cells : list Z) (w h : Z) (i : nat) (c : Index.call) :
  0 <= w -> 0 <= h ->
  map fill_call (cell_rects cells w h) !! i = Some c ->
  (i < Z.to_nat h * Z.to_nat w)%nat /\
  c = Index.CFillRect (Z.of_nat (i mod Z.to_nat w) * (Index.CELL_SIZE + 1) + 1)
                      (Z.of_nat (i / Z.to_nat w) * (Index.CELL_SIZE + 1) + 1)
                      Index.CELL_SIZE Index.CELL_SIZE
                      (Index.cell_color cells
                         (Z.of_nat (i / Z.to_nat w) * w + Z.of_nat (i mod Z.to_nat w))).
Proof.
  intros Hw Hh Hc.
  assert (Hi : (i < Z.to_nat h * Z.to_nat w)%nat).
  { apply lookup_lt_Some in Hc.
    rewrite length_map, cell_rects_table, tabulate_length in Hc. exact Hc. }
  split; [exact Hi|].
  change (map fill_call (cell_rects cells w h))
    with (fill_call <$> cell_rects cells w h) in Hc.
  rewrite list_lookup_fmap, cell_rects_table, tabulate_lookup_flat in Hc by exact Hi.
  injection Hc as <-. reflexivity.
Qed.

(** X2: the rectangles [drawCells] paints are squares of side
    [CELL_SIZE] that lie inside the canvas, one pixel away from its left
    and top edge at least, and no two of them touch: between the squares
    of two different cells there is a gap of at least one pixel, in
    which the grid lines run. *)
Theorem drawCells_rectangles (s : @Index.World W)
    (Hw : 0 <= Index.width s) (Hh : 0 <= Index.height s)
    (Hview : view_in_memory s = true) :
  let pitch := Index.CELL_SIZE + 1 in
  exists (s' : @Index.World W) (rects : list Index.call),
    Index.drawCells s = (Index.Returned tt, s') /\
    Index.log s' =
      Index.log s
      ++ [Index.CCells (Index.universe s);
          Index.CView (universe_cells (Index.wasm s) (Index.universe s))
                      (Index.width s * Index.height s)]
      ++ rects ++ [Index.CStroke [] (Index.strokeStyle (Index.ctx s))] /\
    Forall (fun c =>
              exists (x y : Z) (style : string),
                c = Index.CFillRect x y Index.CELL_SIZE Index.CELL_SIZE style /\
                1 <= x /\ x + Index.CELL_SIZE <= pitch * Index.width s /\
                1 <= y /\ y + Index.CELL_SIZE <= pitch * Index.height s) rects /\
    forall (i j : nat) (x y x' y' a b a' b' : Z) (st st' : string),
      i <> j ->
      rects !! i = Some (Index.CFillRect x y a b st) ->
      rects !! j = Some (Index.CFillRect x' y' a' b' st') ->
      x + a < x' \/ x' + a' < x \/ y + b < y' \/ y' + b' < y.
Proof.
  intros pitch.
  set (w := Index.width s) in *. set (h := Index.height s) in *.
  exists (cells_drawn s), (map fill_call (cell_rects (cells_view s) w h)).
  split; [apply drawCells_returns; exact Hview|].
  split; [apply cells_drawn_log|].
  split.
  - apply Forall_lookup. intros i c Hc.
    destruct (rects_lookup _ w h i c Hw Hh Hc) as (Hi & ->).
    assert (Hnz : (Z.to_nat w <> 0)%nat) by (intros Hz; rewrite Hz in Hi; lia).
    pose proof (Nat.mod_upper_bound i (Z.to_nat w) Hnz) as Hm.
    assert (Hd : (i / Z.to_nat w < Z.to_nat h)%nat)
      by (apply Nat.Div0.div_lt_upper_bound; lia).
    do 3 eexists. split; [reflexivity|].
    unfold pitch, Index.CELL_SIZE. lia.
  - intros i j x y x' y' a b a' b' st st' Hne Hi Hj.
    destruct (rects_lookup _ w h i _ Hw Hh Hi) as (Hil & Heq).
    destruct (rects_lookup _ w h j _ Hw Hh Hj) as (Hjl & Heq').
    injection Heq as -> -> -> -> _. injection Heq' as -> -> -> -> _.
    pose proof (Nat.div_mod_eq i (Z.to_nat w)) as Hdi.
    pose proof (Nat.div_mod_eq j (Z.to_nat w)) as Hdj.
    revert Hdi Hdj.
    generalize (i mod Z.to_nat w)%nat (i / Z.to_nat w)%nat
               (j mod Z.to_nat w)%nat (j / Z.to_nat w)%nat.
    intros ci ri cj rj Hdi Hdj.
    assert (Hpos : ci <> cj \/ ri <> rj).
    { destruct (Nat.eq_dec ci cj) as [->|]; [|left; assumption].
      destruct (Nat.eq_dec ri rj) as [->|]; [|right; assumption].
      exfalso. apply Hne. congruence. }
    unfold Index.CELL_SIZE. lia.
Qed.

(** ** The index of a cell *)

(** X13: [getIndex] reads nothing but the constant [width] and changes
    nothing.  On a grid of [width] by [height] cells it sends the
    positions with [0 <= row < height] and [0 <= column < width] to
    indices in [[0, width * height)], different positions to different
    indices. *)
Theorem getIndex_row_major (s : @Index.World W) (row col row' col' : Z)
    (Hr : 0 <= row < Index.height s) (Hc : 0 <= col < Index.width s)
    (Hr' : 0 <= row' < Index.height s) (Hc' : 0 <= col' < Index.width s) :
  exists i i' : Z,
    Index.getIndex row col s = (Index.Returned i, s) /\
    Index.getIndex row' col' s = (Index.Returned i', s) /\
    0 <= i < Index.width s * Index.height s /\
    (i = i' -> row = row' /\ col = col').
Proof.
  exists (row * Index.width s + col), (row' * Index.width s + col').
  split; [reflexivity|]. split; [reflexivity|].
  split; [nia|].
  intros Heq. apply (index_injective (Index.width s)); assumption.
Qed.

(** ** Clicks and painted cells *)

Lemma min_of_Z (a b : Z) : a <= b -> JS.min (JS.of_Z a) (JS.of_Z b) = JS.of_Z a.
Proof.
  intros Hab. apply min_le. unfold JS.leb, JS.of_Z.
  apply Qle_bool_iff. rewrite <- Zle_Qle. exact Hab.
Qed.

(** On a canvas shown at its own size the scale is exactly 1, and a
    click and a rectangle at whole pixels have an exact canvas
    coordinate. *)
Lemma unscaled_coordinate (c xz oz : Z) (w x o : Q) :
  0 < c < 2 ^ 53 -> Z.abs xz < 2 ^ 52 -> Z.abs oz < 2 ^ 52 ->
  (w == inject_Z c)%Q -> (x == inject_Z xz)%Q -> (o == inject_Z oz)%Q ->
  JS.mul (JS.sub (JS.of_Q x) (JS.of_Q o)) (JS.div (JS.of_Z c) (JS.of_Q w))
  = JS.of_Z (xz - oz).
Proof.
  intros Hc Hx Ho Hw Hxz Hoz. unfold JS.of_Q.
  rewrite (round_comp _ _ Hw), (round_comp _ _ Hxz), (round_comp _ _ Hoz).
  rewrite !round_Z by lia.
  assert (Hone : JS.div (JS.of_Z c) (JS.of_Z c) = JS.of_Z 1).
  { unfold JS.div, JS.of_Z.
    assert (Hnz : ~ (inject_Z c == 0)%Q).
    { change 0%Q with (inject_Z 0). rewrite inject_Z_injective. lia. }
    destruct (Qeq_bool (inject_Z c) 0) eqn:Hz;
      [apply Qeq_bool_iff in Hz; contradiction|].
    rewrite (round_comp _ (inject_Z 1)); [apply round_Z; lia|].
    apply Qmult_inv_r. exact Hnz. }
  rewrite Hone.
  assert (Hsub : JS.sub (JS.of_Z xz) (JS.of_Z oz) = JS.of_Z (xz - oz)).
  { unfold JS.sub, JS.of_Z.
    rewrite (round_comp _ (inject_Z (xz - oz))); [apply round_Z; lia|].
    unfold Z.sub. rewrite inject_Z_plus, inject_Z_opp. reflexivity. }
  rewrite Hsub. unfold JS.mul, JS.of_Z.
  rewrite (round_comp _ (inject_Z (xz - oz))); [apply round_Z; lia|].
  apply Qmult_1_r.
Qed.

Lemma floor_pitch (n k : Z) :
  0 <= k -> n < 2 ^ 50 ->
  k * (Index.CELL_SIZE + 1) <= n < k * (Index.CELL_SIZE + 1) + (Index.CELL_SIZE + 1) ->
  JS.floor (JS.div (JS.of_Z n) (JS.of_Z (Index.CELL_SIZE + 1))) = JS.of_Z k.
Proof.
  unfold Index.CELL_SIZE. intros Hk Hn Hnk. change (5 + 1) with 6.
  rewrite floor_round_pitch by lia. f_equal.
  symmetry. apply (Z.div_unique n 6 k (n - k * 6)); lia.
Qed.

(** X3: the click handler and [drawCells] agree on where a cell is when
    the canvas is shown at its own size and the click and the corner of
    the bounding rectangle lie at whole pixels.  A click whose offset in
    the rectangle falls in the square of side [CELL_SIZE + 1] that
    starts at (6*column, 6*row), which holds the rectangle [drawCells]
    paints for the cell at ([row], [column]) together with the grid
    lines to its left and above it, makes the handler call
    [toggle_cell(row, column)]: no step of the double arithmetic rounds.
    The grid has at most 2^32 rows and columns, the dimensions being
    32-bit numbers. *)
Theorem click_hits_painted_cell (b : Index.DOMRect) (e : Index.MouseEvent)
    (s : @Index.World W) (row col x y l t : Z)
    (Hr : 0 <= row < Index.height s) (Hc : 0 <= col < Index.width s)
    (Hw : Index.width s <= 2 ^ 32) (Hh : Index.height s <= 2 ^ 32)
    (Hcw : 0 < Index.canvas_width s < 2 ^ 53)
    (Hch : 0 < Index.canvas_height s < 2 ^ 53)
    (Hrw : (Index.rect_width b == inject_Z (Index.canvas_width s))%Q)
    (Hrh : (Index.rect_height b == inject_Z (Index.canvas_height s))%Q)
    (Hx : (Index.clientX e == inject_Z x)%Q) (Hl : (Index.rect_left b == inject_Z l)%Q)
    (Hy : (Index.clientY e == inject_Z y)%Q) (Ht : (Index.rect_top b == inject_Z t)%Q)
    (Hxb : Z.abs x < 2 ^ 52) (Hlb : Z.abs l < 2 ^ 52)
    (Hyb : Z.abs y < 2 ^ 52) (Htb : Z.abs t < 2 ^ 52)
    (Hcol : col * (Index.CELL_SIZE + 1) <= x - l
            < col * (Index.CELL_SIZE + 1) + (Index.CELL_SIZE + 1))
    (Hrow : row * (Index.CELL_SIZE + 1) <= y - t
            < row * (Index.CELL_SIZE + 1) + (Index.CELL_SIZE + 1)) :
  exists rest : list Index.call,
    Index.log (snd (Index.canvas_click b e s))
    = Index.log s ++ Index.CToggle (Index.universe s) (JS.of_Z row) (JS.of_Z col) :: rest.
Proof.
  assert (Hpow : 2 ^ 32 * 8 < 2 ^ 50) by reflexivity.
  assert (Hrow' : click_row s b e = JS.of_Z row).
  { unfold click_row, canvasTop.
    rewrite (unscaled_coordinate _ y t) by assumption.
    rewrite (floor_pitch (y - t) row); [apply min_of_Z; lia | lia | | exact Hrow].
    unfold Index.CELL_SIZE in Hrow. lia. }
  assert (Hcol' : click_col s b e = JS.of_Z col).
  { unfold click_col, canvasLeft.
    rewrite (unscaled_coordinate _ x l) by assumption.
    rewrite (floor_pitch (x - l) col); [apply min_of_Z; lia | lia | | exact Hcol].
    unfold Index.CELL_SIZE in Hcol. lia. }
  rewrite canvas_click_cases, Hrow', Hcol'.
  destruct (universe_toggle_cell _ _ _ _) as [w'|].
  - cbv zeta. destruct (view_in_memory _); cbn [snd].
    + eexists. rewrite redrawn_log, toggled_log, <- app_assoc. reflexivity.
    + eexists. rewrite redraw_thrown_log, toggled_log, <- app_assoc. reflexivity.
  - exists []. reflexivity.
Qed.

(** ** The render loop at its edges *)

(** X4: [renderLoop] compares its counter with whatever number
    [ticksPerFrame] reads as.  For a finite value [q] up to 2^53 it
    makes as many ticks as there are whole numbers from 0 below [q]:
    the least whole number not below [q] when [q] is positive (3 ticks
    for 2.5), none when it is not.  Then it redraws once and requests
    the next frame. *)
Theorem renderLoop_ceiling_ticks (fuel : nat) (s : @Index.World W) (q : Q)
    (Hq : Index.ToNumber S2N (Index.ticksPerFrame s) = JS.Fin q)
    (Hmax : Qceiling q <= 2 ^ 53)
    (Hfuel : (Z.to_nat (Qceiling q) <= fuel)%nat)
    (Hview : view_in_memory (ticked (Z.to_nat (Qceiling q)) s) = true) :
  exists s' : @Index.World W,
    Index.renderLoop S2N fuel s = (Index.Returned tt, s') /\
    Index.wasm s' =
      Nat.iter (Z.to_nat (Qceiling q)) (universe_tick (Index.universe s)) (Index.wasm s) /\
    Index.log s' =
      Index.log s ++ repeat (Index.CTick (Index.universe s)) (Z.to_nat (Qceiling q))
      ++ redraw_calls s' ++ [Index.CRequestFrame (Index.next_id s)].
Proof.
  exists (frame_requested (redrawn (ticked (Z.to_nat (Qceiling q)) s))).
  split; [apply renderLoop_returns; assumption|].
  destruct (frame_shape (Z.to_nat (Qceiling q)) s) as (Hwasm & _ & Hlog & _).
  split; assumption.
Qed.

(** X5: when [ticksPerFrame] reads as NaN, as zero or as a negative
    number, so that [0 < ticksPerFrame] is false, [renderLoop] calls
    [tick] not even once, whatever the bound on its iterations; it still
    redraws and requests the next frame, so the page keeps animating a
    universe that stands still. *)
Theorem renderLoop_no_ticks (fuel : nat) (s : @Index.World W)
    (Hlt : JS.ltb (JS.of_Z 0) (Index.ToNumber S2N (Index.ticksPerFrame s)) = false)
    (Hview : view_in_memory s = true) :
  exists s' : @Index.World W,
    Index.renderLoop S2N fuel s = (Index.Returned tt, s') /\
    Index.wasm s' = Index.wasm s /\
    Index.log s' =
      Index.log s ++ redraw_calls s' ++ [Index.CRequestFrame (Index.next_id s)] /\
    Index.animationId s' = Some (Index.next_id s).
Proof.
  exists (frame_requested (redrawn (ticked 0 s))).
  split.
  { unfold Index.renderLoop.
    erewrite bind_returned by (apply tick_loop_none; exact Hlt).
    rewrite redraw_returns by exact Hview.
    rewrite ticked_zero. apply requestAnimationFrame_returns. }
  destruct (frame_shape 0 s) as (Hwasm & _ & Hlog & Hid & _).
  split; [exact Hwasm|]. split; [exact Hlog | exact Hid].
Qed.

Lemma tick_loop_diverges (fuel : nat) (i : Z) (s : @Index.World W) :
  (forall j : Z, 0 <= j <= 2 ^ 53 ->
     JS.ltb (JS.of_Z j) (Index.ToNumber S2N (Index.ticksPerFrame s)) = true) ->
  0 <= i <= 2 ^ 53 ->
  Index.tick_loop S2N fuel i s = (Index.Diverged, ticked fuel s).
Proof.
  intros Hlt. revert i s Hlt. induction fuel as [|fuel IH]; intros i s Hlt Hi.
  - rewrite tick_loop_zero, Hlt, ticked_zero by exact Hi. reflexivity.
  - rewrite tick_loop_succ, Hlt by exact Hi.
    rewrite IH; [rewrite ticked_succ; reflexivity | exact Hlt |].
    unfold JS.incr. destruct (Z.ltb_spec i (2 ^ 53)); lia.
Qed.

(** X6: when [ticksPerFrame] reads as +Infinity, or as a number above
    2^53 (which the counter, a double, never passes), the tick loop
    never ends: however many iterations are allowed, [renderLoop] is
    still in the loop after that many ticks, and has neither redrawn nor
    requested a frame. *)
Theorem renderLoop_never_returns (fuel : nat) (s : @Index.World W)
    (Hbig : Index.ToNumber S2N (Index.ticksPerFrame s) = JS.PosInf \/
            exists q : Q,
              Index.ToNumber S2N (Index.ticksPerFrame s) = JS.Fin q /\
              (inject_Z (2 ^ 53) < q)%Q) :
  Index.renderLoop S2N fuel s = (Index.Diverged, ticked fuel s) /\
  Index.log (ticked fuel s)
  = Index.log s ++ repeat (Index.CTick (Index.universe s)) fuel.
Proof.
  split; [|apply ticked_log].
  unfold Index.renderLoop, Index.bind.
  rewrite (tick_loop_diverges fuel 0 s); [reflexivity | | lia].
  intros j Hj. destruct Hbig as [-> | (q & -> & Hq)]; [reflexivity|].
  unfold JS.ltb, JS.of_Z.
  destruct (Qle_bool q (inject_Z j)) eqn:Hle; [|reflexivity].
  apply Qle_bool_iff in Hle. exfalso.
  apply (Qlt_not_le _ _ Hq). eapply Qle_trans; [exact Hle|].
  rewrite <- Zle_Qle. lia.
Qed.

Lemma renderLoop_throws (fuel : nat) (s : @Index.World W) (q : Q) :
  Index.ToNumber S2N (Index.ticksPerFrame s) = JS.Fin q ->
  Qceiling q <= 2 ^ 53 ->
  (Z.to_nat (Qceiling q) <= fuel)%nat ->
  view_in_memory (ticked (Z.to_nat (Qceiling q)) s) = false ->
  Index.renderLoop S2N fuel s
  = (Index.Thrown, cells_read (grid_drawn (ticked (Z.to_nat (Qceiling q)) s))).
Proof.
  intros Hq Hmax Hfuel Hview. unfold Index.renderLoop.
  erewrite bind_returned
    by (rewrite (tick_loop_returns S2N fuel 0 s q Hq); [reflexivity|lia|lia|];
        rewrite Z.sub_0_r; exact Hfuel).
  rewrite Z.sub_0_r. apply redraw_throws. exact Hview.
Qed.

(** X11: the next frame is requested after the redraw only.  When, once
    the ticks of a frame are done, the view of the cells does not fit
    in the wasm memory, [renderLoop] throws at [new Uint8Array]: the
    grid lines are stroked, no cell is painted, no frame is requested
    and [animationId] keeps its old value, so the animation has stopped
    although the ticks of this frame stay applied. *)
Theorem renderLoop_redraw_throws (fuel : nat) (s : @Index.World W) (q : Q)
    (Hq : Index.ToNumber S2N (Index.ticksPerFrame s) = JS.Fin q)
    (Hmax : Qceiling q <= 2 ^ 53)
    (Hfuel : (Z.to_nat (Qceiling q) <= fuel)%nat)
    (Hview : view_in_memory (ticked (Z.to_nat (Qceiling q)) s) = false) :
  exists s' : @Index.World W,
    Index.renderLoop S2N fuel s = (Index.Thrown, s') /\
    Index.wasm s' =
      Nat.iter (Z.to_nat (Qceiling q)) (universe_tick (Index.universe s)) (Index.wasm s) /\
    Index.pending s' = Index.pending s /\
    Index.animationId s' = Index.animationId s /\
    Index.log s' =
      Index.log s ++ repeat (Index.CTick (Index.universe s)) (Z.to_nat (Qceiling q))
      ++ [Index.CStroke (grid_path (Index.width s) (Index.height s)) Index.GRID_COLOR;
          Index.CCells (Index.universe s);
          Index.CView (universe_cells (Index.wasm s') (Index.universe s))
                      (Index.width s * Index.height s)].
Proof.
  set (k := Z.to_nat (Qceiling q)) in *.
  exists (cells_read (grid_drawn (ticked k s))).
  split; [apply renderLoop_throws; assumption|].
  destruct (redraw_thrown_same_vars (ticked k s))
    as (Hwasm & _ & _ & _ & _ & _ & Hid & _ & _ & _ & _ & Hpend & _).
  rewrite Hwasm, Hid, Hpend, redraw_thrown_log, ticked_log, <- app_assoc.
  repeat split.
Qed.

(** ** The play/pause button *)

Lemma play_unfold (fuel : nat) (s : @Index.World W) :
  Index.play S2N fuel s
  = Index.renderLoop S2N fuel (Index.set_playPauseButton "⏸" s).
Proof. reflexivity. Qed.

(** X14: a click on the play/pause button toggles between the two
    modes.  While a frame id is held it pauses: the request is
    cancelled, [animationId] becomes null, the button shows the play
    glyph and the universe is left alone.  While paused it plays: the
    button shows the pause glyph and [renderLoop] runs at once, within
    the click, so the universe advances by one batch of ticks and is
    redrawn before the first frame is requested; [isPaused()] is false
    afterwards. *)
Theorem playPause_toggles (fuel : nat) (s : @Index.World W) :
  (forall id : Z,
     Index.animationId s = Some id ->
     exists s' : @Index.World W,
       Index.playPause_click S2N fuel s = (Index.Returned tt, s') /\
       Index.animationId s' = None /\
       Index.isPaused s' = (Index.Returned true, s') /\
       Index.playPauseButton s' = "▶"%string /\
       ~ In id (Index.pending s') /\
       Index.wasm s' = Index.wasm s /\
       Index.log s' = Index.log s ++ [Index.CCancelFrame (Some id)]) /\
  (forall q : Q,
     Index.animationId s = None ->
     Index.ToNumber S2N (Index.ticksPerFrame s) = JS.Fin q ->
     Qceiling q <= 2 ^ 53 ->
     (Z.to_nat (Qceiling q) <= fuel)%nat ->
     view_in_memory (ticked (Z.to_nat (Qceiling q)) s) = true ->
     exists s' : @Index.World W,
       Index.playPause_click S2N fuel s = (Index.Returned tt, s') /\
       Index.animationId s' = Some (Index.next_id s) /\
       Index.isPaused s' = (Index.Returned false, s') /\
       Index.playPauseButton s' = "⏸"%string /\
       Index.wasm s' =
         Nat.iter (Z.to_nat (Qceiling q)) (universe_tick (Index.universe s))
                  (Index.wasm s) /\
       Index.log s' =
         Index.log s ++ repeat (Index.CTick (Index.universe s)) (Z.to_nat (Qceiling q))
         ++ redraw_calls s' ++ [Index.CRequestFrame (Index.next_id s)]).
Proof.
  split.
  - intros id Hid. exists (paused s).
    pose proof (playPause_click_cases S2N fuel s) as Hc. rewrite Hid in Hc.
    split; [exact Hc|].
    split; [reflexivity|]. split; [reflexivity|]. split; [reflexivity|].
    split.
    { cbn [paused Index.pending Index.set_animationId Index.set_log Index.set_frames].
      rewrite Hid. apply cancelled_not_pending. }
    split; [reflexivity|].
    cbn [paused Index.log Index.set_animationId Index.set_log]. rewrite Hid. reflexivity.
  - intros q Hid Hq Hmax Hfuel Hview.
    set (k := Z.to_nat (Qceiling q)) in *.
    set (s0 := Index.set_playPauseButton "⏸" s).
    exists (frame_requested (redrawn (ticked k s0))).
    assert (Hrun : Index.playPause_click S2N fuel s
                   = (Index.Returned tt, frame_requested (redrawn (ticked k s0)))).
    { replace (Index.playPause_click S2N fuel s) with (Index.play S2N fuel s).
      - rewrite play_unfold.
        apply renderLoop_returns; [exact Hq | exact Hmax | exact Hfuel |].
        rewrite <- Hview. apply view_in_memory_ext; reflexivity.
      - unfold Index.playPause_click, Index.isPaused, Index.bind, Index.get, Index.ret.
        rewrite Hid. reflexivity. }
    split; [exact Hrun|].
    destruct (frame_shape k s0) as (Hwasm & _ & Hlog & Haid & _ & Hbtn).
    split; [exact Haid|].
    split; [rewrite isPaused_returns, Haid; reflexivity|].
    split; [exact Hbtn|].
    split; [exact Hwasm | exact Hlog].
Qed.

(** ** A toggle that throws *)

(** X10: when [toggle_cell] throws, the click handler ends there: the
    call is the only one it has made, nothing is drawn, and the module's
    variables, the wasm instance and the canvas context are as they
    were before the click. *)
Theorem click_toggle_throws (b : Index.DOMRect) (e : Index.MouseEvent)
    (s : @Index.World W)
    (Hthrow : universe_toggle_cell (Index.universe s) (click_row s b e) (click_col s b e)
                                   (Index.wasm s) = None) :
  exists s' : @Index.World W,
    Index.canvas_click b e s = (Index.Thrown, s') /\
    same_vars s s' /\
    Index.ctx s' = Index.ctx s /\
    Index.log s' =
      Index.log s
      ++ [Index.CToggle (Index.universe s) (click_row s b e) (click_col s b e)].
Proof.
  exists (toggle_called (click_row s b e) (click_col s b e) s).
  rewrite canvas_click_cases, Hthrow.
  split; [reflexivity|]. split; [apply same_vars_set_log|].
  split; reflexivity.
Qed.

(** ** What the page keeps true *)

Lemma same_frames_trans (s1 s2 s3 : @Index.World W) :
  same_frames s1 s2 -> same_frames s2 s3 -> same_frames s1 s3.
Proof. intros (?&?&?) (?&?&?). repeat split; congruence. Qed.

Lemma same_controls_trans (s1 s2 s3 : @Index.World W) :
  same_controls s1 s2 -> same_controls s2 s3 -> same_controls s1 s3.
Proof. intros (?&?&?) (?&?&?). repeat split; congruence. Qed.

Lemma same_vars_same_frames (s s' : @Index.World W) : same_vars s s' -> same_frames s s'.
Proof.
  intros (_ & _ & _ & _ & _ & _ & Hid & Hbtn & _ & _ & _ & Hp & _).
  repeat split; assumption.
Qed.

Lemma same_vars_same_controls (s s' : @Index.World W) :
  same_vars s s' -> same_controls s s'.
Proof.
  intros (_ & _ & _ & _ & _ & _ & _ & _ & Hsl & Htv & Htp & _).
  repeat split; assumption.
Qed.

Lemma ticked_same (k : nat) (s : @Index.World W) :
  same_frames s (ticked k s) /\ same_controls s (ticked k s).
Proof. repeat split. Qed.

Lemma killed_same (s : @Index.World W) :
  same_frames s (killed s) /\ same_controls s (killed s).
Proof. repeat split. Qed.

Lemma replaced_same (r : R) (s : @Index.World W) :
  same_frames s (replaced r s) /\ same_controls s (replaced r s).
Proof. repeat split. Qed.

Lemma toggled_same (row col : JS.num) (w' : W) (s : @Index.World W) :
  same_frames s (toggled row col w' s) /\ same_controls s (toggled row col w' s).
Proof. repeat split. Qed.

Lemma toggle_called_same (row col : JS.num) (s : @Index.World W) :
  same_frames s (toggle_called row col s) /\ same_controls s (toggle_called row col s).
Proof. repeat split. Qed.

Lemma paused_same_controls (s : @Index.World W) : same_controls s (paused s).
Proof. repeat split. Qed.

Lemma frame_requested_same_controls (s : @Index.World W) :
  same_controls s (frame_requested s).
Proof. repeat split. Qed.

Lemma frame_taken_same_controls (id : Z) (s : @Index.World W) :
  same_controls s (frame_taken id s).
Proof. repeat split. Qed.

Lemma set_playPauseButton_same_controls (t : string) (s : @Index.World W) :
  same_controls s (Index.set_playPauseButton t s).
Proof. repeat split. Qed.

Lemma ticks_input_same_frames (v : string) (s : @Index.World W) :
  same_frames s (ticks_updated (Index.set_ticksFrameInputRange v s)).
Proof. repeat split. Qed.

Lemma redrawn_same (s : @Index.World W) :
  same_frames s (redrawn s) /\ same_controls s (redrawn s).
Proof.
  split; [apply same_vars_same_frames | apply same_vars_same_controls];
    apply redrawn_same_vars.
Qed.

Lemma redraw_thrown_same (s : @Index.World W) :
  same_frames s (cells_read (grid_drawn s)) /\
  same_controls s (cells_read (grid_drawn s)).
Proof.
  split; [apply same_vars_same_frames | apply same_vars_same_controls];
    apply redraw_thrown_same_vars.
Qed.

Lemma page_inv_ext (s s' : @Index.World W) : same_frames s s' -> page_inv s -> page_inv s'.
Proof.
  intros (Hp & Hid & Hbtn) [Hone Hglyph]. unfold page_inv.
  rewrite Hp, Hid, Hbtn. split; assumption.
Qed.

Lemma label_inv_ext (s s' : @Index.World W) :
  same_controls s s' -> label_inv s -> label_inv s'.
Proof.
  intros (Htp & Hsl & Htv) [Ht Hv]. unfold label_inv.
  rewrite Htp, Hsl, Htv. split; assumption.
Qed.

Lemma page_inv_frames (s : @Index.World W) : page_inv s -> frames_inv s.
Proof.
  intros [[Hp | (id & Hp & Hid)] _] j Hj; rewrite Hp in Hj.
  - destruct Hj.
  - destruct Hj as [<- | []]. exact Hid.
Qed.

Lemma page_inv_idle (s : @Index.World W) :
  Index.pending s = [] ->
  (Index.animationId s <> None -> Index.playPauseButton s = "⏸"%string) ->
  page_inv s.
Proof. intros Hp Hg. split; [left; exact Hp | exact Hg]. Qed.

Lemma rendered_same_controls (s : @Index.World W)
    (r : Index.outcome unit * @Index.World W) :
  rendered s r -> same_controls s (snd r).
Proof.
  intros Hr. inversion Hr as [k | k Hv | k Hv]; subst; cbn [snd].
  - apply ticked_same.
  - eapply same_controls_trans; [apply ticked_same | apply redraw_thrown_same].
  - eapply same_controls_trans; [apply ticked_same|].
    eapply same_controls_trans; [apply redrawn_same | apply frame_requested_same_controls].
Qed.

Lemma rendered_page_inv (s : @Index.World W) (r : Index.outcome unit * @Index.World W) :
  Index.pending s = [] -> Index.playPauseButton s = "⏸"%string ->
  rendered s r -> page_inv (snd r).
Proof.
  intros Hp Hbtn Hr. inversion Hr as [k | k Hv | k Hv]; subst; cbn [snd].
  - apply (page_inv_ext s); [apply ticked_same|].
    apply page_inv_idle; [exact Hp | intros _; exact Hbtn].
  - apply (page_inv_ext s).
    + eapply same_frames_trans; [apply ticked_same | apply redraw_thrown_same].
    + apply page_inv_idle; [exact Hp | intros _; exact Hbtn].
  - destruct (frame_shape k s) as (_ & _ & _ & Hid & Hpend & Hb).
    split.
    + right. exists (Index.next_id s). rewrite Hpend, Hp. split; [reflexivity | exact Hid].
    + intros _. rewrite Hb. exact Hbtn.
Qed.

Lemma paused_page_inv (s : @Index.World W) : page_inv s -> page_inv (paused s).
Proof.
  intros Hinv. apply page_inv_idle.
  - apply paused_pending_nil, page_inv_frames, Hinv.
  - intros Hne. exfalso. apply Hne. reflexivity.
Qed.

Lemma handled_page_inv (e : Index.ui_event) (s : @Index.World W)
    (r : Index.outcome unit * @Index.World W) :
  page_inv s -> handled s e r -> page_inv (snd r).
Proof.
  intros Hinv Hh. inversion Hh; subst; cbn [snd].
  - apply paused_page_inv, Hinv.
  - eapply rendered_page_inv; [| |eassumption]; [|reflexivity].
    rewrite set_playPauseButton_pending.
    destruct Hinv as [[Hp | (id & _ & Hid)] _]; [exact Hp | congruence].
  - eapply page_inv_ext; [apply ticks_input_same_frames | exact Hinv].
  - eapply page_inv_ext; [|exact Hinv].
    eapply same_frames_trans; [apply replaced_same | apply redrawn_same].
  - eapply page_inv_ext; [|exact Hinv].
    eapply same_frames_trans; [apply replaced_same | apply redraw_thrown_same].
  - eapply page_inv_ext; [|apply paused_page_inv, Hinv].
    eapply same_frames_trans; [apply killed_same | apply redrawn_same].
  - eapply page_inv_ext; [|apply paused_page_inv, Hinv].
    eapply same_frames_trans; [apply killed_same | apply redraw_thrown_same].
  - eapply page_inv_ext; [|exact Hinv].
    eapply same_frames_trans; [apply toggled_same | apply redrawn_same].
  - eapply page_inv_ext; [|exact Hinv].
    eapply same_frames_trans; [apply toggled_same | apply redraw_thrown_same].
  - eapply page_inv_ext; [apply toggle_called_same | exact Hinv].
  - match goal with Hex : existsb _ _ = true |- _ =>
      apply existsb_exists in Hex; destruct Hex as (y & Hy & Heq) end.
    apply Z.eqb_eq in Heq. subst y.
    destruct Hinv as [[Hp | (j & Hp & Hid)] Hglyph]; [rewrite Hp in Hy; destruct Hy|].
    rewrite Hp in Hy. destruct Hy as [<- | []].
    eapply rendered_page_inv; [| |eassumption].
    + cbn [frame_taken Index.pending Index.set_frames]. rewrite Hp.
      cbn [List.filter]. rewrite Z.eqb_refl. reflexivity.
    + cbn [frame_taken Index.playPauseButton Index.set_frames].
      apply Hglyph. congruence.
  - exact Hinv.
Qed.

Lemma start_cases (fuel : nat) (w0 : W) (page : Index.Page) :
  let T := ticks_updated (booted w0 page) in
  (exists r : Index.outcome unit * @Index.World W,
     Index.start S2N fuel w0 page = r /\
     rendered (Index.set_playPauseButton "⏸" (redrawn T)) r) \/
  Index.start S2N fuel w0 page = (Index.Thrown, cells_read (grid_drawn T)).
Proof.
  cbv zeta. rewrite start_unfold. destruct (view_in_memory _).
  - left. eexists. split; [reflexivity | apply play_cases].
  - right. reflexivity.
Qed.

Lemma booted_idle (w0 : W) (page : Index.Page) :
  let T := ticks_updated (booted w0 page) in
  Index.pending T = [] /\ Index.animationId T = None /\ label_inv T.
Proof. repeat split. Qed.

(** X8: in every state the page reaches, at most one animation frame is
    pending and it is the one whose id [animationId] holds, so that a
    page for which [isPaused()] is true has no frame pending; and while
    [animationId] is not null the play/pause button shows the pause
    glyph. *)
Theorem one_frame_at_a_time (fuel : nat) (w0 : W) (page : Index.Page)
    (es : list Index.ui_event) :
  let s := Index.run S2N fuel es (snd (Index.start S2N fuel w0 page)) in
  (Index.pending s = [] \/
   exists id : Z, Index.pending s = [id] /\ Index.animationId s = Some id) /\
  (Index.animationId s = None -> Index.pending s = []) /\
  (Index.animationId s <> None -> Index.playPauseButton s = "⏸"%string).
Proof.
  cbv zeta.
  assert (Hinv : page_inv (Index.run S2N fuel es (snd (Index.start S2N fuel w0 page)))).
  { apply run_invariant.
    - intros e s r Hs Hh. eapply handled_page_inv; eassumption.
    - destruct (booted_idle w0 page) as (Hp & Hid & _).
      destruct (start_cases fuel w0 page) as [(r & -> & Hr) | ->].
      + eapply rendered_page_inv; [| |exact Hr]; [|reflexivity].
        rewrite set_playPauseButton_pending.
        destruct (redrawn_same (ticks_updated (booted w0 page))) as [(-> & _) _].
        exact Hp.
      + cbn [snd].
        destruct (redraw_thrown_same (ticks_updated (booted w0 page)))
          as [(Hp' & Hid' & _) _].
        apply page_inv_idle; [rewrite Hp'; exact Hp|].
        rewrite Hid', Hid. intros Hne. exfalso. apply Hne. reflexivity. }
  destruct Hinv as [Hone Hglyph].
  split; [exact Hone|]. split; [|exact Hglyph].
  intros Hnone. destruct Hone as [Hp | (id & _ & Hid)]; [exact Hp | congruence].
Qed.

Lemma handled_label_inv (e : Index.ui_event) (s : @Index.World W)
    (r : Index.outcome unit * @Index.World W) :
  label_inv s -> handled s e r -> label_inv (snd r).
Proof.
  intros Hinv Hh. inversion Hh; subst; cbn [snd].
  - eapply label_inv_ext; [apply paused_same_controls | exact Hinv].
  - eapply label_inv_ext; [|exact Hinv].
    eapply same_controls_trans;
      [apply set_playPauseButton_same_controls | apply rendered_same_controls; eassumption].
  - split; reflexivity.
  - eapply label_inv_ext; [|exact Hinv].
    eapply same_controls_trans; [apply replaced_same | apply redrawn_same].
  - eapply label_inv_ext; [|exact Hinv].
    eapply same_controls_trans; [apply replaced_same | apply redraw_thrown_same].
  - eapply label_inv_ext; [|exact Hinv].
    eapply same_controls_trans; [apply paused_same_controls|].
    eapply same_controls_trans; [apply killed_same | apply redrawn_same].
  - eapply label_inv_ext; [|exact Hinv].
    eapply same_controls_trans; [apply paused_same_controls|].
    eapply same_controls_trans; [apply killed_same | apply redraw_thrown_same].
  - eapply label_inv_ext; [|exact Hinv].
    eapply same_controls_trans; [apply toggled_same | apply redrawn_same].
  - eapply label_inv_ext; [|exact Hinv].
    eapply same_controls_trans; [apply toggled_same | apply redraw_thrown_same].
  - eapply label_inv_ext; [apply toggle_called_same | exact Hinv].
  - eapply label_inv_ext; [|exact Hinv].
    eapply same_controls_trans;
      [apply frame_taken_same_controls | apply rendered_same_controls; eassumption].
  - exact Hinv.
Qed.

(** X9: from start-up on, and after every event, the ticks label shows
    the value of the range control and [ticksPerFrame] holds that same
    string: an [input] event brings both up to date, and nothing else
    writes them.  The number 1 the variable is initialised with is never
    what a frame uses. *)
Theorem ticks_follow_the_control (fuel : nat) (w0 : W) (page : Index.Page)
    (es : list Index.ui_event) :
  let s := Index.run S2N fuel es (snd (Index.start S2N fuel w0 page)) in
  Index.ticksPerFrame s = JS.Str (Index.ticksFrameInputRange s) /\
  Index.ticksValue s = Index.ticksFrameInputRange s /\
  forall v : string,
    let s' := snd (Index.dispatch S2N fuel (Index.TicksInput v) s) in
    Index.ticksFrameInputRange s' = v /\
    Index.ticksValue s' = v /\
    Index.ticksPerFrame s' = JS.Str v /\
    Index.log s' = Index.log s /\ Index.wasm s' = Index.wasm s.
Proof.
  cbv zeta.
  assert (Hinv : label_inv (Index.run S2N fuel es (snd (Index.start S2N fuel w0 page)))).
  { apply run_invariant.
    - intros e s r Hs Hh. eapply handled_label_inv; eassumption.
    - destruct (booted_idle w0 page) as (_ & _ & Hl).
      destruct (start_cases fuel w0 page) as [(r & -> & Hr) | ->].
      + eapply label_inv_ext; [|exact Hl].
        eapply same_controls_trans; [apply redrawn_same|].
        eapply same_controls_trans;
          [apply set_playPauseButton_same_controls | apply rendered_same_controls; exact Hr].
      + eapply label_inv_ext; [apply redraw_thrown_same | exact Hl]. }
  destruct Hinv as [Ht Hv]. split; [exact Ht|]. split; [exact Hv|].
  intros v. repeat split.
Qed.

Lemma frames_idle (fuel : nat) (ids : list Z) (s : @Index.World W) :
  Index.pending s = [] ->
  Index.run S2N fuel (map Index.AnimationFrame ids) s = s.
Proof.
  intros Hp. induction ids as [|id ids IH]; [reflexivity|].
  cbn [map Index.run Index.dispatch].
  rewrite animation_frame_unfold, Hp. cbn [existsb]. exact IH.
Qed.

(** X7: pausing stops the simulation.  In a state in which every
    pending request is the one [animationId] holds (every state the
    page reaches), after a click that pauses, and after a kill-all,
    no frame is pending; whichever frame callbacks the browser still
    delivers then, the state stays exactly as it is: no tick, no redraw,
    no new request. *)
Theorem paused_frames_do_nothing (fuel : nat) (s : @Index.World W) (ids : list Z)
    (Hinv : frames_inv s) :
  (Index.animationId s <> None ->
   let s1 := snd (Index.playPause_click S2N fuel s) in
   Index.pending s1 = [] /\
   Index.run S2N fuel (map Index.AnimationFrame ids) s1 = s1) /\
  (let s2 := snd (Index.kill_click s) in
   Index.pending s2 = [] /\
   Index.run S2N fuel (map Index.AnimationFrame ids) s2 = s2).
Proof.
  pose proof (paused_pending_nil s Hinv) as Hp.
  split.
  - intros Hrun. cbv zeta.
    pose proof (playPause_click_cases S2N fuel s) as Hc.
    destruct (Index.animationId s) as [id|]; [|exfalso; apply Hrun; reflexivity].
    rewrite Hc. cbn [snd]. split; [exact Hp | apply frames_idle; exact Hp].
  - cbv zeta.
    assert (Hp2 : Index.pending (snd (Index.kill_click s)) = []).
    { rewrite kill_click_cases. destruct (view_in_memory _); cbn [snd].
      - destruct (redrawn_same (killed (paused s))) as [(-> & _) _].
        destruct (killed_same (paused s)) as [(-> & _) _]. exact Hp.
      - destruct (redraw_thrown_same (killed (paused s))) as [(-> & _) _].
        destruct (killed_same (paused s)) as [(-> & _) _]. exact Hp. }
    split; [exact Hp2 | apply frames_idle; exact Hp2].
Qed.

(** ** Start-up *)

(** X12: when the range control holds a finite number [q] of at most
    2^53 and the view of the cells fits in the wasm memory before and
    after the first ticks, the module's start-up code returns.  It
    creates one universe and reads its width and height, draws that
    universe as it was created, and only then starts to play: the first
    batch of ticks, a second redraw and the request for frame 1, whose
    id [animationId] holds while the button shows the pause glyph. *)
Theorem start_draws_then_plays (fuel : nat) (w0 : W) (page : Index.Page) (q : Q)
    (Hq : S2N (Index.page_ticksFrameInputRange page) = JS.Fin q)
    (Hmax : Qceiling q <= 2 ^ 53)
    (Hfuel : (Z.to_nat (Qceiling q) <= fuel)%nat)
    (Hv0 : view_in_memory (booted w0 page) = true)
    (Hv1 : view_in_memory (ticked (Z.to_nat (Qceiling q)) (booted w0 page)) = true) :
  let w1 := fst (Universe_new w0) in
  let u := snd (Universe_new w0) in
  let n := Z.to_nat (Qceiling q) in
  exists s' : @Index.World W,
    Index.start S2N fuel w0 page = (Index.Returned tt, s') /\
    Index.log s' =
      [Index.CNew; Index.CWidth u; Index.CHeight u]
      ++ redraw_calls (booted w0 page)
      ++ repeat (Index.CTick u) n
      ++ redraw_calls s' ++ [Index.CRequestFrame 1] /\
    Index.wasm s' = Nat.iter n (universe_tick u) w1 /\
    Index.universe s' = u /\
    Index.animationId s' = Some 1 /\
    Index.pending s' = [1] /\
    Index.playPauseButton s' = "⏸"%string.
Proof.
  intros w1 u n.
  set (B := booted w0 page) in *.
  set (T := ticks_updated B).
  set (s0 := Index.set_playPauseButton "⏸" (redrawn T)).
  destruct (redrawn_same_vars T)
    as (Hwasm & Hu & Hw & Hh & _ & _ & _ & _ & Hsl & _ & Htp & Hpend & Hid).
  assert (HvT : view_in_memory T = true)
    by (rewrite <- Hv0; apply view_in_memory_ext; reflexivity).
  assert (Hq0 : Index.ToNumber S2N (Index.ticksPerFrame s0) = JS.Fin q).
  { unfold s0. destruct (set_playPauseButton_ticks "⏸" (redrawn T)) as [-> _].
    rewrite Htp. exact Hq. }
  assert (Hwasm0 : Index.wasm s0 = w1) by (unfold s0; cbn [Index.wasm Index.set_playPauseButton]; rewrite Hwasm; reflexivity).
  assert (Hu0 : Index.universe s0 = u) by (unfold s0; cbn [Index.universe Index.set_playPauseButton]; rewrite Hu; reflexivity).
  assert (Hw0 : Index.width s0 = Index.width B) by (unfold s0; cbn [Index.width Index.set_playPauseButton]; rewrite Hw; reflexivity).
  assert (Hh0 : Index.height s0 = Index.height B) by (unfold s0; cbn [Index.height Index.set_playPauseButton]; rewrite Hh; reflexivity).
  assert (Hid0 : Index.next_id s0 = 1) by (unfold s0; cbn [Index.next_id Index.set_playPauseButton]; rewrite Hid; reflexivity).
  assert (Hp0 : Index.pending s0 = []) by (unfold s0; rewrite set_playPauseButton_pending, Hpend; reflexivity).
  assert (Hlog0 : Index.log s0
                  = [Index.CNew; Index.CWidth u; Index.CHeight u] ++ redraw_calls B).
  { unfold s0. cbn [Index.log Index.set_playPauseButton].
    rewrite redrawn_log. reflexivity. }
  assert (Hview0 : view_in_memory (ticked n s0) = true).
  { rewrite <- Hv1. apply view_in_memory_ext.
    - rewrite !ticked_wasm, Hwasm0, Hu0. reflexivity.
    - destruct (ticked_fields n s0) as (-> & _). exact Hu0.
    - exact Hw0.
    - exact Hh0. }
  exists (frame_requested (redrawn (ticked n s0))).
  split.
  { rewrite start_unfold. fold B T. rewrite HvT, play_unfold. fold s0.
    apply renderLoop_returns; assumption. }
  destruct (frame_shape n s0) as (Hwasm' & Hu' & Hlog' & Hid' & Hpend' & Hbtn').
  rewrite Hwasm', Hu', Hlog', Hid', Hpend', Hbtn', Hwasm0, Hu0, Hid0, Hp0, Hlog0,
    <- !app_assoc.
  repeat split.
Qed.

(** ** A delivered frame *)

Lemma frame_taken_pending_nil (id : Z) (s : @Index.World W) :
  frames_inv s -> In id (Index.pending s) -> Index.pending (frame_taken id s) = [].
Proof.
  intros Hinv Hin. cbn [frame_taken Index.pending Index.set_frames].
  destruct (List.filter _ _) as [|x l] eqn:Hf; [reflexivity|].
  assert (Hx : In x (List.filter (fun j => negb (j =? id)) (Index.pending s)))
    by (rewrite Hf; left; reflexivity).
  apply filter_In in Hx. destruct Hx as [Hx Hne].
  pose proof (Hinv x Hx) as Hax. pose proof (Hinv id Hin) as Hay.
  rewrite Hax in Hay. injection Hay as ->.
  rewrite Z.eqb_refl in Hne. discriminate.
Qed.

(** X15: the animation re-arms itself once per frame.  When the browser
    runs a frame that is pending, in a state in which every pending
    request is the one [animationId] holds, and [ticksPerFrame] reads
    as a finite number of at most 2^53, the callback makes its batch of
    ticks, redraws, and leaves exactly one request pending: the new one,
    whose id is stored in [animationId]. *)
Theorem animation_frame_rearms (fuel : nat) (id : Z) (s : @Index.World W) (q : Q)
    (Hinv : frames_inv s) (Hin : In id (Index.pending s))
    (Hq : Index.ToNumber S2N (Index.ticksPerFrame s) = JS.Fin q)
    (Hmax : Qceiling q <= 2 ^ 53)
    (Hfuel : (Z.to_nat (Qceiling q) <= fuel)%nat)
    (Hview : view_in_memory (ticked (Z.to_nat (Qceiling q)) s) = true) :
  exists s' : @Index.World W,
    Index.animation_frame S2N fuel id s = (Index.Returned tt, s') /\
    Index.pending s' = [Index.next_id s] /\
    Index.animationId s' = Some (Index.next_id s) /\
    Index.wasm s' =
      Nat.iter (Z.to_nat (Qceiling q)) (universe_tick (Index.universe s)) (Index.wasm s) /\
    Index.log s' =
      Index.log s ++ repeat (Index.CTick (Index.universe s)) (Z.to_nat (Qceiling q))
      ++ redraw_calls s' ++ [Index.CRequestFrame (Index.next_id s)].
Proof.
  set (k := Z.to_nat (Qceiling q)) in *.
  exists (frame_requested (redrawn (ticked k (frame_taken id s)))).
  split.
  { rewrite animation_frame_unfold.
    assert (Hex : existsb (Z.eqb id) (Index.pending s) = true)
      by (apply existsb_exists; exists id; split; [exact Hin | apply Z.eqb_refl]).
    rewrite Hex. apply renderLoop_returns; [exact Hq | exact Hmax | exact Hfuel |].
    rewrite <- Hview. apply view_in_memory_ext; reflexivity. }
  destruct (frame_shape k (frame_taken id s)) as (Hwasm & _ & Hlog & Hid & Hpend & _).
  rewrite (frame_taken_pending_nil id s Hinv Hin) in Hpend.
  split; [exact Hpend|]. split; [exact Hid|]. split; [exact Hwasm | exact Hlog].
Qed.

End Coverage.

(** ** The properties on the demo page *)

Ltac by_computation := vm_compute; repeat split; first [reflexivity | discriminate].

Lemma drawGrid_lines_witness :
  exists (s' : Index.World) (p : list Index.PathOp),
    Index.drawGrid demo = (Index.Returned tt, s') /\
    Index.log s' = Index.log demo ++ [Index.CStroke p Index.GRID_COLOR] /\
    length p = Z.to_nat (2 * (Index.width demo + 1) + 2 * (Index.height demo + 1)).
Proof.
  destruct (drawGrid_lines demo) as (s' & p & Hrun & _ & Hlog & _ & Hlen & _).
  - by_computation.
  - by_computation.
  - exists s', p. split; [exact Hrun|]. split; [exact Hlog | exact Hlen].
Defined.

Lemma drawCells_rectangles_witness :
  exists (s' : Index.World),
    @Index.drawCells _ _ demo_engine demo = (Index.Returned tt, s').
Proof.
  destruct (@drawCells_rectangles _ _ demo_engine demo) as (s' & rects & Hrun & _).
  - by_computation.
  - by_computation.
  - by_computation.
  - exists s'. exact Hrun.
Defined.

Lemma click_hits_painted_cell_witness :
  exists rest : list Index.call,
    Index.log (snd (@Index.canvas_click _ _ demo_engine demo_rect demo_inside demo))
    = Index.log demo
      ++ Index.CToggle (Index.universe demo) (JS.of_Z 0) (JS.of_Z 0) :: rest.
Proof.
  apply (@click_hits_painted_cell _ _ demo_engine demo_rect demo_inside demo 0 0
           3 3 0 0); by_computation.
Defined.

Lemma renderLoop_ceiling_ticks_witness :
  exists s' : Index.World,
    @Index.renderLoop _ _ demo_engine GridEngine.StringToNumber 5 demo
    = (Index.Returned tt, s').
Proof.
  destruct (@renderLoop_ceiling_ticks _ _ demo_engine GridEngine.StringToNumber
              5 demo (inject_Z 3)) as (s' & Hrun & _).
  - by_computation.
  - by_computation.
  - vm_compute. lia.
  - by_computation.
  - exists s'. exact Hrun.
Defined.

Lemma renderLoop_no_ticks_witness :
  exists s' : Index.World,
    @Index.renderLoop _ _ demo_engine GridEngine.StringToNumber 0 demo_still
    = (Index.Returned tt, s') /\
    Index.wasm s' = Index.wasm demo_still.
Proof.
  destruct (@renderLoop_no_ticks _ _ demo_engine GridEngine.StringToNumber 0 demo_still)
    as (s' & Hrun & Hwasm & _).
  - by_computation.
  - by_computation.
  - exists s'. split; [exact Hrun | exact Hwasm].
Defined.

Lemma renderLoop_never_returns_witness :
  @Index.renderLoop _ _ demo_engine GridEngine.StringToNumber 7 demo_huge
  = (Index.Diverged, @ticked _ _ demo_engine 7 demo_huge).
Proof.
  apply (@renderLoop_never_returns _ _ demo_engine GridEngine.StringToNumber 7 demo_huge).
  right. exists (inject_Z 9007199254740994). split; by_computation.
Defined.

Lemma paused_frames_do_nothing_witness :
  let s1 := snd (@Index.playPause_click _ _ demo_engine GridEngine.StringToNumber 5 demo) in
  Index.pending s1 = [] /\
  @Index.run _ _ demo_engine GridEngine.StringToNumber 5
    (map Index.AnimationFrame [1; 2]) s1 = s1.
Proof.
  destruct (@paused_frames_do_nothing _ _ demo_engine GridEngine.StringToNumber 5 demo
              [1; 2] demo_frames_inv) as [Hpause _].
  apply Hpause. by_computation.
Defined.

Lemma click_toggle_throws_witness :
  exists s' : Index.World,
    @Index.canvas_click _ _ demo_engine demo_rect demo_above demo = (Index.Thrown, s') /\
    Index.ctx s' = Index.ctx demo.
Proof.
  destruct (@click_toggle_throws _ _ demo_engine demo_rect demo_above demo)
    as (s' & Hrun & _ & Hctx & _).
  - by_computation.
  - exists s'. split; [exact Hrun | exact Hctx].
Defined.

Lemma renderLoop_redraw_throws_witness :
  exists s' : Index.World,
    @Index.renderLoop _ _ shrink_engine GridEngine.StringToNumber 5 demo_shrunk
    = (Index.Thrown, s') /\
    Index.pending s' = Index.pending demo_shrunk.
Proof.
  destruct (@renderLoop_redraw_throws _ _ shrink_engine GridEngine.StringToNumber
              5 demo_shrunk (inject_Z 3)) as (s' & Hrun & _ & Hpend & _).
  - by_computation.
  - by_computation.
  - vm_compute. lia.
  - by_computation.
  - exists s'. split; [exact Hrun | exact Hpend].
Defined.

Lemma start_draws_then_plays_witness :
  exists s' : Index.World,
    @Index.start _ _ demo_engine GridEngine.StringToNumber 8 [] demo_page
    = (Index.Returned tt, s') /\
    Index.pending s' = [1].
Proof.
  destruct (@start_draws_then_plays _ _ demo_engine GridEngine.StringToNumber
              8 [] demo_page (inject_Z 3))
    as (s' & Hrun & _ & _ & _ & _ & Hpend & _).
  - by_computation.
  - by_computation.
  - vm_compute. lia.
  - by_computation.
  - by_computation.
  - exists s'. split; [exact Hrun | exact Hpend].
Defined.

Lemma getIndex_row_major_witness :
  exists i i' : Z,
    Index.getIndex 0 1 demo = (Index.Returned i, demo) /\
    Index.getIndex 1 0 demo = (Index.Returned i', demo) /\
    0 <= i < Index.width demo * Index.height demo.
Proof.
  destruct (getIndex_row_major demo 0 1 1 0) as (i & i' & Hi & Hi' & Hrange & _).
  - by_computation.
  - by_computation.
  - by_computation.
  - by_computation.
  - exists i, i'. split; [exact Hi|]. split; [exact Hi' | exact Hrange].
Defined.

Lemma playPause_toggles_witness :
  exists s' : Index.World,
    @Index.playPause_click _ _ demo_engine GridEngine.StringToNumber 5 demo
    = (Index.Returned tt, s') /\
    Index.animationId s' = None.
Proof.
  destruct (@playPause_toggles _ _ demo_engine GridEngine.StringToNumber 5 demo)
    as [Hpause _].
  destruct (Hpause 1) as (s' & Hrun & Hid & _).
  - by_computation.
  - exists s'. split; [exact Hrun | exact Hid].
Defined.

Lemma one_frame_at_a_time_witness :
  let s := @Index.run _ _ demo_engine GridEngine.StringToNumber 5
             [Index.KillClick; Index.PlayPauseClick]
             (snd (@Index.start _ _ demo_engine GridEngine.StringToNumber 5 [] demo_page)) in
  Index.playPauseButton s = "⏸"%string.
Proof.
  destruct (@one_frame_at_a_time _ _ demo_engine GridEngine.StringToNumber 5 [] demo_page
              [Index.KillClick; Index.PlayPauseClick]) as (_ & _ & Hglyph).
  apply Hglyph. by_computation.
Defined.

Lemma animation_frame_rearms_witness :
  exists s' : Index.World,
    @Index.animation_frame _ _ demo_engine GridEngine.StringToNumber 5 1 demo
    = (Index.Returned tt, s') /\
    Index.pending s' = [Index.next_id demo].
Proof.
  destruct (@animation_frame_rearms _ _ demo_engine GridEngine.StringToNumber
              5 1 demo (inject_Z 3) demo_frames_inv)
    as (s' & Hrun & Hpend & _).
  - vm_compute. left. reflexivity.
  - by_computation.
  - by_computation.
  - vm_compute. lia.
  - by_computation.
  - exists s'. split; [exact Hrun | exact Hpend].
Defined.
